(** * Evolutionary tile-map generator: model of [main.py] and its properties

    The program evolves 30x30 tile maps with a generational genetic
    algorithm.  A map is a Python list of row lists; rows are mutated in
    place ([tile_map[y][x] = v]) and handles to maps are shared between the
    sorted population, the elites and the parents.  The model therefore keeps
    the rows in a store and represents a map by the addresses of its rows.
    Calls into Python's [random] module read a tape of draws that is part of
    the state: the tape plays the role of the process-wide generator. *)

From Stdlib Require Import ZArith Lia Sorted.
From stdpp Require Import base tactics option list numbers.

Local Open Scope Z_scope.

(** ** Configuration (lines 5-15) *)

Definition MAP_WIDTH : Z := 30.
Definition MAP_HEIGHT : Z := 30.
Definition POPULATION_SIZE : nat := 50.
Definition GENERATIONS : nat := 200.

(** [MUTATION_RATE = 0.03]: the binary64 value of the literal is
    [1080863910568919 / 2^55]. *)
Definition MUTATION_RATE_NUM : Z := 1080863910568919.
Definition MUTATION_RATE_DEN : Z := 2 ^ 55.

Definition PLAINS : Z := 0.
Definition MOUNTAIN : Z := 1.
Definition RIVER : Z := 2.
Definition ROCK : Z := 3.

(** ** Store, random tape and the monad of the program *)

(** Addresses of the store. *)
Abbreviation loc := nat (only parsing).

(** A map is the list of the addresses of its rows.  The outer list of a map
    is only appended to while the map is built, and never written later. *)
Abbreviation grid := (list nat) (only parsing).

Inductive exn := IndexError | ValueError | ZeroDivisionError | BadAddress.

(** [Starved]: the tape of draws ran out before the computation finished. *)
Inductive result (A : Type) :=
  | Ok (a : A)
  | Raise (e : exn)
  | Starved.
Arguments Ok {A} a.
Arguments Raise {A} e.
Arguments Starved {A}.

Record state := mkState { heap : list (list Z); tape : list Z }.

Definition M (A : Type) : Type := state -> result (A * state).

Definition ret {A} (a : A) : M A := fun s => Ok (a, s).

Definition bind {A B} (c : M A) (k : A -> M B) : M B :=
  fun s => match c s with
           | Ok (a, s') => k a s'
           | Raise e => Raise e
           | Starved => Starved
           end.

Definition raise {A} (e : exn) : M A := fun _ => Raise e.

Notation "x <- c ;; k" := (bind c (fun x => k))
  (at level 100, c at next level, right associativity).
Notation "c ;; k" := (bind c (fun _ => k))
  (at level 100, right associativity).

Fixpoint for_each {A} (l : list A) (body : A -> M unit) : M unit :=
  match l with
  | [] => ret tt
  | a :: l' => body a ;; for_each l' body
  end.

Fixpoint for_fold {A B} (l : list A) (body : A -> B -> M B) (acc : B) : M B :=
  match l with
  | [] => ret acc
  | a :: l' => acc' <- body a acc ;; for_fold l' body acc'
  end.

(** List comprehension [[f(a) for a in l]]. *)
Fixpoint mapM {A B} (f : A -> M B) (l : list A) : M (list B) :=
  match l with
  | [] => ret []
  | a :: l' => b <- f a ;; bs <- mapM f l' ;; ret (b :: bs)
  end.

(** [range(n)] *)
Definition range (n : Z) : list Z := seqZ 0 n.

(** *** The [random] module *)

Definition draw : M Z :=
  fun s => match tape s with
           | [] => Starved
           | r :: t => Ok (r, mkState (heap s) t)
           end.

(** [random.randint(a, b)]: an integer of [a..b], both ends included. *)
Definition randint (a b : Z) : M Z :=
  r <- draw ;; ret (a + r mod (b - a + 1)).

(** [random.random() < MUTATION_RATE]: [random()] is [k / 2^53] for a 53-bit
    integer [k]; the comparison of the two binary64 values is exact. *)
Definition random_lt_rate : M bool :=
  r <- draw ;;
  ret (r mod 2 ^ 53 * MUTATION_RATE_DEN <? MUTATION_RATE_NUM * 2 ^ 53).

(** [random.choice(seq)] *)
Definition choice {A} (l : list A) : M A :=
  match l with
  | [] => raise IndexError
  | _ => r <- draw ;;
         match l !! Z.to_nat (r mod Z.of_nat (length l)) with
         | Some a => ret a
         | None => raise IndexError
         end
  end.

(** *** Lists in the store *)

Definition alloc (row : list Z) : M loc :=
  fun s => Ok (length (heap s), mkState (heap s ++ [row]) (tape s)).

Definition load (l : loc) : M (list Z) :=
  fun s => match heap s !! l with
           | Some row => Ok (row, s)
           | None => Raise BadAddress
           end.

Definition store (l : loc) (row : list Z) : M unit :=
  fun s => if bool_decide (l < length (heap s))%nat
           then Ok (tt, mkState (<[l := row]> (heap s)) (tape s))
           else Raise BadAddress.

(** Python list indexing: [-n <= i < 0] counts from the end, anything
    outside [-n <= i < n] raises [IndexError]. *)
Definition py_index (n : nat) (i : Z) : option nat :=
  if bool_decide (0 <= i < Z.of_nat n) then Some (Z.to_nat i)
  else if bool_decide (- Z.of_nat n <= i < 0) then Some (Z.to_nat (Z.of_nat n + i))
  else None.

Definition item {A} (l : list A) (i : Z) : M A :=
  match py_index (length l) i ≫= (l !!.) with
  | Some a => ret a
  | None => raise IndexError
  end.

(** [tile_map[y][x]] *)
Definition get_cell (tile_map : grid) (y x : Z) : M Z :=
  l <- item tile_map y ;;
  row <- load l ;;
  item row x.

(** [tile_map[y][x] = v] *)
Definition set_cell (tile_map : grid) (y x v : Z) : M unit :=
  l <- item tile_map y ;;
  row <- load l ;;
  match py_index (length row) x with
  | Some i => store l (<[i := v]> row)
  | None => raise IndexError
  end.

(** ** The functions of [main.py] *)

(** Lines 27-43. *)
Definition generate_random_map : M grid :=
  for_fold (range MAP_HEIGHT) (fun y m =>
    row <- for_fold (range MAP_WIDTH) (fun x row =>
             if (x =? 0) || (x =? MAP_WIDTH - 1) || (y =? 0) || (y =? MAP_HEIGHT - 1)
             then ret (row ++ [MOUNTAIN])
             else t <- randint 0 3 ;; ret (row ++ [t])) [] ;;
    l <- alloc row ;;
    ret (m ++ [l])) [].

(** Lines 46-48. *)
Definition is_in_central_circle (x y center radius : Z) : bool :=
  let dist_sq := (x - center) ^ 2 + (y - center) ^ 2 in
  dist_sq <=? radius ^ 2.

(** Lines 51-62. *)
Definition enforce_constraints (tile_map : grid) : M unit :=
  for_each (range MAP_HEIGHT) (fun y =>
    for_each (range MAP_WIDTH) (fun x =>
      if is_in_central_circle x y 15 8
      then set_cell tile_map y x PLAINS
      else ret tt)) ;;
  for_each (range MAP_WIDTH) (fun x =>
    set_cell tile_map 0 x MOUNTAIN ;;
    set_cell tile_map (MAP_HEIGHT - 1) x MOUNTAIN) ;;
  for_each (range MAP_HEIGHT) (fun y =>
    set_cell tile_map y 0 MOUNTAIN ;;
    set_cell tile_map y (MAP_WIDTH - 1) MOUNTAIN).

(** Lines 65-70: [int(15 + 3 * math.sin(2 * math.pi * x / MAP_WIDTH))].
    The expression is evaluated in binary64; the table lists its value on
    the columns the program passes, [0 <= x < MAP_WIDTH].  At [x = 0] the
    float is [15.0] and at [x = 15] it is [15.000000000000002]; every other
    value is more than [0.01] away from an integer. *)
Definition river_rows : list Z :=
  [15; 15; 16; 16; 17; 17; 17; 17; 17; 17;
   17; 17; 16; 16; 15; 15; 14; 13; 13; 12;
   12; 12; 12; 12; 12; 12; 12; 13; 13; 14].

Definition get_river_row (x : Z) : Z :=
  default 15 (river_rows !! Z.to_nat x).

(** Lines 73-80. *)
Definition place_river (tile_map : grid) : M unit :=
  for_each (range MAP_WIDTH) (fun x =>
    let y_river := get_river_row x in
    for_each [-1; 0; 1] (fun offset =>
      let yy := y_river + offset in
      if (0 <? yy) && (yy <? MAP_HEIGHT - 1)
      then set_cell tile_map yy x RIVER
      else ret tt)).

(** Lines 89-93, the [while True] loop that looks for a seed.  Every turn
    reads two draws, so the length of the tape bounds the number of turns. *)
Fixpoint seed_loop (turns : nat) (tile_map : grid) : M (Z * Z) :=
  match turns with
  | O => fun _ => Starved
  | S turns' =>
      cx <- randint 5 (MAP_WIDTH - 5) ;;
      cy <- randint 5 (MAP_HEIGHT - 5) ;;
      t <- get_cell tile_map cy cx ;;
      if t =? MOUNTAIN then seed_loop turns' tile_map else ret (cx, cy)
  end.

Definition pick_seed (tile_map : grid) : M (Z * Z) :=
  fun s => seed_loop (length (tape s)) tile_map s.

(** Lines 83-100. *)
Definition place_rocks (tile_map : grid) (num_clusters : Z) : M unit :=
  for_each (range num_clusters) (fun _ =>
    c <- pick_seed tile_map ;;
    cluster_size <- randint 3 5 ;;
    for_each (range cluster_size) (fun _ =>
      nx <- (d <- randint (-1) 1 ;; ret (c.1 + d)) ;;
      ny <- (d <- randint (-1) 1 ;; ret (c.2 + d)) ;;
      if (0 <? nx) && (nx <? MAP_WIDTH - 1) && (0 <? ny) && (ny <? MAP_HEIGHT - 1)
      then t <- get_cell tile_map ny nx ;;
           if t =? PLAINS then set_cell tile_map ny nx ROCK else ret tt
      else ret tt)).

(** Lines 127-132: the scan of the river band, left at the first hit. *)
Fixpoint find_river (tile_map : grid) (x y_river : Z) (offsets : list Z) : M bool :=
  match offsets with
  | [] => ret false
  | offset :: rest =>
      let yy := y_river + offset in
      if (0 <=? yy) && (yy <? MAP_HEIGHT)
      then t <- get_cell tile_map yy x ;;
           if t =? RIVER then ret true else find_river tile_map x y_river rest
      else find_river tile_map x y_river rest
  end.

(** Lines 103-150. *)
Definition calculate_fitness (tile_map : grid) : M Z :=
  score <- for_fold (range MAP_HEIGHT) (fun y score =>
             for_fold (range MAP_WIDTH) (fun x score =>
               if is_in_central_circle x y 15 8
               then t <- get_cell tile_map y x ;;
                    if t =? PLAINS then ret (score + 1) else ret (score - 1)
               else ret score) score) 0 ;;
  score <- for_fold (range MAP_WIDTH) (fun x score =>
             for_fold (range MAP_HEIGHT) (fun y score =>
               t <- get_cell tile_map y x ;;
               if t =? MOUNTAIN
               then if is_in_central_circle x y 15 13
                    then ret (score - 10) else ret (score + 5)
               else ret score) score) score ;;
  score <- for_fold (range MAP_WIDTH) (fun x score =>
             found_river_in_band <-
               find_river tile_map x (get_river_row x) [-1; 0; 1] ;;
             if found_river_in_band
             then ret (score + 50) else ret (score - 500)) score ;;
  rock_count <- for_fold (range MAP_HEIGHT) (fun y rock_count =>
                  for_fold (range MAP_WIDTH) (fun x rock_count =>
                    t <- get_cell tile_map y x ;;
                    if t =? ROCK then ret (rock_count + 1) else ret rock_count)
                  rock_count) 0 ;;
  if (20 <=? rock_count) && (rock_count <=? 40)
  then ret (score + 50)
  else ret (score - Z.abs (rock_count - 22)).

(** Lines 153-161; [map1[y][:]] copies the row into a new list. *)
Definition crossover (map1 map2 : grid) : M grid :=
  let mid := MAP_HEIGHT / 2 in
  for_fold (range MAP_HEIGHT) (fun y child =>
    l <- item (if y <? mid then map1 else map2) y ;;
    row <- load l ;;
    l' <- alloc row ;;
    ret (child ++ [l'])) [].

(** Lines 165-168. *)
Definition mutate_cells (tile_map : grid) : M unit :=
  for_each (range MAP_HEIGHT) (fun y =>
    for_each (range MAP_WIDTH) (fun x =>
      hit <- random_lt_rate ;;
      if hit then t <- randint 0 3 ;; set_cell tile_map y x t else ret tt)).

(** Lines 174-177. *)
Definition clear_rocks (tile_map : grid) : M unit :=
  for_each (range MAP_HEIGHT) (fun yy =>
    for_each (range MAP_WIDTH) (fun xx =>
      t <- get_cell tile_map yy xx ;;
      if t =? ROCK then set_cell tile_map yy xx PLAINS else ret tt)).

(** The constraint pass.  After random generation it is lines 191-193 of
    [main]; after the sweep of [mutate] it is lines 170-179, where rocks are
    cleared before they are placed again. *)
Definition enforcer_pass (after_mutation : bool) (tile_map : grid) : M unit :=
  enforce_constraints tile_map ;;
  place_river tile_map ;;
  (if after_mutation then clear_rocks tile_map else ret tt) ;;
  place_rocks tile_map 8.

(** Lines 164-181. *)
Definition mutate (tile_map : grid) : M grid :=
  mutate_cells tile_map ;;
  enforcer_pass true tile_map ;;
  ret tile_map.

(** Lines 189-193. *)
Definition new_individual : M grid :=
  individual <- generate_random_map ;;
  enforcer_pass false individual ;;
  ret individual.

(** [max(l)] of a list of integers. *)
Definition py_max (l : list Z) : M Z :=
  match l with
  | [] => raise ValueError
  | a :: l' => ret (fold_left Z.max l' a)
  end.

(** [sum(l) / len(l)]; the quotient is only printed. *)
Definition py_mean (l : list Z) : M unit :=
  if bool_decide (length l = 0%nat) then raise ZeroDivisionError else ret tt.

(** [sorted(..., key=lambda x: x[0], reverse=True)]: descending and stable. *)
Fixpoint insert_desc {A} (p : Z * A) (l : list (Z * A)) : list (Z * A) :=
  match l with
  | [] => [p]
  | q :: l' => if q.1 <=? p.1 then p :: l else q :: insert_desc p l'
  end.

Definition sorted_desc {A} (l : list (Z * A)) : list (Z * A) :=
  foldr insert_desc [] l.

(** Lines 211-216.  Every turn appends one child, so [population_size]
    turns are enough. *)
Fixpoint fill (turns population_size : nat) (sorted_pop new_population : list grid)
  : M (list grid) :=
  if bool_decide (length new_population < population_size)%nat
  then match turns with
       | O => fun _ => Starved
       | S turns' =>
           parent1 <- choice (take 15 sorted_pop) ;;
           parent2 <- choice (take 15 sorted_pop) ;;
           child <- crossover parent1 parent2 ;;
           child <- mutate child ;;
           fill turns' population_size sorted_pop (new_population ++ [child])
       end
  else ret new_population.

(** Lines 197-218, one generation; the progress line is not modelled. *)
Definition generation (population_size : nat) (population : list grid)
  : M (list grid) :=
  fitness_scores <- mapM calculate_fitness population ;;
  best_score <- py_max fitness_scores ;;
  avg_score <- py_mean fitness_scores ;;
  let sorted_pop := (sorted_desc (zip fitness_scores population)).*2 in
  let new_population := take 5 sorted_pop in
  fill population_size population_size sorted_pop new_population.

(** [max(range(len(l)), key=lambda i: l[i])]: the first index of a maximum. *)
Fixpoint argmax_from (i best_i : nat) (best : Z) (l : list Z) : nat :=
  match l with
  | [] => best_i
  | a :: l' => if best <? a then argmax_from (S i) i a l'
               else argmax_from (S i) best_i best l'
  end.

Definition py_argmax (l : list Z) : M nat :=
  match l with
  | [] => raise ValueError
  | a :: l' => ret (argmax_from 1 0 a l')
  end.

(** Lines 187-194. *)
Definition first_population (population_size : nat) : M (list grid) :=
  for_fold (seq 0 population_size) (fun _ population =>
    individual <- new_individual ;;
    ret (population ++ [individual])) [].

(** Lines 186-222, one turn of the loop of [main], with the two constants it
    reads as arguments.  The best map goes to the renderer; here it is
    returned with its score. *)
Definition evolve (population_size generations : nat) : M (grid * Z) :=
  population <- first_population population_size ;;
  population <- for_fold (seq 0 generations) (fun _ population =>
                  generation population_size population) population ;;
  final_fitness_scores <- mapM calculate_fitness population ;;
  best_index <- py_argmax final_fitness_scores ;;
  best_map <- item population (Z.of_nat best_index) ;;
  best_score <- item final_fitness_scores (Z.of_nat best_index) ;;
  ret (best_map, best_score).

(** Lines 17-24: the images of the four tiles, named by their files; a key
    the dictionary does not have gives [None]. *)
Inductive image : Type := grass_png | mountain_png | river_png | rock_png.

Definition TILE_IMAGES (tile : Z) : option image :=
  if tile =? PLAINS then Some grass_png
  else if tile =? MOUNTAIN then Some mountain_png
  else if tile =? RIVER then Some river_png
  else if tile =? ROCK then Some rock_png
  else None.

(** The output image of the renderer: its size and the tile images pasted
    on it, in the order of the calls, each with the position of its upper
    left corner. *)
Record canvas : Type := mkCanvas {
  out_width : Z;
  out_height : Z;
  pastes : list (image * (Z * Z))
}.

(** The error of a dictionary lookup with a missing key. *)
Inductive lookup_error : Type := KeyError.

(** Lines 228-240, with the size of the grass image, which line 24 reads
    from its file, as an argument.  A [KeyError] ends the loops; writing the
    file is not modelled. *)
Definition render_map_image (TILE_SIZE : Z * Z) (tile_map : grid)
  : M (lookup_error + canvas) :=
  let out_width := MAP_WIDTH * TILE_SIZE.1 in
  let out_height := MAP_HEIGHT * TILE_SIZE.2 in
  out <- for_fold (range MAP_HEIGHT) (fun y out =>
           for_fold (range MAP_WIDTH) (fun x out =>
             match out with
             | inl e => ret (inl e)
             | inr pasted =>
                 tile_type <- get_cell tile_map y x ;;
                 match TILE_IMAGES tile_type with
                 | Some tile_img =>
                     ret (inr (pasted ++
                                 [(tile_img, (x * TILE_SIZE.1, y * TILE_SIZE.2))]))
                 | None => ret (inl KeyError)
                 end
             end) out) (inr []) ;;
  ret (match out with
       | inl e => inl e
       | inr pasted => inr (mkCanvas out_width out_height pasted)
       end).

(** Lines 184-226: ten runs, each followed by the rendering of its best
    map.  [TILE_SIZE] is the size the module has read from the grass image
    at line 24, before [main] is called.  A [KeyError] of the renderer ends
    the loop; the two [print] calls and the file the renderer writes are not
    modelled. *)
Definition main (TILE_SIZE : Z * Z) : M (lookup_error + list (grid * Z * canvas)) :=
  for_fold (seq 0 10) (fun i out =>
    match out with
    | inl e => ret (inl e)
    | inr rendered =>
        best <- evolve POPULATION_SIZE GENERATIONS ;;
        image <- render_map_image TILE_SIZE best.1 ;;
        match image with
        | inl e => ret (inl e)
        | inr out_img => ret (inr (rendered ++ [(best, out_img)]))
        end
    end) (inr []).

(** ** Reading a map out of the store *)

Definition view (h : list (list Z)) (g : grid) : list (list Z) :=
  (fun l => default [] (h !! l)) <$> g.

Definition at_ (m : list (list Z)) (y x : Z) : Z :=
  default 0 (m !! Z.to_nat y ≫= (.!! Z.to_nat x)).

(** [m] with the cell at row [y], column [x] replaced by [v]. *)
Definition upd (m : list (list Z)) (y x v : Z) : list (list Z) :=
  alter (<[Z.to_nat x := v]>) (Z.to_nat y) m.

(** A full map: [MAP_HEIGHT] rows of [MAP_WIDTH] cells. *)
Definition shape (m : list (list Z)) : Prop :=
  length m = Z.to_nat MAP_HEIGHT ∧
  Forall (λ row, length row = Z.to_nat MAP_WIDTH) m.

(** A map that can be read: its rows are lists of the store and it is
    full. *)
Definition full (h : list (list Z)) (g : grid) : Prop :=
  Forall (λ l, (l < length h)%nat) g ∧ shape (view h g).

(** A map as the program builds them: a full map whose rows are distinct
    lists of the store. *)
Definition wf (h : list (list Z)) (g : grid) : Prop :=
  NoDup g ∧ full h g.

Definition in_map (y x : Z) : Prop :=
  0 <= y < MAP_HEIGHT ∧ 0 <= x < MAP_WIDTH.

(** [m1] is [m0] with the cells selected by [P] set to [v]. *)
Definition painted (P : Z → Z → bool) (v : Z) (m0 m1 : list (list Z)) : Prop :=
  ∀ y x, in_map y x → at_ m1 y x = if P y x then v else at_ m0 y x.

(** [m1] is [m0] with every cell mapped by [F]. *)
Definition cellwise (F : Z → Z → Z → Z) (m0 m1 : list (list Z)) : Prop :=
  ∀ y x, in_map y x → at_ m1 y x = F y x (at_ m0 y x).

(** The border of the map. *)
Definition on_border (y x : Z) : bool :=
  (y =? 0) || (y =? MAP_HEIGHT - 1) || (x =? 0) || (x =? MAP_WIDTH - 1).

(** The three rows around the river row of column [x]. *)
Definition in_band (y x : Z) : bool :=
  (get_river_row x - 1 <=? y) && (y <=? get_river_row x + 1).

(** Sum of [f] over a list of indices. *)
Definition sumZ (f : Z → Z) (l : list Z) : Z :=
  foldr (λ a acc, f a + acc) 0 l.

(** Number of cells of the map holding [tile]. *)
Definition count_tile (tile : Z) (m : list (list Z)) : Z :=
  sumZ (λ y, sumZ (λ x, if at_ m y x =? tile then 1 else 0) (range MAP_WIDTH))
       (range MAP_HEIGHT).

(** What rock placement may do to a map: turn plains inside the border
    into rock, at most [n] of them. *)
Definition rocks_added (n : Z) (m0 m1 : list (list Z)) : Prop :=
  (∀ y x, in_map y x →
     at_ m1 y x = at_ m0 y x ∨
     (at_ m0 y x = PLAINS ∧ at_ m1 y x = ROCK ∧ on_border y x = false)) ∧
  count_tile ROCK m1 <= count_tile ROCK m0 + n.

(** What the passes before rock placement leave in a cell that held [old]:
    the river band wins over the border, the border over the central circle;
    after a mutation sweep rocks are cleared as well. *)
Definition settled (after_mutation : bool) (y x old : Z) : Z :=
  let t := if in_band y x then RIVER
           else if on_border y x then MOUNTAIN
           else if is_in_central_circle x y 15 8 then PLAINS
           else old in
  if after_mutation && (t =? ROCK) then PLAINS else t.

(** The contents of a map after a constraint pass: every cell is settled,
    then at most 40 plains cells inside the border became rock. *)
Definition passed (after_mutation : bool) (m0 m1 : list (list Z)) : Prop :=
  ∃ m', shape m' ∧
        (∀ y x, in_map y x → at_ m' y x = settled after_mutation y x (at_ m0 y x)) ∧
        rocks_added 40 m' m1.

(** The score as the specification words it: the sum of four terms. *)
Definition central_term (m : list (list Z)) : Z :=
  sumZ (λ y, sumZ (λ x,
    if is_in_central_circle x y 15 8
    then (if at_ m y x =? PLAINS then 1 else -1)
    else 0) (range MAP_WIDTH)) (range MAP_HEIGHT).

Definition mountain_term (m : list (list Z)) : Z :=
  sumZ (λ y, sumZ (λ x,
    if at_ m y x =? MOUNTAIN
    then (if is_in_central_circle x y 15 13 then -10 else 5)
    else 0) (range MAP_WIDTH)) (range MAP_HEIGHT).

Definition river_term (m : list (list Z)) : Z :=
  sumZ (λ x,
    if existsb (λ offset, at_ m (get_river_row x + offset) x =? RIVER) [-1; 0; 1]
    then 50 else -500) (range MAP_WIDTH).

Definition rock_term (m : list (list Z)) : Z :=
  let rock_count := count_tile ROCK m in
  if (20 <=? rock_count) && (rock_count <=? 40)
  then 50 else - Z.abs (rock_count - 22).

Definition score (m : list (list Z)) : Z :=
  central_term m + mountain_term m + river_term m + rock_term m.

(** [c] only reads the map [g]: from a store where [g] is a full map it
    returns [f] of the contents of [g] and leaves the state as it was. *)
Definition reads {A} (g : grid) (c : M A) (f : list (list Z) → A) : Prop :=
  ∀ s, full (heap s) g → c s = Ok (f (view (heap s) g), s).

(** The row of the child of [map1] and [map2] at index [y]. *)
Definition child_row (h : list (list Z)) (map1 map2 : grid) (y : nat) : list Z :=
  default [] (view h (if Z.of_nat y <? MAP_HEIGHT / 2 then map1 else map2) !! y).

(** Every list of the store [h0] is still in [h], with the same contents. *)
Definition extends (h0 h : list (list Z)) : Prop :=
  ∀ l row, h0 !! l = Some row → h !! l = Some row.

(** [c] raises nothing from a state satisfying [P], and when it returns,
    [Q] relates the state before, the result and the state after. *)
Definition safe {A} (P : state → Prop) (c : M A)
    (Q : state → A → state → Prop) : Prop :=
  ∀ s, P s →
    match c s with
    | Ok (a, s') => Q s a s'
    | Raise _ => False
    | Starved => True
    end.

(** Every map of the population is a full map of the store. *)
Definition good (h : list (list Z)) (population : list grid) : Prop :=
  Forall (wf h) population.

(** The score of a map of the store. *)
Definition fitness (h : list (list Z)) (g : grid) : Z := score (view h g).

(** The population ranked as line 206 ranks it, scores attached. *)
Definition ranked (h : list (list Z)) (population : list grid) : list (Z * grid) :=
  sorted_desc (zip (fitness h <$> population) population).

(** [g] is a full map of [h] made of lists that [h0] does not have, and [h]
    keeps the lists of [h0]. *)
Definition fresh_map (h0 h : list (list Z)) (g : grid) : Prop :=
  extends h0 h ∧ wf h g ∧ Forall (λ l, (length h0 <= l)%nat) g.

(** [c] depends on the generator only through the draws it reads: when it
    returns, it has read a prefix [used] of the draws, and with any other
    continuation [u] of that prefix it returns the same result and store. *)
Definition steady {A} (c : M A) : Prop :=
  ∀ h t a h' t', c (mkState h t) = Ok (a, mkState h' t') →
    ∃ used, t = used ++ t' ∧
            ∀ u, c (mkState h (used ++ u)) = Ok (a, mkState h' u).

(** [c] reads no draw: it never waits for the generator and leaves the
    tape as it was. *)
Definition calm {A} (c : M A) : Prop :=
  ∀ s, match c s with
       | Ok (_, s') => tape s' = tape s
       | Raise _ => True
       | Starved => False
       end.

(** Decidable form of [wf], for concrete stores. *)
Definition wfb (h : list (list Z)) (g : grid) : bool :=
  bool_decide (NoDup g) &&
  forallb (λ l, bool_decide (l < length h)%nat) g &&
  bool_decide (length g = Z.to_nat MAP_HEIGHT) &&
  forallb (λ l, bool_decide (length (default [] (h !! l)) = Z.to_nat MAP_WIDTH)) g.

(** The state a run ends in, and its result. *)
Definition final_state {A} (r : result (A * state)) : state :=
  match r with Ok (_, s') => s' | _ => mkState [] [] end.

Definition returned {A} (r : result (A * state)) : option A :=
  match r with Ok (a, _) => Some a | _ => None end.

Definition succeeded {A} (r : result A) : bool :=
  match r with Ok _ => true | _ => false end.

(** A process whose store is empty and whose generator yields [r] for the
    next [n] draws. *)
Definition start (r : Z) (n : nat) : state := mkState [] (replicate n r).

(** A process whose generator was seeded with [seed]: the next [n] draws
    come from a linear congruential sequence, 53 bits each. *)
Fixpoint lcg (n : nat) (x : Z) : list Z :=
  match n with
  | O => []
  | S n' =>
      let x' := Z.land (6364136223846793005 * x + 1442695040888963407)
                       18446744073709551615 in
      Z.shiftr x' 11 :: lcg n' x'
  end.

Definition seeded (seed : Z) (n : nat) : state := mkState [] (lcg n seed).

(** Six individuals built from the generator seeded with 1. *)
Definition six_individuals : result (list grid * state) :=
  first_population 6 (seeded 1 (Z.to_nat 9000)).

(** A run of six individuals for one generation, from the generator seeded
    with [seed]. *)
Definition short_run (seed : Z) : result (grid * Z * state) :=
  evolve 6 1 (seeded seed (Z.to_nat 9000)).

(** The map a run returned, read from the final store, and its score. *)
Definition best_map (r : result (grid * Z * state)) : option (list (list Z)) :=
  match r with Ok (g, _, s') => Some (view (heap s') g) | _ => None end.

Definition best_score (r : result (grid * Z * state)) : option Z :=
  match r with Ok (_, best, _) => Some best | _ => None end.

Definition best_cell (r : result (grid * Z * state)) (y x : Z) : option Z :=
  (λ m, at_ m y x) <$> best_map r.

(** A store holding one map of plains, and the same draws. *)
Definition plains_grid : grid := seq 0 30.
Definition plains_state (r : Z) (n : nat) : state :=
  mkState (replicate 30 (replicate 30 PLAINS)) (replicate n r).

(** Every cell in which [m1] differs from [m0] lies in rows and columns 4
    to 26, one step around the square where clusters are seeded. *)
Definition boxed (m0 m1 : list (list Z)) : Prop :=
  ∀ y x, in_map y x → at_ m1 y x ≠ at_ m0 y x → 4 <= y <= 26 ∧ 4 <= x <= 26.

(** A store holding one map of mountains. *)
Definition mountain_state (t : list Z) : state :=
  mkState (replicate 30 (replicate 30 MOUNTAIN)) t.

(** Every cell holds one of the four tiles. *)
Definition tiles_ok (m : list (list Z)) : Prop :=
  ∀ y x, in_map y x → 0 <= at_ m y x <= 3.

(** The cells as a constraint pass leaves them: River on the river band,
    Mountain on the rest of the border, Plains or Rock on the rest of the
    central circle. *)
Definition constrained (m : list (list Z)) : Prop :=
  ∀ y x, in_map y x →
    if in_band y x then at_ m y x = RIVER
    else if on_border y x then at_ m y x = MOUNTAIN
    else is_in_central_circle x y 15 8 = true →
         at_ m y x = PLAINS ∨ at_ m y x = ROCK.

(** A map of the store as the program keeps them in a population. *)
Definition sound (h : list (list Z)) (g : grid) : Prop :=
  wf h g ∧ tiles_ok (view h g) ∧ constrained (view h g).

(** Decidable form of [sound], for concrete stores. *)
Definition cell_okb (y x v : Z) : bool :=
  (0 <=? v) && (v <=? 3) &&
  (if in_band y x then v =? RIVER
   else if on_border y x then v =? MOUNTAIN
   else if is_in_central_circle x y 15 8 then (v =? PLAINS) || (v =? ROCK)
   else true).

Definition soundb (h : list (list Z)) (g : grid) : bool :=
  wfb h g &&
  forallb (λ y, forallb (λ x, cell_okb y x (at_ (view h g) y x)) (range MAP_WIDTH))
          (range MAP_HEIGHT).







(** One turn of the inner loop of the renderer, on the contents of the
    map. *)
Definition paste_cell (TILE_SIZE : Z * Z) (m : list (list Z)) (y : Z)
    (out : lookup_error + list (image * (Z * Z))) (x : Z)
  : lookup_error + list (image * (Z * Z)) :=
  match out with
  | inl e => inl e
  | inr pasted =>
      match TILE_IMAGES (at_ m y x) with
      | Some tile_img =>
          inr (pasted ++ [(tile_img, (x * TILE_SIZE.1, y * TILE_SIZE.2))])
      | None => inl KeyError
      end
  end.

(** [c] works on the map [g] only: run from a store where [g] is a full
    map, it raises nothing, leaves [g] a full map, leaves every other list
    of the store alone, and relates the contents of [g] before, the result
    and the contents of [g] after by [R]. *)
Definition acts {A} (g : grid) (c : M A)
    (R : list (list Z) → A → list (list Z) → Prop) : Prop :=
  ∀ s, wf (heap s) g →
    match c s with
    | Ok (a, s') =>
        wf (heap s') g ∧
        length (heap s') = length (heap s) ∧
        (∀ l, l ∉ g → heap s' !! l = heap s !! l) ∧
        R (view (heap s) g) a (view (heap s') g)
    | Raise _ => False
    | Starved => True
    end.

(** ** Indexing and the store *)

Lemma item_lookup {A} (l : list A) (i : Z) (a : A) :
  0 <= i → l !! Z.to_nat i = Some a → item l i = ret a.
Proof.
  intros Hi Hl. unfold item, py_index.
  apply lookup_lt_Some in Hl as Hlt.
  rewrite bool_decide_eq_true_2 by lia. simpl. by rewrite Hl.
Qed.

Lemma shape_lookup m y x :
  shape m → in_map y x → ∃ v, m !! Z.to_nat y ≫= (.!! Z.to_nat x) = Some v.
Proof.
  intros [Hlen Hrows] [Hy Hx]. unfold MAP_HEIGHT, MAP_WIDTH in *.
  destruct (lookup_lt_is_Some_2 m (Z.to_nat y)) as [row Hrow]; [lia|].
  rewrite Hrow. simpl.
  rewrite Forall_lookup in Hrows. specialize (Hrows _ _ Hrow). simpl in Hrows.
  destruct (lookup_lt_is_Some_2 row (Z.to_nat x)) as [v Hv]; [lia|]. eauto.
Qed.

Lemma wf_full h g : wf h g → full h g.
Proof. by intros [_ ?]. Qed.

Lemma full_lookup h g y :
  full h g → 0 <= y < MAP_HEIGHT →
  ∃ l row, g !! Z.to_nat y = Some l ∧ h !! l = Some row ∧
           length row = Z.to_nat MAP_WIDTH ∧ view h g !! Z.to_nat y = Some row.
Proof.
  intros (Hval & Hlen & Hrows) Hy. unfold view in *.
  rewrite length_fmap in Hlen.
  destruct (lookup_lt_is_Some_2 g (Z.to_nat y)) as [l Hl]; [unfold MAP_HEIGHT in *; lia|].
  rewrite Forall_lookup in Hval. specialize (Hval _ _ Hl). simpl in Hval.
  destruct (lookup_lt_is_Some_2 h l) as [row Hrow]; [done|].
  exists l, row. rewrite Forall_lookup in Hrows.
  assert (Hv : ((λ l, default [] (h !! l)) <$> g) !! Z.to_nat y = Some row).
  { rewrite list_lookup_fmap, Hl. simpl. by rewrite Hrow. }
  specialize (Hrows _ _ Hv). done.
Qed.

Lemma wf_lookup h g y :
  wf h g → 0 <= y < MAP_HEIGHT →
  ∃ l row, g !! Z.to_nat y = Some l ∧ h !! l = Some row ∧
           length row = Z.to_nat MAP_WIDTH ∧ view h g !! Z.to_nat y = Some row.
Proof. intros Hwf. apply full_lookup. by apply wf_full. Qed.

Lemma full_shape h g : full h g → shape (view h g).
Proof. by intros (_ & ?). Qed.

Lemma wf_shape h g : wf h g → shape (view h g).
Proof. by intros (_ & _ & ?). Qed.

Lemma upd_shape m y x v : shape m → shape (upd m y x v).
Proof.
  intros [Hlen Hrows]. unfold upd. split.
  - by rewrite length_alter.
  - rewrite Forall_lookup in Hrows |- *. intros i row Hi.
    rewrite list_lookup_alter in Hi. case_decide; subst.
    + destruct (m !! Z.to_nat y) as [row0|] eqn:E; simplify_eq/=.
      rewrite length_insert. eauto.
    + eauto.
Qed.

Lemma at_upd m y x v y' x' :
  shape m → in_map y x → 0 <= y' → 0 <= x' →
  at_ (upd m y x v) y' x' = if bool_decide (y' = y ∧ x' = x) then v else at_ m y' x'.
Proof.
  intros Hm [Hy Hx] Hy' Hx'. unfold at_, upd.
  destruct (shape_lookup m y x Hm (conj Hy Hx)) as [v0 Hv0].
  destruct (m !! Z.to_nat y) as [row|] eqn:Hrow; [|done]. simpl in Hv0.
  apply lookup_lt_Some in Hv0 as Hlt.
  rewrite list_lookup_alter. case_decide as Hyy.
  - assert (y' = y) by lia. subst y'. rewrite Hrow. simpl.
    rewrite list_lookup_insert. case_decide as Hxx.
    + destruct Hxx as [Hxx _]. assert (x' = x) by lia. subst.
      by rewrite bool_decide_eq_true_2.
    + rewrite bool_decide_eq_false_2; [done|]. intros [_ ->]. apply Hxx. done.
  - rewrite bool_decide_eq_false_2; [done|]. intros [-> _]. done.
Qed.

Lemma get_cell_run h t g y x :
  full h g → in_map y x →
  get_cell g y x (mkState h t) = Ok (at_ (view h g) y x, mkState h t).
Proof.
  intros Hwf [Hy Hx].
  destruct (full_lookup h g y Hwf Hy) as (l & row & Hl & Hrow & Hlen & Hv).
  unfold get_cell, bind. rewrite (item_lookup g y l) by (done || lia).
  unfold ret, load. simpl. rewrite Hrow.
  destruct (lookup_lt_is_Some_2 row (Z.to_nat x)) as [v Hxv];
    [unfold MAP_WIDTH in *; lia|].
  rewrite (item_lookup row x v) by (done || lia).
  unfold ret, at_. rewrite Hv. simpl. by rewrite Hxv.
Qed.

Lemma set_cell_run h t g y x v :
  wf h g → in_map y x →
  ∃ h', set_cell g y x v (mkState h t) = Ok (tt, mkState h' t) ∧
        wf h' g ∧ length h' = length h ∧
        (∀ l, l ∉ g → h' !! l = h !! l) ∧
        view h' g = upd (view h g) y x v.
Proof.
  intros Hwf [Hy Hx].
  destruct (wf_lookup h g y Hwf Hy) as (l & row & Hl & Hrow & Hlen & Hv).
  destruct Hwf as (Hnd & Hval & Hshape).
  exists (<[l := <[Z.to_nat x := v]> row]> h).
  apply lookup_lt_Some in Hrow as Hlt.
  assert (Hview : view (<[l := <[Z.to_nat x := v]> row]> h) g = upd (view h g) y x v).
  { unfold view, upd. apply list_eq. intros i.
    rewrite list_lookup_fmap, list_lookup_alter, list_lookup_fmap.
    case_decide as Hi.
    - subst i. rewrite Hl. simpl. rewrite list_lookup_insert_eq by done.
      simpl. rewrite Hrow. reflexivity.
    - rewrite ?list_lookup_fmap.
      destruct (g !! i) as [l'|] eqn:Hl'; [|done]. simpl.
      rewrite list_lookup_insert_ne; [done|]. intros <-.
      apply Hi. by eapply NoDup_lookup. }
  split; [|split; [|split; [|split]]].
  - unfold set_cell, bind. rewrite (item_lookup g y l) by (done || lia).
    unfold ret, load. simpl. rewrite Hrow. unfold py_index.
    rewrite bool_decide_eq_true_2 by (unfold MAP_WIDTH in *; lia).
    unfold store. simpl. by rewrite bool_decide_eq_true_2.
  - split; [done|]. split.
    + rewrite length_insert. done.
    + rewrite Hview. by apply upd_shape.
  - by rewrite length_insert.
  - intros l' Hl'. rewrite list_lookup_insert_ne; [done|]. intros <-.
    apply Hl'. by eapply list_elem_of_lookup_2.
  - done.
Qed.

(** ** Rules for [acts] *)

Lemma acts_weaken {A} g (c : M A) (R R' : list (list Z) → A → list (list Z) → Prop) :
  acts g c R →
  (∀ m0 a m1, shape m0 → shape m1 → R m0 a m1 → R' m0 a m1) →
  acts g c R'.
Proof.
  intros Hc HR s Hwf. specialize (Hc s Hwf).
  destruct (c s) as [[a s']| |]; [|done..].
  destruct Hc as (Hwf' & ? & ? & ?). split_and!; try done.
  apply HR; eauto using wf_shape.
Qed.

Lemma acts_ret {A} g (a : A) (R : list (list Z) → A → list (list Z) → Prop) :
  (∀ m, shape m → R m a m) → acts g (ret a) R.
Proof.
  intros HR s Hwf. simpl. split_and!; try done. apply HR. by eapply wf_shape.
Qed.

Lemma acts_bind {A B} g (c : M A) (k : A → M B) R1 R2
    (R : list (list Z) → B → list (list Z) → Prop) :
  acts g c R1 →
  (∀ a, acts g (k a) (R2 a)) →
  (∀ m0 a m1 b m2, shape m0 → shape m1 → shape m2 →
     R1 m0 a m1 → R2 a m1 b m2 → R m0 b m2) →
  acts g (bind c k) R.
Proof.
  intros Hc Hk HR s Hwf. unfold bind. specialize (Hc s Hwf).
  destruct (c s) as [[a s1]| |]; [|done..].
  destruct Hc as (Hwf1 & Hlen1 & Hfr1 & H1).
  specialize (Hk a s1 Hwf1).
  destruct (k a s1) as [[b s2]| |]; [|done..].
  destruct Hk as (Hwf2 & Hlen2 & Hfr2 & H2).
  split; [done|]. split; [congruence|]. split.
  - intros l Hl. rewrite Hfr2, Hfr1; done.
  - apply (HR _ a (view (heap s1) g)); auto using wf_shape.
Qed.

(** The same, with a fact [φ] about the first result handed to the rest. *)
Lemma acts_bind_given {A B} g (c : M A) (k : A → M B) (φ : A → Prop) R1 R2
    (R : list (list Z) → B → list (list Z) → Prop) :
  acts g c (λ m0 a m1, φ a ∧ R1 m0 a m1) →
  (∀ a, φ a → acts g (k a) (R2 a)) →
  (∀ m0 a m1 b m2, shape m0 → shape m1 → shape m2 →
     R1 m0 a m1 → R2 a m1 b m2 → R m0 b m2) →
  acts g (bind c k) R.
Proof.
  intros Hc Hk HR s Hwf. unfold bind. specialize (Hc s Hwf).
  destruct (c s) as [[a s1]| |]; [|done..].
  destruct Hc as (Hwf1 & Hlen1 & Hfr1 & Hφ & H1).
  specialize (Hk a Hφ s1 Hwf1).
  destruct (k a s1) as [[b s2]| |]; [|done..].
  destruct Hk as (Hwf2 & Hlen2 & Hfr2 & H2).
  split; [done|]. split; [congruence|]. split.
  - intros l Hl. rewrite Hfr2, Hfr1; done.
  - apply (HR _ a (view (heap s1) g)); auto using wf_shape.
Qed.

Lemma acts_for_each {A} g (l : list A) (body : A → M unit)
    (Inv : list A → list (list Z) → list (list Z) → Prop) :
  (∀ m, shape m → Inv [] m m) →
  (∀ done a rest, l = done ++ a :: rest →
     acts g (body a) (λ m1 _ m2,
       ∀ m0, shape m0 → Inv done m0 m1 → Inv (done ++ [a]) m0 m2)) →
  acts g (for_each l body) (λ m0 _ m1, Inv l m0 m1).
Proof.
  intros Hnil Hstep.
  assert (Hgen : ∀ rest done, l = done ++ rest →
            acts g (for_each rest body) (λ m1 _ m2,
              ∀ m0, shape m0 → Inv done m0 m1 → Inv l m0 m2)).
  { induction rest as [|a rest IH]; intros done Hl.
    - simpl. apply acts_ret. intros m _ m0 _ HI. rewrite Hl, app_nil_r. done.
    - simpl. eapply acts_bind.
      + by apply (Hstep done a rest).
      + intros u. apply (IH (done ++ [a])). by rewrite <- app_assoc.
      + simpl. intros m1 u1 m2 u2 m3 _ _ _ H1 H2 m0 Hm0 HI. auto. }
  eapply acts_weaken; [apply (Hgen l []); done|].
  simpl. intros m0 _ m1 Hm0 _ H. apply H; auto.
Qed.

(** A loop whose turns each keep a reflexive and transitive relation. *)
Lemma acts_for_each_closed {A} g (l : list A) (body : A → M unit)
    (R : list (list Z) → list (list Z) → Prop) :
  (∀ m, shape m → R m m) →
  (∀ m0 m1 m2, shape m0 → shape m1 → shape m2 → R m0 m1 → R m1 m2 → R m0 m2) →
  (∀ a, a ∈ l → acts g (body a) (λ m0 _ m1, R m0 m1)) →
  acts g (for_each l body) (λ m0 _ m1, R m0 m1).
Proof.
  intros Hrefl Htrans Hbody.
  induction l as [|a l IH]; simpl.
  - apply acts_ret. done.
  - eapply acts_bind.
    + apply Hbody. left.
    + intros u. apply IH. intros b Hb. apply Hbody. by right.
    + simpl. intros. eapply Htrans; [..|eassumption|eassumption]; done.
Qed.

Lemma acts_get_cell g y x :
  in_map y x →
  acts g (get_cell g y x) (λ m0 v m1, m1 = m0 ∧ v = at_ m0 y x).
Proof.
  intros Hyx [h t] Hwf. simpl in *.
  rewrite get_cell_run by (done || by apply wf_full). simpl.
  done.
Qed.

Lemma acts_set_cell g y x v :
  in_map y x →
  acts g (set_cell g y x v) (λ m0 _ m1, m1 = upd m0 y x v).
Proof.
  intros Hyx [h t] Hwf. simpl in *.
  destruct (set_cell_run h t g y x v Hwf Hyx) as (h' & -> & ? & ? & ? & ?).
  simpl. done.
Qed.

Lemma acts_randint g a b :
  a <= b → acts g (randint a b) (λ m0 r m1, m1 = m0 ∧ a <= r <= b).
Proof.
  intros Hab [h t] Hwf. unfold randint, bind, draw. simpl.
  destruct t as [|r t]; [done|]. simpl. split_and!; try done.
  all: pose proof (Z.mod_pos_bound r (b - a + 1)); lia.
Qed.

Lemma acts_random_lt_rate g :
  acts g random_lt_rate (λ m0 _ m1, m1 = m0).
Proof.
  intros [h t] Hwf. unfold random_lt_rate, bind, draw. simpl.
  destruct t as [|r t]; [done|]. simpl. done.
Qed.

(** ** Loops over [range] *)

Lemma range_split n done a rest :
  range n = done ++ a :: rest → 0 <= a < n ∧ a ∉ done.
Proof.
  intros Hl. split.
  - assert (Ha : a ∈ range n) by (rewrite Hl; apply elem_of_app; right; left).
    unfold range in Ha. apply elem_of_seqZ in Ha. lia.
  - pose proof (NoDup_seqZ 0 n) as Hnd. fold (range n) in Hnd.
    rewrite Hl in Hnd. apply list.NoDup_app in Hnd as (_ & Hnd & _).
    intros Hin. apply (Hnd a Hin). left.
Qed.

Lemma elem_of_range n k : k ∈ range n ↔ 0 <= k < n.
Proof. unfold range. rewrite elem_of_seqZ. lia. Qed.

(** A row-by-row sweep whose turn at [(y, x)] touches that cell only. *)
Lemma acts_sweep g (body : Z → Z → M unit) (F : Z → Z → Z → Z → Prop) :
  (∀ y x, in_map y x →
     acts g (body y x) (λ m0 _ m1,
       F y x (at_ m0 y x) (at_ m1 y x) ∧
       ∀ y' x', in_map y' x' → (y', x') ≠ (y, x) → at_ m1 y' x' = at_ m0 y' x')) →
  acts g (for_each (range MAP_HEIGHT) (λ y,
            for_each (range MAP_WIDTH) (λ x, body y x)))
    (λ m0 _ m1, ∀ y x, in_map y x → F y x (at_ m0 y x) (at_ m1 y x)).
Proof.
  intros Hbody.
  eapply acts_weaken.
  - apply (acts_for_each g (range MAP_HEIGHT) _
      (λ dy m0 m, ∀ y x, in_map y x →
         (y ∈ dy → F y x (at_ m0 y x) (at_ m y x)) ∧
         (y ∉ dy → at_ m y x = at_ m0 y x))).
    + intros m _ y x _. split; [|done]. by intros ?%elem_of_nil.
    + intros dy y rest Hy. apply range_split in Hy as [Hy Hnew].
      eapply acts_weaken.
      * apply (acts_for_each g (range MAP_WIDTH) _
          (λ dx m1 m, ∀ y' x', in_map y' x' →
             (y' = y ∧ x' ∈ dx → F y x' (at_ m1 y x') (at_ m y x')) ∧
             (¬ (y' = y ∧ x' ∈ dx) → at_ m y' x' = at_ m1 y' x'))).
        -- intros m _ y' x' _. split; [|done]. intros [_ ?%elem_of_nil]. done.
        -- intros dx x rest' Hx. apply range_split in Hx as [Hx Hnewx].
           eapply acts_weaken; [apply (Hbody y x); done|]. simpl.
           intros m1 _ m2 _ _ [HF Hother] m0 _ HI y' x' Hin.
           destruct (decide ((y', x') = (y, x))) as [Heq|Hne].
           ++ simplify_eq. split.
              ** intros _. destruct (HI y x Hin) as [_ HI2].
                 rewrite <- HI2; [done|]. intros [_ ?]. done.
              ** intros Hno. exfalso. apply Hno. split; [done|].
                 apply elem_of_app. right. left.
           ++ destruct (HI y' x' Hin) as [HI1 HI2]. split.
              ** intros [-> Hx']. rewrite (Hother y x' Hin Hne).
                 apply elem_of_app in Hx' as [Hx'|Hx'].
                 --- apply HI1. done.
                 --- apply list_elem_of_singleton in Hx'. congruence.
              ** intros Hno. rewrite (Hother y' x' Hin Hne).
                 apply HI2. intros [-> Hx']. apply Hno.
                 split; [done|]. apply elem_of_app. by left.
      * simpl. intros m1 _ m2 _ _ Hrow m0 _ HI y' x' Hin.
        destruct (Hrow y' x' Hin) as [H1 H2].
        destruct (HI y' x' Hin) as [HI1 HI2].
        destruct (decide (y' = y)) as [->|Hne].
        -- split.
           2:{ intros Hno. exfalso. apply Hno. apply elem_of_app. right. left. }
           intros _.
           rewrite <- (HI2 Hnew). apply H1. split; [done|].
           apply elem_of_range. apply Hin.
        -- rewrite H2 by (intros [? _]; done). split.
           ++ intros Hy'. apply HI1.
              apply elem_of_app in Hy' as [Hy'|Hy']; [done|].
              apply list_elem_of_singleton in Hy'. done.
           ++ intros Hy'. apply HI2. intros Hy''. apply Hy'.
              apply elem_of_app. by left.
  - simpl. intros m0 _ m1 _ _ HI y x Hin. apply HI; [done|].
    apply elem_of_range. apply Hin.
Qed.

(** ** Painting loops *)

Lemma acts_set_cell_painted g y0 x0 v :
  in_map y0 x0 →
  acts g (set_cell g y0 x0 v)
    (λ m0 _ m1, painted (λ y x, (y =? y0) && (x =? x0)) v m0 m1).
Proof.
  intros Hin. eapply acts_weaken; [by apply acts_set_cell|]. simpl.
  intros m0 _ m1 Hm0 _ -> y x [Hy Hx].
  rewrite at_upd by (done || lia).
  destruct (Z.eqb_spec y y0), (Z.eqb_spec x x0); simpl.
  - by rewrite bool_decide_eq_true_2.
  - rewrite bool_decide_eq_false_2; [done|]. by intros [_ ?].
  - rewrite bool_decide_eq_false_2; [done|]. by intros [? _].
  - rewrite bool_decide_eq_false_2; [done|]. by intros [? _].
Qed.

Lemma acts_skip_painted g v :
  acts g (ret tt) (λ m0 _ m1, painted (λ _ _, false) v m0 m1).
Proof. apply acts_ret. intros m _ y x _. done. Qed.

Lemma acts_paint_seq {A B} g (c : M A) (k : A → M B) (P1 P2 : Z → Z → bool) v :
  acts g c (λ m0 _ m1, painted P1 v m0 m1) →
  (∀ a, acts g (k a) (λ m0 _ m1, painted P2 v m0 m1)) →
  acts g (bind c k) (λ m0 _ m1, painted (λ y x, P1 y x || P2 y x) v m0 m1).
Proof.
  intros Hc Hk. eapply acts_bind; [exact Hc|exact Hk|]. simpl.
  intros m0 _ m1 _ m2 _ _ _ H1 H2 y x Hin.
  rewrite (H2 y x Hin), (H1 y x Hin).
  destruct (P1 y x), (P2 y x); done.
Qed.

Lemma acts_paint_loop {A} g (l : list A) (body : A → M unit)
    (P : A → Z → Z → bool) v :
  (∀ a, a ∈ l → acts g (body a) (λ m0 _ m1, painted (P a) v m0 m1)) →
  acts g (for_each l body)
    (λ m0 _ m1, painted (λ y x, existsb (λ a, P a y x) l) v m0 m1).
Proof.
  induction l as [|a l IH]; intros Hbody; simpl.
  - apply acts_skip_painted.
  - apply (acts_paint_seq g (body a) (λ _, for_each l body) (P a)
             (λ y x, existsb (λ a, P a y x) l)).
    + apply Hbody. left.
    + intros _. apply IH. intros b Hb. apply Hbody. by right.
Qed.

Lemma painted_ext (P P' : Z → Z → bool) v m0 m1 :
  (∀ y x, in_map y x → P y x = P' y x) →
  painted P v m0 m1 → painted P' v m0 m1.
Proof. intros HP H y x Hin. rewrite <- HP by done. by apply H. Qed.

Lemma existsb_range n (f : Z → bool) :
  existsb f (range n) = true ↔ ∃ k, 0 <= k < n ∧ f k = true.
Proof.
  rewrite existsb_exists. split.
  - intros (k & Hk & Hf). exists k. split; [|done].
    apply elem_of_range. by apply list_elem_of_In.
  - intros (k & Hk & Hf). exists k. split; [|done].
    apply list_elem_of_In. by apply elem_of_range.
Qed.

Lemma acts_painted_weaken {A} g (c : M A) (P P' : Z → Z → bool) v :
  acts g c (λ m0 _ m1, painted P v m0 m1) →
  (∀ y x, in_map y x → P y x = P' y x) →
  acts g c (λ m0 _ m1, painted P' v m0 m1).
Proof.
  intros Hc HP. eapply acts_weaken; [exact Hc|]. simpl.
  intros m0 _ m1 _ _ H. by eapply painted_ext.
Qed.

(** ** The passes of the constraint enforcer *)

Lemma circle_loop_spec g :
  acts g
    (for_each (range MAP_HEIGHT) (λ y,
       for_each (range MAP_WIDTH) (λ x,
         if is_in_central_circle x y 15 8
         then set_cell g y x PLAINS else ret tt)))
    (λ m0 _ m1, painted (λ y x, is_in_central_circle x y 15 8) PLAINS m0 m1).
Proof.
  eapply acts_painted_weaken.
  - apply (acts_paint_loop g (range MAP_HEIGHT) _
             (λ y0 y x, existsb (λ x0, is_in_central_circle x0 y0 15 8 &&
                                       ((y =? y0) && (x =? x0))) (range MAP_WIDTH))).
    intros y0 Hy0%elem_of_range.
    apply (acts_paint_loop g (range MAP_WIDTH) _
             (λ x0 y x, is_in_central_circle x0 y0 15 8 && ((y =? y0) && (x =? x0)))).
    intros x0 Hx0%elem_of_range.
    destruct (is_in_central_circle x0 y0 15 8); simpl.
    + by apply acts_set_cell_painted.
    + apply acts_skip_painted.
  - intros y x [Hy Hx]. apply Bool.eq_iff_eq_true.
    rewrite existsb_range. setoid_rewrite existsb_range.
    setoid_rewrite andb_true_iff. setoid_rewrite andb_true_iff.
    setoid_rewrite Z.eqb_eq. split.
    + intros (y0 & _ & x0 & _ & Hc & -> & ->). done.
    + intros Hc. exists y. split; [done|]. exists x. done.
Qed.

Lemma border_rows_spec g :
  acts g
    (for_each (range MAP_WIDTH) (λ x,
       set_cell g 0 x MOUNTAIN ;; set_cell g (MAP_HEIGHT - 1) x MOUNTAIN))
    (λ m0 _ m1, painted (λ y x, (y =? 0) || (y =? MAP_HEIGHT - 1)) MOUNTAIN m0 m1).
Proof.
  eapply acts_painted_weaken.
  - apply (acts_paint_loop g (range MAP_WIDTH) _
             (λ x0 y x, ((y =? 0) && (x =? x0)) ||
                        ((y =? MAP_HEIGHT - 1) && (x =? x0))) MOUNTAIN).
    intros x0 Hx0%elem_of_range.
    apply (acts_paint_seq g _ _ (λ y x, (y =? 0) && (x =? x0))
             (λ y x, (y =? MAP_HEIGHT - 1) && (x =? x0))).
    + apply acts_set_cell_painted. unfold in_map, MAP_HEIGHT. lia.
    + intros _. apply acts_set_cell_painted. unfold in_map, MAP_HEIGHT. lia.
  - intros y x [Hy Hx]. apply Bool.eq_iff_eq_true.
    rewrite existsb_range. setoid_rewrite orb_true_iff.
    setoid_rewrite andb_true_iff. setoid_rewrite Z.eqb_eq. split.
    + intros (x0 & _ & [[? _]|[? _]]); auto.
    + intros H. exists x. tauto.
Qed.

Lemma border_columns_spec g :
  acts g
    (for_each (range MAP_HEIGHT) (λ y,
       set_cell g y 0 MOUNTAIN ;; set_cell g y (MAP_WIDTH - 1) MOUNTAIN))
    (λ m0 _ m1, painted (λ y x, (x =? 0) || (x =? MAP_WIDTH - 1)) MOUNTAIN m0 m1).
Proof.
  eapply acts_painted_weaken.
  - apply (acts_paint_loop g (range MAP_HEIGHT) _
             (λ y0 y x, ((y =? y0) && (x =? 0)) ||
                        ((y =? y0) && (x =? MAP_WIDTH - 1))) MOUNTAIN).
    intros y0 Hy0%elem_of_range.
    apply (acts_paint_seq g _ _ (λ y x, (y =? y0) && (x =? 0))
             (λ y x, (y =? y0) && (x =? MAP_WIDTH - 1))).
    + apply acts_set_cell_painted. unfold in_map, MAP_WIDTH. lia.
    + intros _. apply acts_set_cell_painted. unfold in_map, MAP_WIDTH. lia.
  - intros y x [Hy Hx]. apply Bool.eq_iff_eq_true.
    rewrite existsb_range. setoid_rewrite orb_true_iff.
    setoid_rewrite andb_true_iff. setoid_rewrite Z.eqb_eq. split.
    + intros (y0 & _ & [[_ ?]|[_ ?]]); auto.
    + intros H. exists y. tauto.
Qed.

Lemma enforce_constraints_spec g :
  acts g (enforce_constraints g) (λ m0 _ m1,
    ∀ y x, in_map y x →
      at_ m1 y x = if on_border y x then MOUNTAIN
                   else if is_in_central_circle x y 15 8 then PLAINS
                   else at_ m0 y x).
Proof.
  unfold enforce_constraints.
  eapply acts_bind; [apply circle_loop_spec| |].
  - intros u.
    apply (acts_paint_seq g _ _ (λ y x, (y =? 0) || (y =? MAP_HEIGHT - 1))
             (λ y x, (x =? 0) || (x =? MAP_WIDTH - 1)) MOUNTAIN).
    + apply border_rows_spec.
    + intros u'. apply border_columns_spec.
  - simpl. intros m0 _ m1 _ m2 _ _ _ H1 H2 y x Hin.
    rewrite (H2 y x Hin), (H1 y x Hin). unfold on_border.
    by destruct (y =? 0), (y =? MAP_HEIGHT - 1), (x =? 0), (x =? MAP_WIDTH - 1).
Qed.

Lemma get_river_row_bounds x :
  0 <= x < MAP_WIDTH → 12 <= get_river_row x <= 17.
Proof.
  intros Hx.
  assert (H : forallb (λ x, (12 <=? get_river_row x) && (get_river_row x <=? 17))
                (range MAP_WIDTH) = true) by reflexivity.
  rewrite forallb_forall in H. specialize (H x).
  rewrite andb_true_iff, Z.leb_le, Z.leb_le in H. apply H.
  apply list_elem_of_In. by apply elem_of_range.
Qed.

Lemma place_river_spec g :
  acts g (place_river g) (λ m0 _ m1, painted in_band RIVER m0 m1).
Proof.
  unfold place_river. eapply acts_painted_weaken.
  - apply (acts_paint_loop g (range MAP_WIDTH) _
             (λ x0 y x, existsb (λ offset,
                let yy := get_river_row x0 + offset in
                (0 <? yy) && (yy <? MAP_HEIGHT - 1) && ((y =? yy) && (x =? x0)))
                [-1; 0; 1])).
    intros x0 Hx0%elem_of_range.
    apply (acts_paint_loop g [-1; 0; 1] _
             (λ offset y x,
                let yy := get_river_row x0 + offset in
                (0 <? yy) && (yy <? MAP_HEIGHT - 1) && ((y =? yy) && (x =? x0)))).
    intros offset _. simpl.
    destruct ((0 <? get_river_row x0 + offset) &&
              (get_river_row x0 + offset <? MAP_HEIGHT - 1)) eqn:Hguard; simpl.
    + apply acts_set_cell_painted.
      apply andb_true_iff in Hguard as [H1%Z.ltb_lt H2%Z.ltb_lt].
      unfold in_map. lia.
    + apply acts_skip_painted.
  - intros y x [Hy Hx]. apply Bool.eq_iff_eq_true.
    rewrite existsb_range. unfold in_band. simpl.
    rewrite andb_true_iff, !Z.leb_le. split.
    + intros (x0 & _ & H).
      repeat rewrite ?orb_true_iff, ?andb_true_iff, ?Z.eqb_eq, ?Z.ltb_lt in H.
      assert (x = x0) as <- by (destruct H as [H|[H|[H|H]]]; [lia..|done]).
      destruct H as [H|[H|[H|H]]]; [lia..|done].
    + intros H. exists x. split; [done|].
      pose proof (get_river_row_bounds x Hx).
      repeat rewrite ?orb_true_iff, ?andb_true_iff, ?Z.eqb_eq, ?Z.ltb_lt.
      unfold MAP_HEIGHT. lia.
Qed.

Lemma clear_rocks_spec g :
  acts g (clear_rocks g) (λ m0 _ m1,
    ∀ y x, in_map y x →
      at_ m1 y x = if at_ m0 y x =? ROCK then PLAINS else at_ m0 y x).
Proof.
  unfold clear_rocks.
  apply (acts_sweep g _ (λ _ _ old new, new = if old =? ROCK then PLAINS else old)).
  intros y x Hin.
  eapply acts_bind; [by apply acts_get_cell| |].
  - intros t.
    apply (acts_weaken g _
             (λ m0 _ m1, painted (λ y' x', (t =? ROCK) && ((y' =? y) && (x' =? x)))
                           PLAINS m0 m1)); [|intros m0 u m1 _ _ H; exact H].
    destruct (t =? ROCK); simpl.
    + by apply acts_set_cell_painted.
    + apply acts_skip_painted.
  - simpl. intros m0 t m1 _ m2 _ _ _ [-> ->] H. split.
    + rewrite (H y x Hin). rewrite !Z.eqb_refl. simpl.
      by destruct (at_ m0 y x =? ROCK).
    + intros y' x' Hin' Hne. rewrite (H y' x' Hin').
      destruct (Z.eqb_spec y' y), (Z.eqb_spec x' x); simpl;
        rewrite ?andb_false_r; try done. congruence.
Qed.

Lemma mutate_cells_spec g :
  acts g (mutate_cells g) (λ _ _ _, True).
Proof.
  unfold mutate_cells.
  apply (acts_for_each_closed g _ _ (λ _ _, True)); [done..|].
  intros y Hy%elem_of_range.
  apply (acts_for_each_closed g _ _ (λ _ _, True)); [done..|].
  intros x Hx%elem_of_range.
  apply (acts_bind g _ _ (λ m0 _ m1, m1 = m0) (λ _ _ _ _, True));
    [apply acts_random_lt_rate| |done].
  intros hit. destruct hit.
  - eapply acts_bind; [apply (acts_randint g 0 3); lia| |].
    + intros t. by apply (acts_set_cell g y x t).
    + done.
  - by apply acts_ret.
Qed.

(** ** Counting tiles *)

Lemma sumZ_ext (f g : Z → Z) l :
  (∀ a, a ∈ l → f a = g a) → sumZ f l = sumZ g l.
Proof.
  induction l as [|a l IH]; intros H; simpl; [done|].
  rewrite (H a) by left. rewrite IH; [done|]. intros b Hb. apply H. by right.
Qed.

Lemma sumZ_le_one (f g : Z → Z) l k :
  NoDup l →
  (∀ a, a ∈ l → a ≠ k → f a = g a) →
  f k <= g k + 1 →
  sumZ f l <= sumZ g l + 1.
Proof.
  intros Hnd Hother Hk.
  induction Hnd as [|a l Ha Hnd IH]; simpl; [lia|].
  destruct (decide (a = k)) as [->|Hne].
  - rewrite (sumZ_ext f g l); [lia|].
    intros b Hb. apply Hother; [by right|]. intros ->. done.
  - rewrite (Hother a) by (done || left).
    assert (sumZ f l <= sumZ g l + 1); [|lia].
    apply IH. intros b Hb. apply Hother. by right.
Qed.

Lemma count_tile_upd tile m y x v :
  shape m → in_map y x →
  count_tile tile (upd m y x v) <= count_tile tile m + 1.
Proof.
  intros Hm Hin. pose proof Hin as [Hy Hx]. unfold count_tile.
  apply (sumZ_le_one _ _ _ y); [apply NoDup_seqZ| |].
  - intros y' Hy'%elem_of_range Hne. apply sumZ_ext.
    intros x' Hx'%elem_of_range. rewrite at_upd by (done || lia).
    rewrite bool_decide_eq_false_2; [done|]. by intros [? _].
  - apply (sumZ_le_one _ _ _ x); [apply NoDup_seqZ| |].
    + intros x' Hx'%elem_of_range Hne. rewrite at_upd by (done || lia).
      rewrite bool_decide_eq_false_2; [done|]. by intros [_ ?].
    + cbv beta.
      destruct (at_ (upd m y x v) y x =? tile), (at_ m y x =? tile); lia.
Qed.

Lemma count_tile_zero tile m :
  (∀ y x, in_map y x → at_ m y x ≠ tile) → count_tile tile m = 0.
Proof.
  intros H. unfold count_tile.
  rewrite (sumZ_ext _ (λ _, 0)).
  - generalize (range MAP_HEIGHT). intros l. induction l; simpl; lia.
  - intros y Hy%elem_of_range. rewrite (sumZ_ext _ (λ _, 0)).
    + generalize (range MAP_WIDTH). intros l. induction l; simpl; lia.
    + intros x Hx%elem_of_range.
      destruct (Z.eqb_spec (at_ m y x) tile) as [Heq|]; [|done].
      by apply H in Heq.
Qed.

(** ** Rock placement *)

Lemma rocks_added_refl n m : 0 <= n → rocks_added n m m.
Proof. intros Hn. split; [by left|lia]. Qed.

Lemma rocks_added_trans n1 n2 m0 m1 m2 :
  rocks_added n1 m0 m1 → rocks_added n2 m1 m2 → rocks_added (n1 + n2) m0 m2.
Proof.
  intros [H1 Hc1] [H2 Hc2]. split; [|lia].
  intros y x Hin.
  destruct (H1 y x Hin) as [E1|(E1 & E1' & Hb)],
           (H2 y x Hin) as [E2|(E2 & E2' & _)].
  - left. congruence.
  - right. split_and!; try congruence.
    destruct (H1 y x Hin) as [_|(_ & _ & ?)]; [|done].
    destruct (H2 y x Hin) as [?|(_ & _ & ?)]; [|done].
    rewrite E2' in *. rewrite E2 in *. done.
  - right. split_and!; congruence.
  - rewrite E1' in E2. done.
Qed.

Lemma rocks_added_mono n n' m0 m1 :
  n <= n' → rocks_added n m0 m1 → rocks_added n' m0 m1.
Proof. intros Hn [H Hc]. split; [done|lia]. Qed.

Lemma acts_rocks_loop {A} g (l : list A) (body : A → M unit) k :
  0 <= k →
  (∀ a, a ∈ l → acts g (body a) (λ m0 _ m1, rocks_added k m0 m1)) →
  acts g (for_each l body)
    (λ m0 _ m1, rocks_added (k * Z.of_nat (length l)) m0 m1).
Proof.
  intros Hk. induction l as [|a l IH]; intros Hbody; simpl for_each.
  - apply acts_ret. intros m _. apply rocks_added_refl. simpl. lia.
  - eapply acts_bind.
    + apply Hbody. left.
    + intros u. apply IH. intros b Hb. apply Hbody. by right.
    + simpl. intros m0 _ m1 _ m2 _ _ _ H1 H2.
      replace (k * Z.of_nat (S (length l))) with (k + k * Z.of_nat (length l)) by lia.
      by eapply rocks_added_trans.
Qed.

Lemma acts_randint_same g a b :
  a <= b → acts g (randint a b) (λ m0 r m1, a <= r <= b ∧ m1 = m0).
Proof.
  intros Hab. eapply acts_weaken; [by apply acts_randint|].
  simpl. by intros m0 r m1 _ _ [-> ?].
Qed.

Lemma acts_offset g (c0 : Z) :
  acts g (d <- randint (-1) 1 ;; ret (c0 + d))
    (λ m0 n m1, c0 - 1 <= n <= c0 + 1 ∧ m1 = m0).
Proof.
  eapply acts_bind; [apply (acts_randint g (-1) 1); lia| |].
  - intros d. apply (acts_ret g (c0 + d) (λ m0 n m1, m1 = m0 ∧ n = c0 + d)). done.
  - simpl. intros m0 d m1 n m2 _ _ _ [-> Hd] [-> ->]. split; [lia|done].
Qed.

Lemma seed_loop_spec turns g :
  acts g (seed_loop turns g) (λ m0 _ m1, m1 = m0).
Proof.
  induction turns as [|turns IH]; simpl.
  - intros s _. done.
  - eapply acts_bind_given;
      [apply (acts_randint_same g 5 (MAP_WIDTH - 5)); unfold MAP_WIDTH; lia| |].
    + intros cx Hcx.
      eapply acts_bind_given;
        [apply (acts_randint_same g 5 (MAP_HEIGHT - 5)); unfold MAP_HEIGHT; lia| |].
      * intros cy Hcy.
        assert (Hin : in_map cy cx) by (unfold in_map, MAP_WIDTH, MAP_HEIGHT in *; lia).
        apply (acts_bind g _ _ (λ m0 _ m1, m1 = m0) (λ _ m0 _ m1, m1 = m0)
                 (λ m0 _ m1, m1 = m0)).
        -- eapply acts_weaken; [by apply acts_get_cell|]. simpl.
           by intros ? ? ? _ _ [-> _].
        -- intros t. destruct (t =? MOUNTAIN); [apply IH|].
           by apply acts_ret.
        -- simpl. intros. congruence.
      * simpl. intros m0 cy m1 c m2 _ _ _ -> H. exact H.
    + simpl. intros m0 cx m1 c m2 _ _ _ -> H. exact H.
Qed.

Lemma pick_seed_spec g :
  acts g (pick_seed g) (λ m0 _ m1, m1 = m0).
Proof. intros s Hwf. by apply (seed_loop_spec (length (tape s)) g s). Qed.

Lemma rock_turn_spec g (c : Z * Z) :
  acts g
    (nx <- (d <- randint (-1) 1 ;; ret (c.1 + d)) ;;
     ny <- (d <- randint (-1) 1 ;; ret (c.2 + d)) ;;
     if (0 <? nx) && (nx <? MAP_WIDTH - 1) && (0 <? ny) && (ny <? MAP_HEIGHT - 1)
     then t <- get_cell g ny nx ;;
          if t =? PLAINS then set_cell g ny nx ROCK else ret tt
     else ret tt)
    (λ m0 _ m1, rocks_added 1 m0 m1).
Proof.
  apply (acts_bind g _ _ (λ m0 _ m1, m1 = m0) (λ _ m0 _ m1, rocks_added 1 m0 m1)).
  - eapply acts_weaken; [apply acts_offset|]. simpl. by intros ? ? ? _ _ [_ ->].
  - intros nx.
    apply (acts_bind g _ _ (λ m0 _ m1, m1 = m0) (λ _ m0 _ m1, rocks_added 1 m0 m1)
             (λ m0 _ m1, rocks_added 1 m0 m1)).
    + eapply acts_weaken; [apply acts_offset|]. simpl. by intros ? ? ? _ _ [_ ->].
    + intros ny.
      destruct ((0 <? nx) && (nx <? MAP_WIDTH - 1) && (0 <? ny) &&
                (ny <? MAP_HEIGHT - 1)) eqn:Hguard.
      * repeat rewrite andb_true_iff in Hguard. rewrite !Z.ltb_lt in Hguard.
        assert (Hin : in_map ny nx) by (unfold in_map; lia).
        apply (acts_bind g _ _ (λ m0 t m1, m1 = m0 ∧ t = at_ m0 ny nx)
                 (λ t m0 _ m1, t = at_ m0 ny nx → rocks_added 1 m0 m1)
                 (λ m0 _ m1, rocks_added 1 m0 m1)).
        -- by apply acts_get_cell.
        -- intros t. destruct (Z.eqb_spec t PLAINS) as [->|Hne].
           ++ eapply acts_weaken; [by apply (acts_set_cell g ny nx ROCK)|].
              simpl. intros m0 _ m1 Hm0 _ -> Ht. split.
              ** intros y x [Hy Hx]. rewrite at_upd by (done || lia).
                 case_bool_decide as Heq; [|by left]. destruct Heq as [-> ->].
                 right. split_and!; [done..|].
                 unfold on_border.
                 repeat rewrite orb_false_iff. rewrite !Z.eqb_neq. lia.
              ** by apply count_tile_upd.
           ++ apply acts_ret. intros m Hm Ht. apply rocks_added_refl. lia.
        -- simpl. intros m0 t m1 _ m2 _ _ _ [-> ->] H. by apply H.
      * apply acts_ret. intros m _. apply rocks_added_refl. lia.
    + simpl. intros m0 _ m1 _ m2 _ _ _ -> H. exact H.
  - simpl. intros m0 _ m1 _ m2 _ _ _ -> H. exact H.
Qed.

Lemma place_rocks_spec g num_clusters :
  acts g (place_rocks g num_clusters)
    (λ m0 _ m1, rocks_added (5 * Z.max 0 num_clusters) m0 m1).
Proof.
  unfold place_rocks. eapply acts_weaken.
  - apply (acts_rocks_loop g (range num_clusters) _ 5); [lia|].
    intros i _.
    apply (acts_bind g _ _ (λ m0 _ m1, m1 = m0) (λ _ m0 _ m1, rocks_added 5 m0 m1)
             (λ m0 _ m1, rocks_added 5 m0 m1)); [apply pick_seed_spec| |].
    + intros c.
      apply (acts_bind_given g _ _ (λ r, 3 <= r <= 5) (λ m0 _ m1, m1 = m0)
               (λ _ m0 _ m1, rocks_added 5 m0 m1) (λ m0 _ m1, rocks_added 5 m0 m1));
        [apply (acts_randint_same g 3 5); lia| |].
      * intros cluster_size Hsize. eapply acts_weaken.
        -- apply (acts_rocks_loop g (range cluster_size) _ 1); [lia|].
           intros j _. apply rock_turn_spec.
        -- simpl. intros m0 _ m1 _ _ H. eapply rocks_added_mono; [|exact H].
           unfold range. rewrite length_seqZ. lia.
      * simpl. intros m0 r m1 _ m2 _ _ _ -> H. exact H.
    + simpl. intros m0 _ m1 _ m2 _ _ _ -> H. exact H.
  - simpl. intros m0 _ m1 _ _ H. eapply rocks_added_mono; [|exact H].
    unfold range. rewrite length_seqZ. lia.
Qed.

Lemma acts_cellwise_seq {A B} g (c : M A) (k : A → M B) F1 F2 :
  acts g c (λ m0 _ m1, cellwise F1 m0 m1) →
  (∀ a, acts g (k a) (λ m0 _ m1, cellwise F2 m0 m1)) →
  acts g (bind c k) (λ m0 _ m1, cellwise (λ y x v, F2 y x (F1 y x v)) m0 m1).
Proof.
  intros Hc Hk. eapply acts_bind; [exact Hc|exact Hk|]. simpl.
  intros m0 _ m1 _ m2 _ _ _ H1 H2 y x Hin.
  by rewrite (H2 y x Hin), (H1 y x Hin).
Qed.

Lemma settle_spec (after_mutation : bool) g :
  acts g
    (enforce_constraints g ;;
     place_river g ;;
     (if after_mutation then clear_rocks g else ret tt))
    (λ m0 _ m1, cellwise (settled after_mutation) m0 m1).
Proof.
  eapply acts_weaken.
  - apply (acts_cellwise_seq g _ _
             (λ y x old, if on_border y x then MOUNTAIN
                         else if is_in_central_circle x y 15 8 then PLAINS else old)
             (λ y x old, let t := if in_band y x then RIVER else old in
                         if after_mutation && (t =? ROCK) then PLAINS else t)).
    + apply enforce_constraints_spec.
    + intros u.
      apply (acts_cellwise_seq g _ _
               (λ y x old, if in_band y x then RIVER else old)
               (λ y x old, if after_mutation && (old =? ROCK) then PLAINS else old)).
      * apply place_river_spec.
      * intros u'. destruct after_mutation; simpl.
        -- apply clear_rocks_spec.
        -- apply (acts_ret g tt). intros m _ y x _. done.
  - simpl. intros m0 _ m1 _ _ H y x Hin. rewrite (H y x Hin). done.
Qed.

Lemma enforcer_pass_spec after_mutation g :
  acts g (enforcer_pass after_mutation g) (λ m0 _ m1, passed after_mutation m0 m1).
Proof.
  assert (Hsplit : ∀ s, enforcer_pass after_mutation g s =
            ((enforce_constraints g ;; place_river g ;;
              (if after_mutation then clear_rocks g else ret tt)) ;;
             place_rocks g 8) s).
  { intros s. unfold enforcer_pass, bind.
    destruct (enforce_constraints g s) as [[? s1]| |]; [|done..].
    destruct (place_river g s1) as [[? s2]| |]; done. }
  intros s Hwf. rewrite Hsplit.
  refine (acts_bind g _ _ (λ m0 _ m1, cellwise (settled after_mutation) m0 m1)
            (λ _ m0 _ m1, rocks_added 40 m0 m1)
            (λ m0 _ m1, passed after_mutation m0 m1) _ _ _ s Hwf).
  - apply settle_spec.
  - intros u. apply (place_rocks_spec g 8).
  - simpl. intros m0 _ m1 _ m2 _ Hm1 _ H1 H2. by exists m1.
Qed.

Lemma mutate_spec g :
  acts g (mutate g) (λ _ r m1, r = g ∧ ∃ m0, shape m0 ∧ passed true m0 m1).
Proof.
  unfold mutate.
  apply (acts_bind g _ _ (λ _ _ _, True)
           (λ _ m0 r m1, r = g ∧ passed true m0 m1)).
  - apply mutate_cells_spec.
  - intros u.
    apply (acts_bind g _ _ (λ m0 _ m1, passed true m0 m1)
             (λ _ m0 r m1, r = g ∧ m1 = m0)).
    + apply (enforcer_pass_spec true).
    + intros u'. by apply acts_ret.
    + simpl. intros m0 _ m1 r m2 _ _ _ H1 [-> ->]. done.
  - simpl. intros m0 _ m1 r m2 _ Hm1 _ _ [-> H]. split; [done|]. by exists m1.
Qed.

Lemma acts_run {A} g (c : M A) R s a s' :
  acts g c R → wf (heap s) g → c s = Ok (a, s') →
  wf (heap s') g ∧ R (view (heap s) g) a (view (heap s') g).
Proof.
  intros Hc Hwf Hrun. specialize (Hc s Hwf). rewrite Hrun in Hc.
  destruct Hc as (? & _ & _ & ?). done.
Qed.

(** A property of cells checked on all of them. *)
Lemma forall_cells (P : Z → Z → bool) :
  forallb (λ y, forallb (λ x, P y x) (range MAP_WIDTH)) (range MAP_HEIGHT) = true →
  ∀ y x, in_map y x → P y x = true.
Proof.
  intros H y x [Hy Hx].
  rewrite forallb_forall in H.
  assert (Hrow : forallb (λ x, P y x) (range MAP_WIDTH) = true).
  { apply H. by apply list_elem_of_In, elem_of_range. }
  rewrite forallb_forall in Hrow. apply Hrow.
  by apply list_elem_of_In, elem_of_range.
Qed.

Lemma circle_inside_border y x :
  in_map y x → is_in_central_circle x y 15 8 = true → on_border y x = false.
Proof.
  intros Hin Hc.
  pose proof (forall_cells
    (λ y x, implb (is_in_central_circle x y 15 8) (negb (on_border y x)))
    eq_refl y x Hin) as H.
  cbv beta in H. rewrite Hc in H. by destruct (on_border y x).
Qed.

Lemma band_on_border y x :
  in_map y x → in_band y x = true → on_border y x = true →
  x = 0 ∨ x = MAP_WIDTH - 1.
Proof.
  intros [Hy Hx] Hb Ho. unfold in_band, on_border in *.
  pose proof (get_river_row_bounds x Hx).
  apply andb_true_iff in Hb as [?%Z.leb_le ?%Z.leb_le].
  repeat rewrite orb_true_iff in Ho. rewrite !Z.eqb_eq in Ho.
  unfold MAP_HEIGHT in *. lia.
Qed.

Lemma rocks_added_keep n m0 m1 y x :
  rocks_added n m0 m1 → in_map y x → at_ m0 y x ≠ PLAINS →
  at_ m1 y x = at_ m0 y x.
Proof. intros [H _] Hin Hne. destruct (H y x Hin) as [?|[? _]]; done. Qed.

Lemma wfb_wf h g : wfb h g = true → wf h g.
Proof.
  unfold wfb. rewrite !andb_true_iff.
  intros [[[Hnd%bool_decide_eq_true Hval] Hlen%bool_decide_eq_true] Hrows].
  split; [done|]. split; [|split].
  - apply Forall_forall. intros l Hl.
    rewrite forallb_forall in Hval. apply Hval in Hl.
    by apply bool_decide_eq_true in Hl.
  - unfold view. by rewrite length_fmap.
  - unfold view. apply Forall_fmap, Forall_forall. intros l Hl.
    rewrite forallb_forall in Hrows. apply Hrows in Hl. simpl.
    by apply bool_decide_eq_true in Hl.
Qed.

(** * The map after a constraint pass *)

(** C1, as amended.  After a constraint pass every border cell holds
    Mountain, except the border cells inside the river band, which hold
    River; these lie in column 0 or in the last column. *)
Theorem border_after_pass (after_mutation : bool) g s s' :
  wf (heap s) g →
  enforcer_pass after_mutation g s = Ok (tt, s') →
  ∀ y x, in_map y x → on_border y x = true →
    at_ (view (heap s') g) y x = (if in_band y x then RIVER else MOUNTAIN) ∧
    (in_band y x = true → x = 0 ∨ x = MAP_WIDTH - 1).
Proof.
  intros Hwf Hrun y x Hin Hb.
  destruct (acts_run g _ _ s tt s' (enforcer_pass_spec after_mutation g) Hwf Hrun)
    as (_ & m' & Hm' & Hset & Hrocks).
  split; [|intros Hband; by apply (band_on_border y x)].
  assert (Hcell : at_ m' y x = if in_band y x then RIVER else MOUNTAIN).
  { rewrite (Hset y x Hin). unfold settled. rewrite Hb.
    destruct (in_band y x); by rewrite andb_false_r. }
  rewrite (rocks_added_keep 40 m' _ y x Hrocks Hin); [done|].
  rewrite Hcell. by destruct (in_band y x).
Qed.

Lemma border_after_pass_witness :
  at_ (view (heap (final_state (enforcer_pass true plains_grid (plains_state 10 88))))
         plains_grid) 0 7 = MOUNTAIN.
Proof.
  apply (border_after_pass true plains_grid (plains_state 10 88) _).
  - apply wfb_wf. vm_compute. reflexivity.
  - vm_compute. reflexivity.
  - unfold in_map, MAP_HEIGHT, MAP_WIDTH. lia.
  - reflexivity.
Defined.

(** C1 as stated fails: a freshly generated individual has River on the
    border, at row 15 of column 0. *)
Lemma border_cell_river :
  ∃ g s', new_individual (start 10 872) = Ok (g, s') ∧
          on_border 15 0 = true ∧ at_ (view (heap s') g) 15 0 = RIVER.
Proof. eexists _, _. split; [vm_compute; reflexivity|]. vm_compute. done. Qed.

(** C2, as amended.  After a constraint pass a cell of the central circle
    holds River when it lies in the river band of its column, and Plains or
    Rock otherwise. *)
Theorem circle_after_pass (after_mutation : bool) g s s' :
  wf (heap s) g →
  enforcer_pass after_mutation g s = Ok (tt, s') →
  ∀ y x, in_map y x → is_in_central_circle x y 15 8 = true →
    if in_band y x
    then at_ (view (heap s') g) y x = RIVER
    else at_ (view (heap s') g) y x = PLAINS ∨ at_ (view (heap s') g) y x = ROCK.
Proof.
  intros Hwf Hrun y x Hin Hc.
  destruct (acts_run g _ _ s tt s' (enforcer_pass_spec after_mutation g) Hwf Hrun)
    as (_ & m' & Hm' & Hset & Hrocks).
  pose proof (circle_inside_border y x Hin Hc) as Hb.
  assert (Hcell : at_ m' y x = if in_band y x then RIVER else PLAINS).
  { rewrite (Hset y x Hin). unfold settled. rewrite Hb, Hc.
    destruct (in_band y x); by rewrite andb_false_r. }
  destruct (in_band y x).
  - rewrite (rocks_added_keep 40 m' _ y x Hrocks Hin); [done|]. by rewrite Hcell.
  - destruct Hrocks as [Hr _]. destruct (Hr y x Hin) as [->|(_ & -> & _)]; auto.
Qed.

Lemma circle_after_pass_witness :
  at_ (view (heap (final_state (enforcer_pass true plains_grid (plains_state 10 88))))
         plains_grid) 15 15 = RIVER.
Proof.
  apply (circle_after_pass true plains_grid (plains_state 10 88) _
           ltac:(apply wfb_wf; vm_compute; reflexivity)
           ltac:(vm_compute; reflexivity) 15 15).
  - unfold in_map, MAP_HEIGHT, MAP_WIDTH. lia.
  - reflexivity.
Defined.

(** C2 as stated fails: in a freshly generated individual the center of the
    circle holds River and the cell at row 11, column 11 holds Rock. *)
Lemma circle_cell_not_plains :
  ∃ g s', new_individual (start 5 900) = Ok (g, s') ∧
          is_in_central_circle 15 15 15 8 = true ∧
          at_ (view (heap s') g) 15 15 = RIVER ∧
          is_in_central_circle 11 11 15 8 = true ∧
          at_ (view (heap s') g) 11 11 = ROCK.
Proof. eexists _, _. split; [vm_compute; reflexivity|]. vm_compute. done. Qed.

(** C3.  After a constraint pass every column has a River cell in its
    three-row band; in fact all three cells of the band hold River. *)
Theorem river_band_after_pass (after_mutation : bool) g s s' :
  wf (heap s) g →
  enforcer_pass after_mutation g s = Ok (tt, s') →
  ∀ x, 0 <= x < MAP_WIDTH →
    (∃ offset, offset ∈ [-1; 0; 1] ∧
       at_ (view (heap s') g) (get_river_row x + offset) x = RIVER) ∧
    (∀ offset, offset ∈ [-1; 0; 1] →
       at_ (view (heap s') g) (get_river_row x + offset) x = RIVER).
Proof.
  intros Hwf Hrun x Hx.
  destruct (acts_run g _ _ s tt s' (enforcer_pass_spec after_mutation g) Hwf Hrun)
    as (_ & m' & Hm' & Hset & Hrocks).
  assert (Hall : ∀ offset, offset ∈ [-1; 0; 1] →
            at_ (view (heap s') g) (get_river_row x + offset) x = RIVER).
  { intros offset Hoff.
    assert (-1 <= offset <= 1) as Hoff'.
    { repeat (apply elem_of_cons in Hoff as [->|Hoff]; [lia|]).
      by apply elem_of_nil in Hoff. }
    pose proof (get_river_row_bounds x Hx) as Hrr.
    assert (Hin : in_map (get_river_row x + offset) x)
      by (unfold in_map, MAP_HEIGHT; lia).
    assert (Hband : in_band (get_river_row x + offset) x = true).
    { unfold in_band. apply andb_true_iff. rewrite !Z.leb_le. lia. }
    assert (Hcell : at_ m' (get_river_row x + offset) x = RIVER).
    { rewrite (Hset _ x Hin). unfold settled. rewrite Hband.
      by rewrite andb_false_r. }
    rewrite (rocks_added_keep 40 m' _ _ x Hrocks Hin); [done|]. by rewrite Hcell. }
  split; [|done]. exists 0. split; [|apply Hall]; apply elem_of_cons; right; left.
Qed.

Lemma river_band_after_pass_witness :
  ∃ offset, offset ∈ [-1; 0; 1] ∧
    at_ (view (heap (final_state (enforcer_pass false plains_grid (plains_state 5 120))))
           plains_grid) (get_river_row 4 + offset) 4 = RIVER.
Proof.
  apply (river_band_after_pass false plains_grid (plains_state 5 120) _
           ltac:(apply wfb_wf; vm_compute; reflexivity)
           ltac:(vm_compute; reflexivity) 4).
  unfold MAP_WIDTH. lia.
Defined.

(** C4, as amended.  A constraint pass neither adds River outside the river
    band nor removes it there, except on the border and in the central
    circle: outside the band a cell holds River after the pass exactly when
    it held River before and lies neither on the border nor in the circle. *)
Theorem river_outside_band (after_mutation : bool) g s s' :
  wf (heap s) g →
  enforcer_pass after_mutation g s = Ok (tt, s') →
  ∀ y x, in_map y x → in_band y x = false →
    at_ (view (heap s') g) y x = RIVER ↔
    at_ (view (heap s) g) y x = RIVER ∧ on_border y x = false ∧
    is_in_central_circle x y 15 8 = false.
Proof.
  intros Hwf Hrun y x Hin Hband.
  destruct (acts_run g _ _ s tt s' (enforcer_pass_spec after_mutation g) Hwf Hrun)
    as (_ & m' & Hm' & Hset & Hrocks).
  assert (Hcell : at_ m' y x = RIVER ↔
            at_ (view (heap s) g) y x = RIVER ∧ on_border y x = false ∧
            is_in_central_circle x y 15 8 = false).
  { rewrite (Hset y x Hin). unfold settled. rewrite Hband.
    destruct (on_border y x), (is_in_central_circle x y 15 8); simpl;
      rewrite ?andb_false_r; try (split; [done|by intros (_ & ? & ?)]).
    destruct (Z.eqb_spec (at_ (view (heap s) g) y x) ROCK) as [->|Hne];
      destruct after_mutation; simpl; split; try done; try tauto.
    all: intros (? & _); done. }
  rewrite <- Hcell. destruct Hrocks as [Hr _].
  destruct (Hr y x Hin) as [->|(E1 & E2 & _)]; [done|].
  rewrite E1, E2. done.
Qed.

Lemma river_outside_band_witness :
  at_ (view (heap (final_state (enforcer_pass true plains_grid (plains_state 10 88))))
         plains_grid) 3 3 = RIVER ↔
  at_ (view (heap (plains_state 10 88)) plains_grid) 3 3 = RIVER ∧
  on_border 3 3 = false ∧ is_in_central_circle 3 3 15 8 = false.
Proof.
  apply (river_outside_band true plains_grid (plains_state 10 88) _
           ltac:(apply wfb_wf; vm_compute; reflexivity)
           ltac:(vm_compute; reflexivity) 3 3).
  - unfold in_map, MAP_HEIGHT, MAP_WIDTH. lia.
  - reflexivity.
Defined.

(** C4 as stated fails: in a freshly generated individual the cell at row 1,
    column 1 holds River although the band of column 1 is rows 14 to 16. *)
Lemma river_cell_outside_band :
  ∃ g s', new_individual (start 10 872) = Ok (g, s') ∧
          in_band 1 1 = false ∧ at_ (view (heap s') g) 1 1 = RIVER.
Proof. eexists _, _. split; [vm_compute; reflexivity|]. vm_compute. done. Qed.

(** C10.  [mutate] returns the map it was given, and the map then holds at
    most 40 Rock cells: rocks are cleared, then at most 8 clusters of at
    most 5 cells are painted. *)
Theorem rocks_after_mutate g s g' s' :
  wf (heap s) g →
  mutate g s = Ok (g', s') →
  g' = g ∧ count_tile ROCK (view (heap s') g) <= 40.
Proof.
  intros Hwf Hrun.
  destruct (acts_run g _ _ s g' s' (mutate_spec g) Hwf Hrun)
    as (_ & -> & m0 & Hm0 & m' & Hm' & Hset & _ & Hcount).
  split; [done|].
  rewrite (count_tile_zero ROCK m') in Hcount; [lia|].
  intros y x Hin. rewrite (Hset y x Hin). unfold settled. simpl.
  match goal with |- context [?t =? ROCK] => destruct (Z.eqb_spec t ROCK) end;
    done.
Qed.

Lemma rocks_after_mutate_witness :
  count_tile ROCK
    (view (heap (final_state (mutate plains_grid (plains_state 5 2000)))) plains_grid)
  <= 40.
Proof.
  apply (rocks_after_mutate plains_grid (plains_state 5 2000) plains_grid _
           ltac:(apply wfb_wf; vm_compute; reflexivity)
           ltac:(vm_compute; reflexivity)).
Defined.

(** * Reading computations and the fitness function *)

Lemma reads_ret {A} g (a : A) : reads g (ret a) (λ _, a).
Proof. by intros s _. Qed.

Lemma reads_bind {A B} g (c : M A) (k : A → M B) f F :
  reads g c f → (∀ a, reads g (k a) (F a)) →
  reads g (bind c k) (λ m, F (f m) m).
Proof.
  intros Hc Hk s Hwf. unfold bind. rewrite (Hc s Hwf). by apply Hk.
Qed.

Lemma reads_ext {A} g (c : M A) (f f' : list (list Z) → A) :
  reads g c f → (∀ m, shape m → f m = f' m) → reads g c f'.
Proof.
  intros Hc Hf s Hwf. rewrite (Hc s Hwf), Hf; [done|]. by apply full_shape.
Qed.

Lemma reads_get_cell g y x :
  in_map y x → reads g (get_cell g y x) (λ m, at_ m y x).
Proof. intros Hin [h t] Hwf. by apply get_cell_run. Qed.

(** A loop that adds a term per turn to its accumulator. *)
Lemma reads_sum g (l : list Z) (body : Z → Z → M Z) (f : list (list Z) → Z → Z) :
  (∀ a, a ∈ l → ∀ acc, reads g (body a acc) (λ m, acc + f m a)) →
  ∀ acc, reads g (for_fold l body acc) (λ m, acc + sumZ (f m) l).
Proof.
  induction l as [|a l IH]; intros Hbody acc; simpl.
  - intros s _. unfold ret. f_equal. f_equal. lia.
  - eapply reads_ext.
    + eapply reads_bind; [apply Hbody; left|].
      intros acc'. apply IH. intros b Hb. apply Hbody. by right.
    + intros m _. simpl. lia.
Qed.

Lemma sumZ_add (f g : Z → Z) l :
  sumZ (λ a, f a + g a) l = sumZ f l + sumZ g l.
Proof. induction l as [|a l IH]; simpl; lia. Qed.

Lemma sumZ_zero l : sumZ (λ _, 0) l = 0.
Proof. induction l; simpl; lia. Qed.

Lemma sumZ_swap (F : Z → Z → Z) lx ly :
  sumZ (λ x, sumZ (λ y, F y x) ly) lx = sumZ (λ y, sumZ (λ x, F y x) lx) ly.
Proof.
  induction lx as [|x lx IH]; simpl.
  - by rewrite sumZ_zero.
  - by rewrite IH, sumZ_add.
Qed.

Lemma find_river_reads g x y_river offsets :
  0 <= x < MAP_WIDTH →
  reads g (find_river g x y_river offsets)
    (λ m, existsb (λ offset,
            (0 <=? y_river + offset) && (y_river + offset <? MAP_HEIGHT) &&
            (at_ m (y_river + offset) x =? RIVER)) offsets).
Proof.
  intros Hx. induction offsets as [|offset rest IH]; simpl.
  - apply reads_ret.
  - destruct ((0 <=? y_river + offset) && (y_river + offset <? MAP_HEIGHT)) eqn:Hguard.
    + apply andb_true_iff in Hguard as [H1%Z.leb_le H2%Z.ltb_lt].
      eapply reads_ext.
      * eapply reads_bind; [by apply reads_get_cell|].
        intros t. instantiate (1 := λ t m, if t =? RIVER then true else _).
        simpl. destruct (t =? RIVER); [apply reads_ret|apply IH].
      * intros m _. simpl. by destruct (at_ m (y_river + offset) x =? RIVER).
    + done.
Qed.

Lemma central_reads g acc :
  reads g
    (for_fold (range MAP_HEIGHT) (λ y score,
       for_fold (range MAP_WIDTH) (λ x score,
         if is_in_central_circle x y 15 8
         then t <- get_cell g y x ;;
              if t =? PLAINS then ret (score + 1) else ret (score - 1)
         else ret score) score) acc)
    (λ m, acc + central_term m).
Proof.
  apply (reads_sum g (range MAP_HEIGHT) _
           (λ m y, sumZ (λ x, if is_in_central_circle x y 15 8
                              then (if at_ m y x =? PLAINS then 1 else -1)
                              else 0) (range MAP_WIDTH))).
  intros y Hy%elem_of_range score.
  apply (reads_sum g (range MAP_WIDTH) _
           (λ m x, if is_in_central_circle x y 15 8
                   then (if at_ m y x =? PLAINS then 1 else -1) else 0)).
  intros x Hx%elem_of_range score'.
  destruct (is_in_central_circle x y 15 8).
  - eapply reads_ext.
    + eapply reads_bind; [by apply reads_get_cell|].
      intros t. instantiate (1 := λ t m, if t =? PLAINS then score' + 1 else score' - 1).
      simpl. destruct (t =? PLAINS); apply reads_ret.
    + intros m _. simpl. destruct (at_ m y x =? PLAINS); lia.
  - eapply reads_ext; [apply reads_ret|]. intros m _. simpl. lia.
Qed.

Lemma mountain_reads g acc :
  reads g
    (for_fold (range MAP_WIDTH) (λ x score,
       for_fold (range MAP_HEIGHT) (λ y score,
         t <- get_cell g y x ;;
         if t =? MOUNTAIN
         then if is_in_central_circle x y 15 13
              then ret (score - 10) else ret (score + 5)
         else ret score) score) acc)
    (λ m, acc + mountain_term m).
Proof.
  eapply reads_ext.
  - apply (reads_sum g (range MAP_WIDTH) _
             (λ m x, sumZ (λ y, if at_ m y x =? MOUNTAIN
                                then (if is_in_central_circle x y 15 13 then -10 else 5)
                                else 0) (range MAP_HEIGHT))).
    intros x Hx%elem_of_range score.
    apply (reads_sum g (range MAP_HEIGHT) _
             (λ m y, if at_ m y x =? MOUNTAIN
                     then (if is_in_central_circle x y 15 13 then -10 else 5) else 0)).
    intros y Hy%elem_of_range score'.
    eapply reads_ext.
    + eapply reads_bind; [by apply reads_get_cell|].
      intros t.
      instantiate (1 := λ t m, if t =? MOUNTAIN
                               then (if is_in_central_circle x y 15 13
                                     then score' - 10 else score' + 5)
                               else score').
      simpl. destruct (t =? MOUNTAIN); [|apply reads_ret].
      destruct (is_in_central_circle x y 15 13); apply reads_ret.
    + intros m _. simpl.
      destruct (at_ m y x =? MOUNTAIN); [|lia].
      destruct (is_in_central_circle x y 15 13); lia.
  - intros m _. cbv beta. unfold mountain_term.
    by rewrite (sumZ_swap (λ y x, if at_ m y x =? MOUNTAIN
                                  then (if is_in_central_circle x y 15 13 then -10 else 5)
                                  else 0)).
Qed.

Lemma river_reads g acc :
  reads g
    (for_fold (range MAP_WIDTH) (λ x score,
       found_river_in_band <- find_river g x (get_river_row x) [-1; 0; 1] ;;
       if found_river_in_band then ret (score + 50) else ret (score - 500)) acc)
    (λ m, acc + river_term m).
Proof.
  apply (reads_sum g (range MAP_WIDTH) _
           (λ m x, if existsb (λ offset, at_ m (get_river_row x + offset) x =? RIVER)
                        [-1; 0; 1]
                   then 50 else -500)).
  intros x Hx%elem_of_range score.
  eapply reads_ext.
  - eapply reads_bind; [by apply find_river_reads|].
    intros found. instantiate (1 := λ found m, if found then score + 50 else score - 500).
    simpl. destruct found; apply reads_ret.
  - intros m _. pose proof (get_river_row_bounds x Hx) as Hrr.
    cbn [existsb].
    assert (Hg : ∀ offset, -1 <= offset <= 1 →
              (0 <=? get_river_row x + offset) &&
              (get_river_row x + offset <? MAP_HEIGHT) = true).
    { intros offset Hoff. apply andb_true_iff. rewrite Z.leb_le, Z.ltb_lt.
      unfold MAP_HEIGHT. lia. }
    rewrite !Hg by lia. simpl.
    match goal with |- context [if ?b then score + 50 else _] => destruct b end; lia.
Qed.

Lemma rock_count_reads g acc :
  reads g
    (for_fold (range MAP_HEIGHT) (λ y rock_count,
       for_fold (range MAP_WIDTH) (λ x rock_count,
         t <- get_cell g y x ;;
         if t =? ROCK then ret (rock_count + 1) else ret rock_count)
       rock_count) acc)
    (λ m, acc + count_tile ROCK m).
Proof.
  apply (reads_sum g (range MAP_HEIGHT) _
           (λ m y, sumZ (λ x, if at_ m y x =? ROCK then 1 else 0) (range MAP_WIDTH))).
  intros y Hy%elem_of_range rc.
  apply (reads_sum g (range MAP_WIDTH) _ (λ m x, if at_ m y x =? ROCK then 1 else 0)).
  intros x Hx%elem_of_range rc'.
  eapply reads_ext.
  - eapply reads_bind; [by apply reads_get_cell|].
    intros t. instantiate (1 := λ t m, if t =? ROCK then rc' + 1 else rc').
    simpl. destruct (t =? ROCK); apply reads_ret.
  - intros m _. simpl. destruct (at_ m y x =? ROCK); lia.
Qed.

Lemma calculate_fitness_reads g : reads g (calculate_fitness g) score.
Proof.
  unfold calculate_fitness.
  pose (last := λ (s3 rc : Z) (_ : list (list Z)),
          if (20 <=? rc) && (rc <=? 40) then s3 + 50 else s3 - Z.abs (rc - 22)).
  pose (F3 := λ s3 m, last s3 (0 + count_tile ROCK m) m).
  pose (F2 := λ s2 m, F3 (s2 + river_term m) m).
  pose (F1 := λ s1 m, F2 (s1 + mountain_term m) m).
  apply (reads_ext g _ (λ m, F1 (0 + central_term m) m)).
  - apply (reads_bind g _ _ _ F1 (central_reads g 0)). intros s1.
    apply (reads_bind g _ _ _ F2 (mountain_reads g s1)). intros s2.
    apply (reads_bind g _ _ _ F3 (river_reads g s2)). intros s3.
    apply (reads_bind g _ _ _ (last s3) (rock_count_reads g 0)). intros rc.
    unfold last. destruct ((20 <=? rc) && (rc <=? 40)); apply reads_ret.
  - intros m _. unfold F1, F2, F3, last, score, rock_term. rewrite !Z.add_0_l.
    cbv zeta.
    destruct ((20 <=? count_tile ROCK m) && (count_tile ROCK m <=? 40)); lia.
Qed.

(** C5.  On every full map, its rows distinct lists or not,
    [calculate_fitness] returns the sum of the four terms of the
    specification and leaves store and generator as they were. *)
Theorem fitness_is_score g s :
  full (heap s) g →
  calculate_fitness g s = Ok (score (view (heap s) g), s) ∧
  score (view (heap s) g) =
    central_term (view (heap s) g) + mountain_term (view (heap s) g) +
    river_term (view (heap s) g) + rock_term (view (heap s) g).
Proof. intros Hwf. split; [by apply calculate_fitness_reads|done]. Qed.

Lemma fitness_is_score_witness :
  calculate_fitness plains_grid (plains_state 0 0) =
    Ok (score (view (heap (plains_state 0 0)) plains_grid), plains_state 0 0).
Proof.
  apply (fitness_is_score plains_grid (plains_state 0 0)).
  apply wf_full, wfb_wf. vm_compute. reflexivity.
Defined.

(** * Crossover *)

Lemma crossover_loop h0 t map1 map2 :
  full h0 map1 → full h0 map2 →
  ∀ n i child k,
    (i + n = Z.to_nat MAP_HEIGHT)%nat →
    for_fold (seqZ (Z.of_nat i) (Z.of_nat n)) (λ y child,
      l <- item (if y <? MAP_HEIGHT / 2 then map1 else map2) y ;;
      row <- load l ;;
      l' <- alloc row ;;
      ret (child ++ [l'])) child (mkState (h0 ++ k) t) =
    Ok (child ++ seq (length (h0 ++ k)) n,
        mkState (h0 ++ k ++ (child_row h0 map1 map2 <$> seq i n)) t).
Proof.
  intros Hwf1 Hwf2. induction n as [|n IH]; intros i child k Hi.
  - simpl. unfold ret. by rewrite !app_nil_r.
  - rewrite seqZ_cons by lia. simpl for_fold.
    replace (Z.succ (Z.of_nat i)) with (Z.of_nat (S i)) by lia.
    replace (Z.pred (Z.of_nat (S n))) with (Z.of_nat n) by lia.
    assert (Hy : 0 <= Z.of_nat i < MAP_HEIGHT) by (unfold MAP_HEIGHT in *; lia).
    set (g := if Z.of_nat i <? MAP_HEIGHT / 2 then map1 else map2).
    assert (Hwf : full h0 g) by (unfold g; by destruct (_ <? _)).
    destruct (full_lookup h0 g (Z.of_nat i) Hwf Hy) as (l & row & Hl & Hrow & _ & Hv).
    rewrite Nat2Z.id in Hl, Hv.
    unfold bind at 1. unfold bind at 1.
    rewrite (item_lookup g (Z.of_nat i) l) by (rewrite ?Nat2Z.id; done || lia).
    unfold ret at 1. unfold bind at 1. unfold load at 1. simpl heap.
    rewrite (lookup_app_l_Some _ _ _ _ Hrow).
    unfold bind at 1. unfold alloc at 1. simpl heap. simpl tape.
    unfold ret at 1.
    replace (h0 ++ k ++ (child_row h0 map1 map2 <$> seq i (S n)))
      with (h0 ++ (k ++ [row]) ++ (child_row h0 map1 map2 <$> seq (S i) n)).
    2:{ simpl. rewrite <- !app_assoc. simpl. do 3 f_equal.
        unfold child_row. fold g. by rewrite Hv. }
    replace ((h0 ++ k) ++ [row]) with (h0 ++ (k ++ [row])) by by rewrite app_assoc.
    rewrite (IH (S i) _ (k ++ [row])) by lia.
    f_equal. f_equal. rewrite <- app_assoc. simpl. do 2 f_equal.
    rewrite !length_app. simpl. f_equal. lia.
Qed.

Lemma crossover_run h t map1 map2 :
  full h map1 → full h map2 →
  crossover map1 map2 (mkState h t) =
    Ok (seq (length h) (Z.to_nat MAP_HEIGHT),
        mkState (h ++ (child_row h map1 map2 <$> seq 0 (Z.to_nat MAP_HEIGHT))) t).
Proof.
  intros Hwf1 Hwf2. unfold crossover, range.
  pose proof (crossover_loop h t map1 map2 Hwf1 Hwf2 (Z.to_nat MAP_HEIGHT) 0 [] [] eq_refl)
    as H.
  rewrite app_nil_r in H. simpl app in H. exact H.
Qed.

Lemma extends_refl h : extends h h.
Proof. by intros l row. Qed.

Lemma extends_trans h0 h1 h2 : extends h0 h1 → extends h1 h2 → extends h0 h2.
Proof. intros H1 H2 l row Hl. auto. Qed.

Lemma extends_app h k : extends h (h ++ k).
Proof. intros l row Hl. by apply lookup_app_l_Some. Qed.

Lemma view_extends h0 h g :
  Forall (λ l, (l < length h0)%nat) g → extends h0 h → view h g = view h0 g.
Proof.
  intros Hval Hext. unfold view. apply list_fmap_ext. intros i l Hl.
  rewrite Forall_lookup in Hval. specialize (Hval i l Hl). simpl in Hval.
  destruct (lookup_lt_is_Some_2 h0 l Hval) as [row Hrow].
  by rewrite Hrow, (Hext l row Hrow).
Qed.

Lemma wf_extends h0 h g : wf h0 g → extends h0 h → wf h g.
Proof.
  intros (Hnd & Hval & Hshape) Hext. split; [done|]. split.
  - eapply Forall_impl; [|exact Hval]. simpl. intros l Hl.
    destruct (lookup_lt_is_Some_2 h0 l Hl) as [row Hrow].
    apply Hext in Hrow. by eapply lookup_lt_Some.
  - by rewrite (view_extends h0 h g).
Qed.

Lemma view_fresh h rows :
  view (h ++ rows) (seq (length h) (length rows)) = rows.
Proof.
  unfold view. apply list_eq. intros i. rewrite list_lookup_fmap.
  destruct (decide (i < length rows)%nat) as [Hlt|Hge].
  - rewrite lookup_seq_lt by done. simpl.
    rewrite lookup_app_r by lia.
    replace (length h + i - length h)%nat with i by lia.
    destruct (lookup_lt_is_Some_2 rows i Hlt) as [row Hrow]. by rewrite Hrow.
  - rewrite lookup_seq_ge by lia. simpl. symmetry. apply lookup_ge_None. lia.
Qed.

Lemma child_row_length h map1 map2 y :
  full h map1 → full h map2 → (y < Z.to_nat MAP_HEIGHT)%nat →
  length (child_row h map1 map2 y) = Z.to_nat MAP_WIDTH.
Proof.
  intros Hwf1 Hwf2 Hy. unfold child_row.
  set (g := if Z.of_nat y <? MAP_HEIGHT / 2 then map1 else map2).
  assert (Hwf : full h g) by (unfold g; by destruct (_ <? _)).
  destruct (full_lookup h g (Z.of_nat y) Hwf) as (l & row & _ & _ & Hlen & Hv).
  { unfold MAP_HEIGHT in *. lia. }
  rewrite Nat2Z.id in Hv. by rewrite Hv.
Qed.

Lemma child_wf h map1 map2 :
  full h map1 → full h map2 →
  wf (h ++ (child_row h map1 map2 <$> seq 0 (Z.to_nat MAP_HEIGHT)))
     (seq (length h) (Z.to_nat MAP_HEIGHT)).
Proof.
  intros Hwf1 Hwf2.
  set (rows := child_row h map1 map2 <$> seq 0 (Z.to_nat MAP_HEIGHT)).
  assert (Hlen : length rows = Z.to_nat MAP_HEIGHT)
    by (unfold rows; by rewrite length_fmap, length_seq).
  split; [apply NoDup_seq|]. split.
  - apply Forall_forall. intros l Hl%list_elem_of_In%elem_of_seq.
    rewrite length_app. lia.
  - pose proof (view_fresh h rows) as Hview. rewrite Hlen in Hview.
    rewrite Hview. split; [done|].
    unfold rows. apply Forall_fmap, Forall_forall.
    intros y Hy%list_elem_of_In%elem_of_seq. simpl.
    apply child_row_length; [done..|lia].
Qed.

(** C6.  For any two full maps [crossover] returns a new map; its rows above
    row [MAP_HEIGHT / 2] are the rows of the first parent, its rows from
    there on are the rows of the second parent, and no draw is read: the
    split row is fixed. *)
Theorem crossover_rows map1 map2 s :
  full (heap s) map1 → full (heap s) map2 →
  ∃ child s',
    crossover map1 map2 s = Ok (child, s') ∧
    tape s' = tape s ∧
    wf (heap s') child ∧
    (∀ y, 0 <= y < MAP_HEIGHT / 2 →
       view (heap s') child !! Z.to_nat y = view (heap s) map1 !! Z.to_nat y) ∧
    (∀ y, MAP_HEIGHT / 2 <= y < MAP_HEIGHT →
       view (heap s') child !! Z.to_nat y = view (heap s) map2 !! Z.to_nat y).
Proof.
  destruct s as [h t]. cbn [heap tape]. intros Hwf1 Hwf2.
  eexists _, _. split; [by apply crossover_run|]. cbn [heap tape].
  split; [done|]. split; [by apply child_wf|].
  set (rows := child_row h map1 map2 <$> seq 0 (Z.to_nat MAP_HEIGHT)).
  assert (Hlen : length rows = Z.to_nat MAP_HEIGHT)
    by (unfold rows; by rewrite length_fmap, length_seq).
  pose proof (view_fresh h rows) as Hview. rewrite Hlen in Hview. rewrite Hview.
  assert (Hrow : ∀ y, 0 <= y < MAP_HEIGHT →
            rows !! Z.to_nat y =
            view h (if y <? MAP_HEIGHT / 2 then map1 else map2) !! Z.to_nat y).
  { intros y Hy. unfold rows. rewrite list_lookup_fmap.
    rewrite lookup_seq_lt by (unfold MAP_HEIGHT in *; lia). simpl.
    unfold child_row. rewrite Z2Nat.id by lia.
    set (g := if y <? MAP_HEIGHT / 2 then map1 else map2).
    assert (Hwf : full h g) by (unfold g; by destruct (_ <? _)).
    destruct (full_lookup h g y Hwf Hy) as (l & row & _ & _ & _ & Hv).
    by rewrite Hv. }
  assert (Hmid : MAP_HEIGHT / 2 = 15) by reflexivity.
  split; intros y Hy.
  - rewrite Hrow by (unfold MAP_HEIGHT in *; lia).
    by rewrite (proj2 (Z.ltb_lt _ _)) by lia.
  - rewrite Hrow by lia. by rewrite (proj2 (Z.ltb_ge _ _)) by lia.
Qed.

Lemma crossover_rows_witness :
  ∃ child s',
    crossover plains_grid plains_grid (plains_state 0 0) = Ok (child, s') ∧
    tape s' = tape (plains_state 0 0) ∧
    wf (heap s') child ∧
    (∀ y, 0 <= y < MAP_HEIGHT / 2 →
       view (heap s') child !! Z.to_nat y =
       view (heap (plains_state 0 0)) plains_grid !! Z.to_nat y) ∧
    (∀ y, MAP_HEIGHT / 2 <= y < MAP_HEIGHT →
       view (heap s') child !! Z.to_nat y =
       view (heap (plains_state 0 0)) plains_grid !! Z.to_nat y).
Proof.
  apply (crossover_rows plains_grid plains_grid (plains_state 0 0));
    apply wf_full, wfb_wf; vm_compute; reflexivity.
Defined.

(** * Whole-program reasoning *)

Lemma safe_weaken {A} (P P' : state → Prop) (c : M A)
    (Q Q' : state → A → state → Prop) :
  safe P c Q → (∀ s, P' s → P s) → (∀ s a s', P' s → Q s a s' → Q' s a s') →
  safe P' c Q'.
Proof.
  intros Hc HP HQ s Hs. specialize (Hc s (HP s Hs)).
  destruct (c s) as [[a s']| |]; [|done..]. by apply HQ.
Qed.

Lemma safe_ret {A} (P : state → Prop) (a : A) (Q : state → A → state → Prop) :
  (∀ s, P s → Q s a s) → safe P (ret a) Q.
Proof. intros HQ s Hs. simpl. by apply HQ. Qed.

Lemma safe_bind {A B} (P : state → Prop) (c : M A) (k : A → M B)
    (Q1 : state → A → state → Prop) (Q : state → B → state → Prop) :
  safe P c Q1 →
  (∀ s0 a, P s0 → safe (λ s1, Q1 s0 a s1) (k a) (λ _ b s2, Q s0 b s2)) →
  safe P (bind c k) Q.
Proof.
  intros Hc Hk s Hs. unfold bind. specialize (Hc s Hs).
  destruct (c s) as [[a s1]| |]; [|done..].
  exact (Hk s a Hs s1 Hc).
Qed.

Lemma safe_for_fold {A B} (I : list A → B → state → Prop) (l : list A)
    (body : A → B → M B) (acc0 : B) :
  (∀ done a rest acc, l = done ++ a :: rest →
     safe (I done acc) (body a acc) (λ _ acc' s', I (done ++ [a]) acc' s')) →
  safe (I [] acc0) (for_fold l body acc0) (λ _ acc s', I l acc s').
Proof.
  intros Hstep.
  assert (Hgen : ∀ rest done acc, l = done ++ rest →
            safe (I done acc) (for_fold rest body acc) (λ _ acc' s', I l acc' s')).
  { induction rest as [|a rest IH]; intros done acc Hl.
    - simpl. apply safe_ret. intros s Hs. by rewrite Hl, app_nil_r.
    - simpl. eapply safe_bind; [by apply (Hstep done a rest)|].
      intros s0 acc' _. simpl. apply (IH (done ++ [a])). by rewrite <- app_assoc. }
  by apply (Hgen l []).
Qed.

Lemma acts_safe {A} g (c : M A) R :
  acts g c R →
  safe (λ s, wf (heap s) g) c (λ s a s',
    wf (heap s') g ∧ length (heap s') = length (heap s) ∧
    (∀ l, l ∉ g → heap s' !! l = heap s !! l) ∧
    R (view (heap s) g) a (view (heap s') g)).
Proof. intros Hc s Hwf. exact (Hc s Hwf). Qed.

Lemma reads_safe {A} g (c : M A) f :
  reads g c f →
  safe (λ s, wf (heap s) g) c (λ s a s', s' = s ∧ a = f (view (heap s) g)).
Proof. intros Hc s Hwf. by rewrite (Hc s (wf_full _ _ Hwf)). Qed.

(** Writing to a map made of new lists keeps the older lists. *)
Lemma extends_frame h0 h h' g :
  extends h0 h →
  Forall (λ l, (length h0 <= l)%nat) g →
  (∀ l, l ∉ g → h' !! l = h !! l) →
  extends h0 h'.
Proof.
  intros Hext Hnew Hframe l row Hl.
  rewrite Hframe; [by apply Hext|].
  intros Hin. rewrite Forall_forall in Hnew.
  apply list_elem_of_In, Hnew in Hin. apply lookup_lt_Some in Hl. lia.
Qed.

Lemma good_extends h0 h population :
  good h0 population → extends h0 h → good h population.
Proof.
  intros Hgood Hext. eapply Forall_impl; [|exact Hgood].
  intros g Hwf. by eapply wf_extends.
Qed.

Lemma view_extends_wf h0 h g : wf h0 g → extends h0 h → view h g = view h0 g.
Proof. intros (_ & Hval & _) Hext. by apply view_extends. Qed.

Lemma fresh_rows h rows :
  length rows = Z.to_nat MAP_HEIGHT →
  Forall (λ row, length row = Z.to_nat MAP_WIDTH) rows →
  fresh_map h (h ++ rows) (seq (length h) (Z.to_nat MAP_HEIGHT)).
Proof.
  intros Hlen Hrows. split; [apply extends_app|]. split.
  - split; [apply NoDup_seq|]. split.
    + apply Forall_forall. intros l Hl%list_elem_of_In%elem_of_seq.
      rewrite length_app. lia.
    + pose proof (view_fresh h rows) as Hview. rewrite Hlen in Hview.
      rewrite Hview. done.
  - apply Forall_forall. intros l Hl%list_elem_of_In%elem_of_seq. lia.
Qed.

Lemma fresh_map_frame h0 h h' g :
  fresh_map h0 h g → wf h' g → (∀ l, l ∉ g → h' !! l = h !! l) →
  fresh_map h0 h' g.
Proof.
  intros (Hext & _ & Hnew) Hwf Hframe. split; [|done].
  by eapply extends_frame.
Qed.

Lemma fresh_map_trans h0 h1 h2 g :
  extends h0 h1 → fresh_map h1 h2 g → fresh_map h0 h2 g.
Proof.
  intros Hext (Hext' & Hwf & Hnew). split; [by eapply extends_trans|].
  split; [done|]. eapply Forall_impl; [|exact Hnew]. simpl. intros l Hl.
  assert (length h0 <= length h1)%nat; [|lia].
  destruct (decide (length h0 <= length h1)%nat) as [|Hgt]; [done|].
  destruct (lookup_lt_is_Some_2 h0 (length h1)) as [row Hrow]; [lia|].
  apply Hext, lookup_lt_Some in Hrow. lia.
Qed.

Lemma generate_random_map_spec :
  safe (λ _, True) generate_random_map
    (λ s g s', fresh_map (heap s) (heap s') g).
Proof.
  intros s0 _. unfold generate_random_map.
  pose (I := λ (done : list Z) (m : list nat) (s : state),
    ∃ rows, heap s = heap s0 ++ rows ∧ m = seq (length (heap s0)) (length rows) ∧
            length rows = length done ∧
            Forall (λ row, length row = Z.to_nat MAP_WIDTH) rows).
  assert (Hloop : safe (I [] []) (for_fold (range MAP_HEIGHT) (λ y m,
            row <- for_fold (range MAP_WIDTH) (λ x row,
              if (x =? 0) || (x =? MAP_WIDTH - 1) || (y =? 0) || (y =? MAP_HEIGHT - 1)
              then ret (row ++ [MOUNTAIN])
              else t <- randint 0 3 ;; ret (row ++ [t])) [] ;;
            l <- alloc row ;;
            ret (m ++ [l])) []) (λ _ m s', I (range MAP_HEIGHT) m s')).
  { apply safe_for_fold. intros dy y rest m Hy.
    eapply safe_bind.
    - eapply safe_weaken;
        [|intros s Hs; exact (conj Hs (eq_refl (length (@nil Z))))
         |intros s a s' _ H; exact H].
      apply (safe_for_fold (λ (dx : list Z) (row : list Z) (s : state),
               I dy m s ∧ length row = length dx)).
      intros dx x rest' row Hx.
      destruct ((x =? 0) || (x =? MAP_WIDTH - 1) || (y =? 0) || (y =? MAP_HEIGHT - 1)).
      + apply safe_ret. intros s [HI Hrow]. split; [done|].
        rewrite !length_app. simpl. lia.
      + intros [h t] [HI Hrow]. unfold bind, randint, bind, draw. simpl.
        destruct t as [|r t]; [done|]. simpl. split; [done|].
        rewrite !length_app. simpl. lia.
    - intros s1 row _ [h t] [(rows & Hh & Hm & Hlen & Hrows) Hrow].
      simpl in *. exists (rows ++ [row]). subst h.
      rewrite <- app_assoc. split; [done|]. rewrite !length_app. simpl.
      split_and!.
      + rewrite Hm, seq_app. done.
      + clear -Hlen. lia.
      + apply Forall_app. split; [done|]. apply Forall_singleton.
        exact Hrow. }
  assert (HI0 : I [] [] s0).
  { clear Hloop. exists []. rewrite app_nil_r.
    split_and!; [reflexivity..|constructor]. }
  specialize (Hloop s0 HI0).
  destruct (for_fold _ _ _ s0) as [[g s']| |]; [|done..].
  destruct Hloop as (rows & Hh & -> & Hlen & Hrows).
  unfold range in Hlen. rewrite length_seqZ in Hlen.
  rewrite Hh, Hlen. by apply fresh_rows.
Qed.

Lemma new_individual_spec :
  safe (λ _, True) new_individual (λ s g s', fresh_map (heap s) (heap s') g).
Proof.
  intros s _. unfold new_individual, bind.
  pose proof (generate_random_map_spec s I) as Hgen.
  destruct (generate_random_map s) as [[g s1]| |]; [|done..].
  pose proof (enforcer_pass_spec false g s1 (proj1 (proj2 Hgen))) as Hpass.
  destruct (enforcer_pass false g s1) as [[u s2]| |]; [|done..].
  destruct Hpass as (Hwf & _ & Hframe & _). simpl.
  by eapply fresh_map_frame.
Qed.

Lemma mutate_fresh h0 g :
  safe (λ s, fresh_map h0 (heap s) g) (mutate g)
    (λ _ r s', r = g ∧ fresh_map h0 (heap s') g).
Proof.
  intros s Hfresh.
  pose proof (mutate_spec g s (proj1 (proj2 Hfresh))) as Hmut.
  destruct (mutate g s) as [[r s']| |]; [|done..].
  destruct Hmut as (Hwf & _ & Hframe & -> & _).
  split; [done|]. by eapply fresh_map_frame.
Qed.

Lemma choice_spec {A} (l : list A) :
  l ≠ [] →
  safe (λ _, True) (choice l) (λ s a s', heap s' = heap s ∧ a ∈ l).
Proof.
  intros Hl [h t] _. destruct l as [|a0 l0]; [done|].
  unfold choice, bind, draw. simpl tape.
  destruct t as [|r t]; [done|]. cbn [heap].
  set (l := a0 :: l0).
  assert (Hlt : (Z.to_nat (r mod Z.of_nat (length l)) < length l)%nat).
  { pose proof (Z.mod_pos_bound r (Z.of_nat (length l))). simpl in *. lia. }
  destruct (lookup_lt_is_Some_2 l _ Hlt) as [a Ha]. rewrite Ha. simpl.
  split; [done|]. by eapply list_elem_of_lookup_2.
Qed.

Lemma mapM_fitness population s :
  good (heap s) population →
  mapM calculate_fitness population s = Ok (fitness (heap s) <$> population, s).
Proof.
  induction population as [|g population IH]; intros Hgood; simpl; [done|].
  inversion Hgood as [|? ? Hwf Hgood']; subst.
  unfold bind.
  rewrite (calculate_fitness_reads g s (wf_full _ _ Hwf)), (IH Hgood'). done.
Qed.

(** ** Ranking *)

Lemma insert_desc_perm {A} (p : Z * A) l : insert_desc p l ≡ₚ p :: l.
Proof.
  induction l as [|q l IH]; simpl; [done|].
  destruct (q.1 <=? p.1); [done|]. rewrite IH. apply Permutation_swap.
Qed.

Lemma sorted_desc_perm {A} (l : list (Z * A)) : sorted_desc l ≡ₚ l.
Proof.
  induction l as [|p l IH]; simpl; [done|].
  by rewrite insert_desc_perm, IH.
Qed.

Lemma insert_desc_sorted {A} (p : Z * A) l :
  StronglySorted (λ a b, b <= a) l.*1 →
  StronglySorted (λ a b, b <= a) (insert_desc p l).*1.
Proof.
  induction l as [|q l IH]; simpl; intros Hs.
  - repeat constructor.
  - apply StronglySorted_inv in Hs as [Hs Hq].
    destruct (Z.leb_spec q.1 p.1) as [Hle|Hgt]; simpl.
    + constructor; [by constructor|]. constructor; [done|].
      eapply Forall_impl; [|exact Hq]. simpl. lia.
    + constructor; [by apply IH|].
      rewrite (insert_desc_perm p l). simpl. constructor; [lia|done].
Qed.

Lemma sorted_desc_sorted {A} (l : list (Z * A)) :
  StronglySorted (λ a b, b <= a) (sorted_desc l).*1.
Proof.
  induction l as [|p l IH]; simpl; [constructor|]. by apply insert_desc_sorted.
Qed.

Lemma ranked_perm h population :
  (ranked h population).*2 ≡ₚ population.
Proof.
  unfold ranked. rewrite sorted_desc_perm.
  rewrite snd_zip; [done|]. by rewrite length_fmap.
Qed.

Lemma ranked_scores h population :
  (ranked h population).*1 = fitness h <$> (ranked h population).*2.
Proof.
  unfold ranked.
  assert (H : Forall (λ p : Z * list nat, p.1 = fitness h p.2)
                (sorted_desc (zip (fitness h <$> population) population))).
  { rewrite sorted_desc_perm. induction population; simpl; constructor; done. }
  induction H as [|p l Hp _ IH]; [done|]. rewrite !fmap_cons. by f_equal.
Qed.

(** ** One generation *)

Lemma fill_spec turns population_size sorted_pop :
  ∀ new_population,
  safe (λ s, good (heap s) sorted_pop ∧ good (heap s) new_population ∧
             sorted_pop ≠ [])
    (fill turns population_size sorted_pop new_population)
    (λ s population' s',
       extends (heap s) (heap s') ∧ good (heap s') population' ∧
       ∃ children, population' = new_population ++ children).
Proof.
  induction turns as [|turns IH]; intros new_population s (Hsorted & Hnew & Hne);
    simpl fill; case_bool_decide as Hlen.
  - done.
  - simpl. split; [apply extends_refl|]. split; [done|].
    exists []. by rewrite app_nil_r.
  - assert (Htake : take 15 sorted_pop ≠ []).
    { destruct sorted_pop; [done|]. simpl. done. }
    unfold bind at 1.
    pose proof (choice_spec (take 15 sorted_pop) Htake s I) as H1.
    destruct (choice (take 15 sorted_pop) s) as [[parent1 s1]| |]; [|done..].
    destruct H1 as [Hh1 Hp1]. unfold bind at 1.
    pose proof (choice_spec (take 15 sorted_pop) Htake s1 I) as H2.
    destruct (choice (take 15 sorted_pop) s1) as [[parent2 s2]| |]; [|done..].
    destruct H2 as [Hh2 Hp2].
    assert (Hs2 : heap s2 = heap s) by congruence.
    clear Hh1 Hh2. apply subseteq_take in Hp1, Hp2.
    assert (Hwf1 : wf (heap s) parent1).
    { unfold good in Hsorted. rewrite Forall_forall in Hsorted.
      by apply Hsorted, list_elem_of_In. }
    assert (Hwf2 : wf (heap s) parent2).
    { unfold good in Hsorted. rewrite Forall_forall in Hsorted.
      by apply Hsorted, list_elem_of_In. }
    destruct s2 as [h2 t2]. cbn [heap] in Hs2. subst h2.
    apply wf_full in Hwf1, Hwf2.
    unfold bind at 1. rewrite (crossover_run (heap s) t2 parent1 parent2 Hwf1 Hwf2).
    set (rows := child_row (heap s) parent1 parent2 <$> seq 0 (Z.to_nat MAP_HEIGHT)).
    set (child := seq (length (heap s)) (Z.to_nat MAP_HEIGHT)).
    assert (Hfresh : fresh_map (heap s) (heap s ++ rows) child).
    { apply fresh_rows.
      - unfold rows. by rewrite length_fmap, length_seq.
      - unfold rows. apply Forall_fmap, Forall_forall.
        intros y Hy%list_elem_of_In%elem_of_seq. simpl.
        apply child_row_length; [done..|lia]. }
    unfold bind at 1.
    pose proof (mutate_fresh (heap s) child (mkState (heap s ++ rows) t2) Hfresh) as Hm.
    destruct (mutate child (mkState (heap s ++ rows) t2)) as [[child' s3]| |];
      [|done..].
    destruct Hm as (-> & Hext & Hwf3 & _).
    assert (Hpre : good (heap s3) sorted_pop ∧
                   good (heap s3) (new_population ++ [child]) ∧ sorted_pop ≠ []).
    { split; [by eapply good_extends|]. split; [|done].
      apply Forall_app. split; [by eapply good_extends|].
      by apply Forall_singleton. }
    pose proof (IH (new_population ++ [child]) s3 Hpre) as Hrec.
    destruct (fill turns population_size sorted_pop (new_population ++ [child]) s3)
      as [[population' s']| |]; [|done..].
    destruct Hrec as (Hext' & Hgood' & children & ->).
    split; [by eapply extends_trans|]. split; [done|].
    exists (child :: children). by rewrite <- app_assoc.
  - simpl. split; [apply extends_refl|]. split; [done|].
    exists []. by rewrite app_nil_r.
Qed.

Lemma ranked_nonempty h population :
  population ≠ [] → (ranked h population).*2 ≠ [].
Proof.
  intros Hne Hnil. pose proof (ranked_perm h population) as Hperm.
  rewrite Hnil in Hperm. by apply Permutation_nil_l in Hperm.
Qed.

Lemma good_ranked h population :
  good h population → good h (ranked h population).*2.
Proof. intros Hgood. unfold good. by rewrite ranked_perm. Qed.

Lemma generation_spec population_size population :
  safe (λ s, good (heap s) population ∧ population ≠ [])
    (generation population_size population)
    (λ s population' s',
       extends (heap s) (heap s') ∧ good (heap s') population' ∧
       ∃ children,
         population' = take 5 (ranked (heap s) population).*2 ++ children).
Proof.
  intros s [Hgood Hne]. unfold generation.
  unfold bind at 1. rewrite (mapM_fitness population s Hgood).
  unfold bind at 1.
  assert (Hmax : ∃ best, py_max (fitness (heap s) <$> population) s = Ok (best, s)).
  { destruct population as [|g population]; [done|]. simpl. by eexists. }
  destruct Hmax as [best ->].
  unfold bind at 1. unfold py_mean.
  rewrite bool_decide_eq_false_2.
  2:{ rewrite length_fmap. by destruct population. }
  unfold ret at 1. fold (ranked (heap s) population).
  apply (fill_spec population_size population_size _ _ s).
  split; [by apply good_ranked|]. split; [|by apply ranked_nonempty].
  apply Forall_take. by apply good_ranked.
Qed.

(** C7.  The next population starts with the five best maps of the ranked
    population.  Producing the children changes no cell of them, so their
    scores, evaluated in the next generation, are the five highest scores of
    this generation. *)
Theorem elites_carried population_size population s population' s' :
  good (heap s) population →
  generation population_size population s = Ok (population', s') →
  let elites := take 5 (ranked (heap s) population).*2 in
  (∃ children, population' = elites ++ children) ∧
  Forall (λ g, view (heap s') g = view (heap s) g) elites ∧
  mapM calculate_fitness elites s' =
    Ok (take 5 (ranked (heap s) population).*1, s') ∧
  (ranked (heap s) population).*1 ≡ₚ fitness (heap s) <$> population ∧
  StronglySorted (λ a b, b <= a) (ranked (heap s) population).*1.
Proof.
  intros Hgood Hrun elites.
  assert (Hne : population ≠ []).
  { intros ->. discriminate Hrun. }
  pose proof (generation_spec population_size population s (conj Hgood Hne)) as Hspec.
  rewrite Hrun in Hspec. destruct Hspec as (Hext & Hgood' & children & Hpop).
  fold elites in Hpop.
  assert (Helites : good (heap s) elites).
  { apply Forall_take. by apply good_ranked. }
  assert (Hsame : Forall (λ g, view (heap s') g = view (heap s) g) elites).
  { eapply Forall_impl; [|exact Helites]. intros g Hwf. simpl.
    by apply view_extends_wf. }
  split; [by exists children|]. split; [done|]. split; [|split].
  - rewrite mapM_fitness.
    2:{ rewrite Hpop in Hgood'. by apply Forall_app in Hgood' as [? _]. }
    f_equal. f_equal. rewrite ranked_scores, <- fmap_take. fold elites.
    apply list_fmap_ext. intros i g Hg. unfold fitness. f_equal.
    rewrite Forall_lookup in Hsame. by apply (Hsame i).
  - unfold ranked. rewrite sorted_desc_perm.
    rewrite fst_zip; [done|]. by rewrite length_fmap.
  - apply sorted_desc_sorted.
Qed.

(** ** A whole run *)

Lemma first_population_spec population_size :
  safe (λ _, True) (first_population population_size)
    (λ s population s',
       extends (heap s) (heap s') ∧ good (heap s') population ∧
       length population = population_size).
Proof.
  intros s0 _. unfold first_population.
  pose (I := λ (done : list nat) (population : list (list nat)) (s : state),
    extends (heap s0) (heap s) ∧ good (heap s) population ∧
    length population = length done).
  assert (Hloop : safe (I [] []) (for_fold (seq 0 population_size) (λ _ population,
            individual <- new_individual ;; ret (population ++ [individual])) [])
            (λ _ population s', I (seq 0 population_size) population s')).
  { apply safe_for_fold. intros dn i rest population _.
    intros s (Hext & Hgood & Hlen). unfold bind.
    pose proof (new_individual_spec s Logic.I) as Hnew.
    destruct (new_individual s) as [[g s1]| |]; [|exact Hnew..].
    destruct Hnew as (Hext1 & Hwf1 & _). simpl.
    split; [by eapply extends_trans|]. split.
    - apply Forall_app. split; [by eapply good_extends|by apply Forall_singleton].
    - rewrite !length_app. simpl. clear -Hlen. lia. }
  assert (HI0 : I [] [] s0).
  { clear Hloop. split; [apply extends_refl|]. split; [constructor|reflexivity]. }
  specialize (Hloop s0 HI0). clear HI0.
  destruct (for_fold _ _ _ s0) as [[population s']| |]; [|exact Hloop..].
  destruct Hloop as (Hext & Hgood & Hlen). rewrite length_seq in Hlen.
  split; [exact Hext|]. split; [exact Hgood|exact Hlen].
Qed.

Lemma generations_spec population_size generations population :
  safe (λ s, good (heap s) population ∧ population ≠ [])
    (for_fold (seq 0 generations) (λ _ population,
       generation population_size population) population)
    (λ s population' s',
       extends (heap s) (heap s') ∧ good (heap s') population' ∧
       population' ≠ []).
Proof.
  intros s0 Hpre.
  pose (I := λ (done : list nat) (population : list (list nat)) (s : state),
    extends (heap s0) (heap s) ∧ good (heap s) population ∧ population ≠ []).
  assert (Hloop : safe (I [] population) (for_fold (seq 0 generations)
            (λ _ population, generation population_size population) population)
            (λ _ population' s', I (seq 0 generations) population' s')).
  { apply safe_for_fold. intros dn i rest pop _.
    intros s (Hext & Hgood & Hne).
    pose proof (generation_spec population_size pop s (conj Hgood Hne)) as Hgen.
    destruct (generation population_size pop s) as [[pop' s']| |]; [|exact Hgen..].
    destruct Hgen as (Hext' & Hgood' & children & Hpop).
    split; [by eapply extends_trans|]. split; [exact Hgood'|].
    rewrite Hpop. intros Hnil. apply app_eq_nil in Hnil as [Hnil _].
    apply take_nil_inv in Hnil as [Hnil|Hnil]; [discriminate Hnil|].
    by apply (ranked_nonempty (heap s) pop). }
  assert (HI0 : I [] population s0).
  { clear Hloop. split; [apply extends_refl|exact Hpre]. }
  specialize (Hloop s0 HI0). clear HI0.
  destruct (for_fold _ _ _ s0) as [[population' s']| |]; [|exact Hloop..].
  exact Hloop.
Qed.

Lemma argmax_from_bound l :
  ∀ i best_i best, (best_i < i)%nat →
    (argmax_from i best_i best l < i + length l)%nat.
Proof.
  induction l as [|a l IH]; intros i best_i best Hlt; simpl; [lia|].
  destruct (best <? a).
  - specialize (IH (S i) i a). lia.
  - specialize (IH (S i) best_i best). lia.
Qed.

Lemma evolve_spec population_size generations :
  (1 <= population_size)%nat →
  safe (λ _, True) (evolve population_size generations)
    (λ _ r s', wf (heap s') r.1 ∧ r.2 = fitness (heap s') r.1).
Proof.
  intros Hsize s0 _. unfold evolve. unfold bind at 1.
  pose proof (first_population_spec population_size s0 I) as Hfirst.
  destruct (first_population population_size s0) as [[pop0 s1]| |];
    [|exact Hfirst..].
  destruct Hfirst as (_ & Hgood0 & Hlen0).
  assert (Hne0 : pop0 ≠ []).
  { intros ->. simpl in Hlen0. clear -Hlen0 Hsize. lia. }
  unfold bind at 1.
  pose proof (generations_spec population_size generations pop0 s1
                (conj Hgood0 Hne0)) as Hgens.
  destruct (for_fold (seq 0 generations) _ pop0 s1) as [[pop s2]| |];
    [|exact Hgens..].
  destruct Hgens as (_ & Hgood & Hne). clear Hgood0 Hne0 Hlen0.
  unfold bind at 1. rewrite (mapM_fitness pop s2 Hgood).
  destruct pop as [|g0 pop]; [done|].
  unfold bind at 1. rewrite fmap_cons. unfold py_argmax, ret at 1.
  set (scores := fitness (heap s2) <$> pop).
  set (best := argmax_from 1 0 (fitness (heap s2) g0) scores).
  assert (Hbest : (best < length (g0 :: pop))%nat).
  { pose proof (argmax_from_bound scores 1 0 (fitness (heap s2) g0)) as Hb.
    fold best in Hb. unfold scores in Hb. rewrite length_fmap in Hb.
    simpl. lia. }
  destruct (lookup_lt_is_Some_2 (g0 :: pop) best Hbest) as [g Hg].
  unfold bind at 1.
  rewrite (item_lookup (g0 :: pop) (Z.of_nat best) g) by (rewrite ?Nat2Z.id; done || lia).
  unfold ret at 1. unfold bind at 1.
  rewrite (item_lookup (fitness (heap s2) g0 :: scores) (Z.of_nat best)
             (fitness (heap s2) g)).
  - unfold ret. simpl. split; [|done].
    unfold good in Hgood. rewrite Forall_lookup in Hgood. by apply (Hgood best).
  - lia.
  - rewrite Nat2Z.id. change (fitness (heap s2) g0 :: scores)
      with (fitness (heap s2) <$> g0 :: pop).
    by rewrite list_lookup_fmap, Hg.
Qed.

Lemma forallb_wfb_good h population :
  forallb (wfb h) population = true → good h population.
Proof.
  intros H. apply Forall_forall. intros g Hg.
  rewrite forallb_forall in H. by apply wfb_wf, H.
Qed.

Lemma elites_carried_witness :
  let s := final_state six_individuals in
  let population := default [] (returned six_individuals) in
  let next := generation 6 population s in
  let elites := take 5 (ranked (heap s) population).*2 in
  (∃ children, default [] (returned next) = elites ++ children) ∧
  Forall (λ g, view (heap (final_state next)) g = view (heap s) g) elites ∧
  mapM calculate_fitness elites (final_state next) =
    Ok (take 5 (ranked (heap s) population).*1, final_state next) ∧
  (ranked (heap s) population).*1 ≡ₚ fitness (heap s) <$> population ∧
  StronglySorted (λ a b, b <= a) (ranked (heap s) population).*1.
Proof.
  intros s population next.
  apply (elites_carried 6 population s (default [] (returned next)) (final_state next)).
  - apply forallb_wfb_good. vm_compute. reflexivity.
  - vm_compute. reflexivity.
Defined.

(** C9, as amended.  The program checks no configuration and has no
    configuration error.  With a population of at least one map a run raises
    nothing, while the first population is built or in the generation loop,
    and what it returns is a full map together with its score. *)
Theorem run_raises_nothing population_size generations s :
  (1 <= population_size)%nat →
  match evolve population_size generations s with
  | Ok (r, s') => wf (heap s') r.1 ∧ r.2 = fitness (heap s') r.1
  | Raise _ => False
  | Starved => True
  end.
Proof. intros Hsize. by apply (evolve_spec population_size generations Hsize s). Qed.

Lemma run_raises_nothing_witness :
  let r := default ([], 0) (returned (short_run 1)) in
  let s' := final_state (short_run 1) in
  evolve 6 1 (seeded 1 (Z.to_nat 9000)) = Ok (r, s') ∧
  wf (heap s') r.1 ∧ r.2 = fitness (heap s') r.1.
Proof.
  intros r s'.
  assert (Hrun : evolve 6 1 (seeded 1 (Z.to_nat 9000)) = Ok (r, s'))
    by (vm_compute; reflexivity).
  split; [exact Hrun|].
  pose proof (run_raises_nothing 6 1 (seeded 1 (Z.to_nat 9000))
                ltac:(lia)) as H.
  rewrite Hrun in H. exact H.
Defined.

(** C9 as stated fails: with a population of three, below the six the
    specification asks for, the run builds its population and ends without
    any error; with an empty population the error is a [ValueError] raised
    in the first generation, after the population loop. *)
Lemma invalid_configuration_not_rejected :
  succeeded (evolve 3 1 (seeded 1 (Z.to_nat 9000))) = true ∧
  first_population 0 (seeded 1 0) = Ok ([], seeded 1 0) ∧
  evolve 0 1 (seeded 1 0) = Raise ValueError.
Proof. split; [vm_compute; reflexivity|]. split; reflexivity. Qed.

(** * Dependence on the random generator *)

Lemma steady_ret {A} (a : A) : steady (ret a).
Proof. intros h t a' h' t' [= <- <- <-]. by exists []. Qed.

Lemma steady_raise {A} (e : exn) : steady (@raise A e).
Proof. intros h t a h' t' [=]. Qed.

Lemma steady_bind {A B} (c : M A) (k : A → M B) :
  steady c → (∀ a, steady (k a)) → steady (bind c k).
Proof.
  intros Hc Hk h t b h' t' Hrun. unfold bind in Hrun.
  destruct (c (mkState h t)) as [[a [h1 t1]]| |] eqn:Hc1; [|done..].
  destruct (Hc h t a h1 t1 Hc1) as (used1 & -> & Hc').
  destruct (Hk a h1 t1 b h' t' Hrun) as (used2 & -> & Hk').
  exists (used1 ++ used2). split; [by rewrite app_assoc|].
  intros u. unfold bind. by rewrite <- app_assoc, Hc', Hk'.
Qed.

Lemma steady_draw : steady draw.
Proof.
  intros h t a h' t' Hrun. unfold draw in Hrun. simpl in Hrun.
  destruct t as [|r t]; [done|]. injection Hrun as <- <- <-.
  by exists [r].
Qed.

Lemma steady_for_each {A} (l : list A) (body : A → M unit) :
  (∀ a, steady (body a)) → steady (for_each l body).
Proof.
  intros Hbody. induction l as [|a l IH]; simpl.
  - apply steady_ret.
  - apply steady_bind; [apply Hbody|]. intros _. apply IH.
Qed.

Lemma steady_for_fold {A B} (l : list A) (body : A → B → M B) :
  (∀ a acc, steady (body a acc)) → ∀ acc, steady (for_fold l body acc).
Proof.
  intros Hbody. induction l as [|a l IH]; intros acc; simpl.
  - apply steady_ret.
  - apply steady_bind; [apply Hbody|]. intros acc'. apply IH.
Qed.

Lemma steady_mapM {A B} (f : A → M B) (l : list A) :
  (∀ a, steady (f a)) → steady (mapM f l).
Proof.
  intros Hf. induction l as [|a l IH]; simpl.
  - apply steady_ret.
  - apply steady_bind; [apply Hf|]. intros b.
    apply steady_bind; [apply IH|]. intros bs. apply steady_ret.
Qed.

Lemma steady_alloc row : steady (alloc row).
Proof. intros h t a h' t' [= <- <- <-]. by exists []. Qed.

Lemma steady_load l : steady (load l).
Proof.
  intros h t a h' t' Hrun. unfold load in *. simpl in *.
  destruct (h !! l); [|done]. injection Hrun as <- <- <-. by exists [].
Qed.

Lemma steady_store l row : steady (store l row).
Proof.
  intros h t a h' t' Hrun. unfold store in *. simpl in *.
  case_bool_decide; [|done]. injection Hrun as <- <- <-. by exists [].
Qed.

Lemma steady_item {A} (l : list A) i : steady (item l i).
Proof.
  unfold item. destruct (py_index (length l) i ≫= (l !!.)).
  - apply steady_ret.
  - apply steady_raise.
Qed.

Create HintDb steady.
#[local] Hint Resolve steady_ret steady_raise steady_draw steady_alloc steady_load
  steady_store steady_item : steady.

(** Splits a computation along its binds, loops and branches. *)
Ltac steady_step :=
  match goal with
  | |- steady (bind _ _) => apply steady_bind
  | |- steady (for_each _ _) => apply steady_for_each
  | |- steady (for_fold _ _ _) => apply steady_for_fold
  | |- steady (mapM _ _) => apply steady_mapM
  | |- steady (if ?b then _ else _) => destruct b
  | |- steady (match ?x with _ => _ end) => destruct x
  | |- steady (let _ := _ in _) => cbv zeta
  | |- ∀ _, _ => intro
  | |- steady _ => solve [auto with steady]
  end.
Ltac steady_auto := repeat steady_step.

Lemma steady_randint a b : steady (randint a b).
Proof. unfold randint. steady_auto. Qed.

Lemma steady_random_lt_rate : steady random_lt_rate.
Proof. unfold random_lt_rate. steady_auto. Qed.

Lemma steady_choice {A} (l : list A) : steady (choice l).
Proof. unfold choice. destruct l; steady_auto. Qed.

Lemma steady_get_cell g y x : steady (get_cell g y x).
Proof. unfold get_cell. steady_auto. Qed.

Lemma steady_set_cell g y x v : steady (set_cell g y x v).
Proof. unfold set_cell. steady_auto. Qed.

#[local] Hint Resolve steady_randint steady_random_lt_rate steady_choice
  steady_get_cell steady_set_cell : steady.

Lemma steady_generate_random_map : steady generate_random_map.
Proof. unfold generate_random_map. steady_auto. Qed.

Lemma steady_enforce_constraints g : steady (enforce_constraints g).
Proof. unfold enforce_constraints. steady_auto. Qed.

Lemma steady_place_river g : steady (place_river g).
Proof. unfold place_river. steady_auto. Qed.

Lemma steady_clear_rocks g : steady (clear_rocks g).
Proof. unfold clear_rocks. steady_auto. Qed.

Lemma steady_mutate_cells g : steady (mutate_cells g).
Proof. unfold mutate_cells. steady_auto. Qed.

(** The seed loop reads the same draws whatever number of turns it is
    allowed, as long as these are enough. *)
Lemma seed_loop_steady g turns :
  ∀ h t a h' t',
    seed_loop turns g (mkState h t) = Ok (a, mkState h' t') →
    ∃ used, t = used ++ t' ∧
      ∀ u turns', (length used <= turns')%nat →
        seed_loop turns' g (mkState h (used ++ u)) = Ok (a, mkState h' u).
Proof.
  induction turns as [|turns IH]; intros h t a h' t' Hrun; [done|].
  simpl in Hrun. unfold bind at 1, randint at 1, bind at 1, draw at 1 in Hrun.
  simpl in Hrun. destruct t as [|r1 t]; [done|]. simpl in Hrun.
  unfold bind at 1, randint at 1, bind at 1, draw at 1 in Hrun.
  simpl in Hrun. destruct t as [|r2 t]; [done|]. simpl in Hrun.
  unfold bind at 1 in Hrun.
  set (cx := 5 + r1 mod (MAP_WIDTH - 5 - 5 + 1)) in *.
  set (cy := 5 + r2 mod (MAP_HEIGHT - 5 - 5 + 1)) in *.
  destruct (get_cell g cy cx (mkState h t)) as [[v [h3 t3]]| |] eqn:Hget; [|done..].
  destruct (steady_get_cell g cy cx h t v h3 t3 Hget) as (used_g & -> & Hget').
  assert (Hstep : ∀ u turns',
            seed_loop (S turns') g (mkState h (r1 :: r2 :: used_g ++ u)) =
            (if v =? MOUNTAIN then seed_loop turns' g else ret (cx, cy))
              (mkState h3 u)).
  { intros u turns'. simpl.
    unfold bind at 1, randint at 1, bind at 1, draw at 1. simpl.
    unfold bind at 1, randint at 1, bind at 1, draw at 1. simpl.
    unfold bind at 1. fold cx cy. by rewrite Hget'. }
  destruct (v =? MOUNTAIN).
  - destruct (IH h3 t3 a h' t' Hrun) as (used_r & -> & Hrec).
    exists (r1 :: r2 :: used_g ++ used_r). split.
    { simpl. by rewrite app_assoc. }
    intros u turns' Hlen. destruct turns' as [|turns']; [simpl in Hlen; lia|].
    replace ((r1 :: r2 :: used_g ++ used_r) ++ u)
      with (r1 :: r2 :: used_g ++ (used_r ++ u))
      by (simpl; by rewrite app_assoc).
    rewrite (Hstep _ turns'). apply Hrec.
    simpl in Hlen. rewrite length_app in Hlen. lia.
  - injection Hrun as <- <- <-. exists (r1 :: r2 :: used_g). split; [done|].
    intros u turns' Hlen. destruct turns' as [|turns']; [simpl in Hlen; lia|].
    change ((r1 :: r2 :: used_g) ++ u) with (r1 :: r2 :: used_g ++ u).
    by rewrite (Hstep u turns').
Qed.

Lemma steady_pick_seed g : steady (pick_seed g).
Proof.
  intros h t a h' t' Hrun. unfold pick_seed in Hrun. simpl in Hrun.
  destruct (seed_loop_steady g _ h t a h' t' Hrun) as (used & -> & Hrec).
  exists used. split; [done|]. intros u. unfold pick_seed. simpl.
  apply Hrec. rewrite length_app. lia.
Qed.

#[local] Hint Resolve steady_pick_seed steady_generate_random_map
  steady_enforce_constraints steady_place_river steady_clear_rocks
  steady_mutate_cells : steady.

Lemma steady_place_rocks g n : steady (place_rocks g n).
Proof. unfold place_rocks. steady_auto. Qed.

#[local] Hint Resolve steady_place_rocks : steady.

Lemma steady_enforcer_pass b g : steady (enforcer_pass b g).
Proof. unfold enforcer_pass. steady_auto. Qed.

#[local] Hint Resolve steady_enforcer_pass : steady.

Lemma steady_mutate g : steady (mutate g).
Proof. unfold mutate. steady_auto. Qed.

Lemma steady_new_individual : steady new_individual.
Proof. unfold new_individual. steady_auto. Qed.

Lemma steady_find_river g x y_river offsets : steady (find_river g x y_river offsets).
Proof. induction offsets as [|offset rest IH]; simpl; steady_auto. Qed.

#[local] Hint Resolve steady_mutate steady_new_individual steady_find_river : steady.

Lemma steady_calculate_fitness g : steady (calculate_fitness g).
Proof. unfold calculate_fitness. steady_auto. Qed.

Lemma steady_crossover map1 map2 : steady (crossover map1 map2).
Proof. unfold crossover. steady_auto. Qed.

#[local] Hint Resolve steady_calculate_fitness steady_crossover : steady.

Lemma steady_fill turns population_size sorted_pop :
  ∀ new_population, steady (fill turns population_size sorted_pop new_population).
Proof.
  induction turns as [|turns IH]; intros new_population; simpl;
    case_bool_decide; try apply steady_ret.
  - intros h t a h' t' [=].
  - steady_auto.
Qed.

#[local] Hint Resolve steady_fill : steady.

Lemma steady_generation population_size population :
  steady (generation population_size population).
Proof.
  unfold generation, py_max, py_mean. steady_auto; case_bool_decide; steady_auto.
Qed.

Lemma steady_first_population population_size :
  steady (first_population population_size).
Proof. unfold first_population. steady_auto. Qed.

#[local] Hint Resolve steady_generation steady_first_population : steady.

Lemma steady_evolve population_size generations :
  steady (evolve population_size generations).
Proof. unfold evolve, py_argmax. steady_auto. Qed.

Lemma steady_render_map_image TILE_SIZE g : steady (render_map_image TILE_SIZE g).
Proof. unfold render_map_image. steady_auto. Qed.

Lemma steady_main TILE_SIZE : steady (main TILE_SIZE).
Proof.
  unfold main. apply steady_for_fold. intros i [e|rendered]; [apply steady_ret|].
  apply steady_bind; [apply steady_evolve|]. intros best.
  apply steady_bind; [apply steady_render_map_image|].
  intros [e|out_img]; apply steady_ret.
Qed.

(** C8, as amended.  A run draws from the process-wide generator and takes
    no seed.  Its result is a function of the draws it reads: a run that
    returns has read a prefix of the generator's output, and any run that is
    given the same prefix returns the same map, score and store, whatever
    the generator yields afterwards. *)
Theorem run_depends_on_draws population_size generations h t r h' t' :
  evolve population_size generations (mkState h t) = Ok (r, mkState h' t') →
  ∃ used, t = used ++ t' ∧
    ∀ u, evolve population_size generations (mkState h (used ++ u)) =
         Ok (r, mkState h' u).
Proof. apply steady_evolve. Qed.

Lemma run_depends_on_draws_witness :
  ∃ used,
    lcg (Z.to_nat 9000) 1 = used ++ tape (final_state (short_run 1)) ∧
    ∀ u, evolve 6 1 (mkState [] (used ++ u)) =
         Ok (default ([], 0) (returned (short_run 1)),
             mkState (heap (final_state (short_run 1))) u).
Proof.
  apply (run_depends_on_draws 6 1 [] (lcg (Z.to_nat 9000) 1)).
  vm_compute. reflexivity.
Defined.

Lemma best_map_differs r1 r2 y x a b :
  best_cell r1 y x = Some a → best_cell r2 y x = Some b → a ≠ b →
  best_map r1 ≠ best_map r2.
Proof.
  unfold best_cell. intros H1 H2 Hab Heq. rewrite Heq in H1. congruence.
Qed.

(** C8 as stated fails: the program has no seed to fix, and two runs with
    the same configuration whose generators are in different states return
    different maps and scores. *)
Lemma runs_differ :
  succeeded (short_run 1) = true ∧ succeeded (short_run 2) = true ∧
  best_score (short_run 1) = Some 1719 ∧ best_score (short_run 2) = Some 1618 ∧
  best_cell (short_run 1) 1 2 = Some RIVER ∧
  best_cell (short_run 2) 1 2 = Some PLAINS ∧
  best_map (short_run 1) ≠ best_map (short_run 2).
Proof.
  split; [vm_compute; reflexivity|]. split; [vm_compute; reflexivity|].
  split; [vm_compute; reflexivity|]. split; [vm_compute; reflexivity|].
  split; [vm_compute; reflexivity|]. split; [vm_compute; reflexivity|].
  apply (best_map_differs (short_run 1) (short_run 2) 1 2 RIVER PLAINS).
  - vm_compute. reflexivity.
  - vm_compute. reflexivity.
  - discriminate.
Qed.

(** * The passes return *)

Lemma calm_ret {A} (a : A) : calm (ret a).
Proof. by intros s. Qed.

Lemma calm_raise {A} (e : exn) : calm (@raise A e).
Proof. by intros s. Qed.

Lemma calm_bind {A B} (c : M A) (k : A → M B) :
  calm c → (∀ a, calm (k a)) → calm (bind c k).
Proof.
  intros Hc Hk s. unfold bind. specialize (Hc s).
  destruct (c s) as [[a s1]| |]; [|done..].
  specialize (Hk a s1). destruct (k a s1) as [[b s2]| |]; [|done..].
  congruence.
Qed.

Lemma calm_for_each {A} (l : list A) (body : A → M unit) :
  (∀ a, calm (body a)) → calm (for_each l body).
Proof.
  intros Hbody. induction l as [|a l IH]; simpl.
  - apply calm_ret.
  - apply calm_bind; [apply Hbody|]. intros _. apply IH.
Qed.

Lemma calm_load l : calm (load l).
Proof. intros s. unfold load. by destruct (heap s !! l). Qed.

Lemma calm_store l row : calm (store l row).
Proof. intros s. unfold store. by case_bool_decide. Qed.

Lemma calm_item {A} (l : list A) i : calm (item l i).
Proof.
  unfold item. destruct (py_index (length l) i ≫= (l !!.)).
  - apply calm_ret.
  - apply calm_raise.
Qed.

Create HintDb calm.
#[local] Hint Resolve calm_ret calm_raise calm_load calm_store calm_item : calm.

Ltac calm_step :=
  match goal with
  | |- calm (bind _ _) => apply calm_bind
  | |- calm (for_each _ _) => apply calm_for_each
  | |- calm (if ?b then _ else _) => destruct b
  | |- calm (match ?x with _ => _ end) => destruct x
  | |- calm (let _ := _ in _) => cbv zeta
  | |- ∀ _, _ => intro
  | |- calm _ => solve [auto with calm]
  end.
Ltac calm_auto := repeat calm_step.

Lemma calm_get_cell g y x : calm (get_cell g y x).
Proof. unfold get_cell. calm_auto. Qed.

Lemma calm_set_cell g y x v : calm (set_cell g y x v).
Proof. unfold set_cell. calm_auto. Qed.

#[local] Hint Resolve calm_get_cell calm_set_cell : calm.

Lemma calm_settle (after_mutation : bool) g :
  calm (enforce_constraints g ;;
        place_river g ;;
        (if after_mutation then clear_rocks g else ret tt)).
Proof.
  unfold enforce_constraints, place_river, clear_rocks. calm_auto.
Qed.

Lemma settle_returns (after_mutation : bool) g h t :
  wf h g →
  ∃ h', (enforce_constraints g ;;
         place_river g ;;
         (if after_mutation then clear_rocks g else ret tt)) (mkState h t) =
        Ok (tt, mkState h' t) ∧
        wf h' g ∧ cellwise (settled after_mutation) (view h g) (view h' g).
Proof.
  intros Hwf.
  pose proof (settle_spec after_mutation g (mkState h t) Hwf) as Hspec.
  pose proof (calm_settle after_mutation g (mkState h t)) as Hcalm.
  destruct ((enforce_constraints g ;; place_river g ;;
             (if after_mutation then clear_rocks g else ret tt)) (mkState h t))
    as [[[] [h' t']]| |]; [|done..].
  simpl in *. subst t'. destruct Hspec as (Hwf' & _ & _ & Hcells).
  by exists h'.
Qed.

Lemma randint_run a b h r t :
  randint a b (mkState h (r :: t)) = Ok (a + r mod (b - a + 1), mkState h t).
Proof. reflexivity. Qed.

(** With the draw 10 the seed is the center, the cluster has four cells and
    every offset is 0; the center holds River, so nothing is painted. *)
Lemma seed_on_river g h t turns :
  full h g → at_ (view h g) 15 15 = RIVER →
  seed_loop (S turns) g (mkState h (10 :: 10 :: t)) = Ok ((15, 15), mkState h t).
Proof.
  intros Hfull Hriver. cbn [seed_loop]. unfold bind.
  rewrite !randint_run.
  change (5 + 10 mod (MAP_WIDTH - 5 - 5 + 1)) with 15.
  change (5 + 10 mod (MAP_HEIGHT - 5 - 5 + 1)) with 15.
  rewrite get_cell_run; [|done|by unfold in_map, MAP_HEIGHT, MAP_WIDTH].
  by rewrite Hriver.
Qed.

Lemma rock_turn_on_river g h t :
  full h g → at_ (view h g) 15 15 = RIVER →
  (nx <- (d <- randint (-1) 1 ;; ret (15 + d)) ;;
   ny <- (d <- randint (-1) 1 ;; ret (15 + d)) ;;
   if (0 <? nx) && (nx <? MAP_WIDTH - 1) && (0 <? ny) && (ny <? MAP_HEIGHT - 1)
   then t <- get_cell g ny nx ;;
        if t =? PLAINS then set_cell g ny nx ROCK else ret tt
   else ret tt) (mkState h (10 :: 10 :: t)) = Ok (tt, mkState h t).
Proof.
  intros Hfull Hriver. unfold bind. rewrite !randint_run. unfold ret at 1.
  rewrite randint_run. unfold ret at 1.
  change (15 + (-1 + 10 mod (1 - -1 + 1))) with 15.
  change ((0 <? 15) && (15 <? MAP_WIDTH - 1) && (0 <? 15) && (15 <? MAP_HEIGHT - 1))
    with true. cbv beta iota.
  rewrite get_cell_run; [|done|by unfold in_map, MAP_HEIGHT, MAP_WIDTH].
  by rewrite Hriver.
Qed.

Lemma cluster_on_river g h t :
  full h g → at_ (view h g) 15 15 = RIVER →
  (c <- pick_seed g ;;
   cluster_size <- randint 3 5 ;;
   for_each (range cluster_size) (λ _,
     nx <- (d <- randint (-1) 1 ;; ret (c.1 + d)) ;;
     ny <- (d <- randint (-1) 1 ;; ret (c.2 + d)) ;;
     if (0 <? nx) && (nx <? MAP_WIDTH - 1) && (0 <? ny) && (ny <? MAP_HEIGHT - 1)
     then t <- get_cell g ny nx ;;
          if t =? PLAINS then set_cell g ny nx ROCK else ret tt
     else ret tt)) (mkState h (replicate 11 10 ++ t)) = Ok (tt, mkState h t).
Proof.
  intros Hfull Hriver. unfold bind at 1. unfold pick_seed. cbn [tape length replicate app].
  rewrite seed_on_river by done. unfold bind at 1. rewrite randint_run.
  change (3 + 10 mod (5 - 3 + 1)) with 4. change (range 4) with [0; 1; 2; 3].
  cbn [for_each fst snd]. unfold bind at 1.
  rewrite rock_turn_on_river by done. unfold bind at 1.
  rewrite rock_turn_on_river by done. unfold bind at 1.
  rewrite rock_turn_on_river by done. unfold bind at 1.
  rewrite rock_turn_on_river by done. reflexivity.
Qed.

Lemma clusters_on_river g h t (l : list Z) :
  full h g → at_ (view h g) 15 15 = RIVER →
  for_each l (λ _,
    c <- pick_seed g ;;
    cluster_size <- randint 3 5 ;;
    for_each (range cluster_size) (λ _,
      nx <- (d <- randint (-1) 1 ;; ret (c.1 + d)) ;;
      ny <- (d <- randint (-1) 1 ;; ret (c.2 + d)) ;;
      if (0 <? nx) && (nx <? MAP_WIDTH - 1) && (0 <? ny) && (ny <? MAP_HEIGHT - 1)
      then t <- get_cell g ny nx ;;
           if t =? PLAINS then set_cell g ny nx ROCK else ret tt
      else ret tt)) (mkState h (replicate (11 * length l) 10 ++ t)) =
  Ok (tt, mkState h t).
Proof.
  intros Hfull Hriver. induction l as [|i l IH]; [reflexivity|].
  cbn [for_each length].
  replace (11 * S (length l))%nat with (11 + 11 * length l)%nat by lia.
  rewrite replicate_add, <- app_assoc.
  unfold bind at 1. rewrite cluster_on_river by done. exact IH.
Qed.

(** The constraint pass can always finish: from any full map it returns
    when the generator yields 10 for the 88 draws of rock placement. *)
Lemma enforcer_pass_returns (after_mutation : bool) g h t :
  wf h g →
  ∃ h', enforcer_pass after_mutation g (mkState h (replicate 88 10 ++ t)) =
        Ok (tt, mkState h' t) ∧ wf h' g.
Proof.
  intros Hwf.
  destruct (settle_returns after_mutation g h (replicate 88 10 ++ t) Hwf)
    as (h' & Hrun & Hwf' & Hcells).
  exists h'. split; [|done].
  assert (Hriver : at_ (view h' g) 15 15 = RIVER).
  { rewrite (Hcells 15 15) by by unfold in_map, MAP_HEIGHT, MAP_WIDTH.
    unfold settled. change (in_band 15 15) with true. cbv iota.
    by destruct after_mutation. }
  unfold enforcer_pass. unfold bind in Hrun |- *.
  destruct (enforce_constraints g (mkState h (replicate 88 10 ++ t)))
    as [[u1 s1]| |]; [|done..].
  destruct (place_river g s1) as [[u2 s2]| |]; [|done..].
  destruct ((if after_mutation then clear_rocks g else ret ()) s2)
    as [[u3 s3]| |]; [|done..].
  apply (f_equal final_state) in Hrun. cbn [final_state] in Hrun. subst s3.
  unfold place_rocks.
  apply (clusters_on_river g h' t (range 8)); [by apply wf_full|done].
Qed.

(** The draw [2^52] stands for [random() = 0.5]: the cell is left alone. *)
Lemma row_not_mutated g y h t (lx : list Z) :
  for_each lx (λ x,
    hit <- random_lt_rate ;;
    if hit then t <- randint 0 3 ;; set_cell g y x t else ret tt)
    (mkState h (replicate (length lx) (2 ^ 52) ++ t)) = Ok (tt, mkState h t).
Proof.
  induction lx as [|x lx IH]; [reflexivity|].
  cbn [for_each length replicate app]. unfold bind at 1.
  exact IH.
Qed.

Lemma cells_not_mutated g h t (ly : list Z) :
  for_each ly (λ y,
    for_each (range MAP_WIDTH) (λ x,
      hit <- random_lt_rate ;;
      if hit then t <- randint 0 3 ;; set_cell g y x t else ret tt))
    (mkState h (replicate (length ly * 30) (2 ^ 52) ++ t)) = Ok (tt, mkState h t).
Proof.
  induction ly as [|y ly IH]; [reflexivity|].
  cbn [for_each length].
  replace (S (length ly) * 30)%nat with (30 + length ly * 30)%nat by lia.
  rewrite replicate_add, <- app_assoc. unfold bind at 1.
  change 30%nat with (length (range MAP_WIDTH)) at 1.
  rewrite row_not_mutated. exact IH.
Qed.

(** [mutate] can always finish: from any full map it returns the map when
    the generator yields [2^52] for the 900 draws of the sweep and 10 for
    the 88 draws of rock placement. *)
Lemma mutate_returns g h t :
  wf h g →
  ∃ h', mutate g (mkState h (replicate 900 (2 ^ 52) ++ replicate 88 10 ++ t)) =
        Ok (g, mkState h' t) ∧ wf h' g.
Proof.
  intros Hwf. unfold mutate, mutate_cells. unfold bind at 1.
  change 900%nat with (length (range MAP_HEIGHT) * 30)%nat.
  rewrite cells_not_mutated.
  destruct (enforcer_pass_returns true g h t Hwf) as (h' & Hpass & Hwf').
  exists h'. split; [|done]. unfold bind. by rewrite Hpass.
Qed.

(** The turns given to the filling loop are never what stops it: with
    [population_size - len(new_population)] turns it behaves as with more. *)
Lemma fill_turns_enough turns extra population_size sorted_pop :
  ∀ new_population s,
    (population_size - length new_population <= turns)%nat →
    fill (turns + extra) population_size sorted_pop new_population s =
    fill turns population_size sorted_pop new_population s.
Proof.
  induction turns as [|turns IH]; intros new_population s Hle.
  - assert (Hge : ¬ (length new_population < population_size)%nat) by lia.
    cbn [Nat.add fill]. rewrite bool_decide_eq_false_2 by done.
    destruct extra; cbn [fill]; by rewrite bool_decide_eq_false_2.
  - cbn [Nat.add fill]. case_bool_decide as Hlt; [|done].
    unfold bind.
    destruct (choice (take 15 sorted_pop) s) as [[parent1 s1]| |]; [|done..].
    destruct (choice (take 15 sorted_pop) s1) as [[parent2 s2]| |]; [|done..].
    destruct (crossover parent1 parent2 s2) as [[child s3]| |]; [|done..].
    destruct (mutate child s3) as [[child' s4]| |]; [|done..].
    apply IH. rewrite length_app. simpl. lia.
Qed.

(** Where the pass sits in the two functions that run it. *)
Lemma mutate_runs_pass g s g' s' :
  mutate g s = Ok (g', s') →
  g' = g ∧ ∃ s1, mutate_cells g s = Ok (tt, s1) ∧
                 enforcer_pass true g s1 = Ok (tt, s').
Proof.
  unfold mutate, bind. intros Hrun.
  destruct (mutate_cells g s) as [[[] s1]| |]; [|done..].
  destruct (enforcer_pass true g s1) as [[[] s2]| |] eqn:Hpass; [|done..].
  injection Hrun as <- <-. split; [done|]. by exists s1.
Qed.

Lemma new_individual_runs_pass s g s' :
  new_individual s = Ok (g, s') →
  ∃ s1, generate_random_map s = Ok (g, s1) ∧
        wf (heap s1) g ∧ enforcer_pass false g s1 = Ok (tt, s').
Proof.
  unfold new_individual, bind. intros Hrun.
  pose proof (generate_random_map_spec s I) as Hgen.
  destruct (generate_random_map s) as [[g1 s1]| |]; [|done..].
  destruct (enforcer_pass false g1 s1) as [[[] s2]| |] eqn:Hpass; [|done..].
  injection Hrun as <- <-. exists s1. split; [done|]. split; [|done].
  apply Hgen.
Qed.

(** * Further properties of the functions *)

Lemma calm_enforce_constraints g : calm (enforce_constraints g).
Proof. unfold enforce_constraints. calm_auto. Qed.

Lemma calm_place_river g : calm (place_river g).
Proof. unfold place_river. calm_auto. Qed.

Lemma calm_clear_rocks g : calm (clear_rocks g).
Proof. unfold clear_rocks. calm_auto. Qed.

(** A computation that works on [g] and reads no draw returns. *)
Lemma acts_calm_returns {A} g (c : M A) R h t :
  acts g c R → calm c → wf h g →
  ∃ a h', c (mkState h t) = Ok (a, mkState h' t) ∧ wf h' g ∧
          R (view h g) a (view h' g).
Proof.
  intros Hacts Hcalm Hwf.
  specialize (Hacts (mkState h t) Hwf). specialize (Hcalm (mkState h t)).
  destruct (c (mkState h t)) as [[a [h' t']]| |]; [|done..].
  simpl in *. subst t'. destruct Hacts as (Hwf' & _ & _ & HR).
  by exists a, h'.
Qed.

(** X1.  On every full map [enforce_constraints] returns without reading a
    draw; afterwards the border holds Mountain, the cells of the central
    circle inside the border hold Plains, and every other cell is as it
    was. *)
Theorem enforce_constraints_cells g h t :
  wf h g →
  ∃ h', enforce_constraints g (mkState h t) = Ok (tt, mkState h' t) ∧
        wf h' g ∧
        ∀ y x, in_map y x →
          at_ (view h' g) y x =
            if on_border y x then MOUNTAIN
            else if is_in_central_circle x y 15 8 then PLAINS
            else at_ (view h g) y x.
Proof.
  intros Hwf.
  destruct (acts_calm_returns g _ _ h t (enforce_constraints_spec g)
              (calm_enforce_constraints g) Hwf) as ([] & h' & Hrun & Hwf' & Hcells).
  by exists h'.
Qed.

Lemma enforce_constraints_cells_witness :
  ∃ h', enforce_constraints plains_grid (plains_state 0 0) =
          Ok (tt, mkState h' []) ∧
        wf h' plains_grid ∧
        ∀ y x, in_map y x →
          at_ (view h' plains_grid) y x =
            if on_border y x then MOUNTAIN
            else if is_in_central_circle x y 15 8 then PLAINS
            else at_ (view (heap (plains_state 0 0)) plains_grid) y x.
Proof.
  apply (enforce_constraints_cells plains_grid (heap (plains_state 0 0)) []).
  apply wfb_wf. vm_compute. reflexivity.
Defined.

(** X2.  On every full map [place_river] returns without reading a draw;
    afterwards the three cells around the river row of every column hold
    River and every other cell is as it was.  The rows of the band lie
    strictly inside the border rows, so the row test of line 79 never
    skips a cell. *)
Theorem place_river_cells g h t :
  wf h g →
  ∃ h', place_river g (mkState h t) = Ok (tt, mkState h' t) ∧
        wf h' g ∧
        ∀ y x, in_map y x →
          at_ (view h' g) y x = (if in_band y x then RIVER else at_ (view h g) y x) ∧
          (in_band y x = true → 0 < y < MAP_HEIGHT - 1).
Proof.
  intros Hwf.
  destruct (acts_calm_returns g _ _ h t (place_river_spec g)
              (calm_place_river g) Hwf) as ([] & h' & Hrun & Hwf' & Hcells).
  exists h'. split; [done|]. split; [done|].
  intros y x Hin. split; [by apply Hcells|].
  intros Hband. unfold in_band in Hband.
  apply andb_true_iff in Hband as [H1%Z.leb_le H2%Z.leb_le].
  pose proof (get_river_row_bounds x (proj2 Hin)). unfold MAP_HEIGHT. lia.
Qed.

Lemma place_river_cells_witness :
  ∃ h', place_river plains_grid (plains_state 0 0) = Ok (tt, mkState h' []) ∧
        wf h' plains_grid ∧
        ∀ y x, in_map y x →
          at_ (view h' plains_grid) y x =
            (if in_band y x then RIVER
             else at_ (view (heap (plains_state 0 0)) plains_grid) y x) ∧
          (in_band y x = true → 0 < y < MAP_HEIGHT - 1).
Proof.
  apply (place_river_cells plains_grid (heap (plains_state 0 0)) []).
  apply wfb_wf. vm_compute. reflexivity.
Defined.

(** X3.  The rock-clearing loop of [mutate] returns on every full map
    without reading a draw; it turns every Rock cell into Plains and leaves
    the other cells, so no Rock is left. *)
Theorem clear_rocks_cells g h t :
  wf h g →
  ∃ h', clear_rocks g (mkState h t) = Ok (tt, mkState h' t) ∧
        wf h' g ∧
        (∀ y x, in_map y x →
           at_ (view h' g) y x =
             if at_ (view h g) y x =? ROCK then PLAINS else at_ (view h g) y x) ∧
        count_tile ROCK (view h' g) = 0.
Proof.
  intros Hwf.
  destruct (acts_calm_returns g _ _ h t (clear_rocks_spec g)
              (calm_clear_rocks g) Hwf) as ([] & h' & Hrun & Hwf' & Hcells).
  exists h'. split; [done|]. split; [done|]. split; [done|].
  apply count_tile_zero. intros y x Hin. rewrite (Hcells y x Hin).
  destruct (Z.eqb_spec (at_ (view h g) y x) ROCK); done.
Qed.

Lemma clear_rocks_cells_witness :
  ∃ h', clear_rocks plains_grid (plains_state 0 0) = Ok (tt, mkState h' []) ∧
        wf h' plains_grid ∧
        (∀ y x, in_map y x →
           at_ (view h' plains_grid) y x =
             if at_ (view (heap (plains_state 0 0)) plains_grid) y x =? ROCK
             then PLAINS
             else at_ (view (heap (plains_state 0 0)) plains_grid) y x) ∧
        count_tile ROCK (view h' plains_grid) = 0.
Proof.
  apply (clear_rocks_cells plains_grid (heap (plains_state 0 0)) []).
  apply wfb_wf. vm_compute. reflexivity.
Defined.

(** ** Rock placement on its own *)

Lemma seed_loop_box turns g :
  acts g (seed_loop turns g)
    (λ m0 c m1, m1 = m0 ∧ 5 <= c.1 <= 25 ∧ 5 <= c.2 <= 25 ∧
                at_ m0 c.2 c.1 ≠ MOUNTAIN).
Proof.
  induction turns as [|turns IH]; simpl.
  - intros s _. done.
  - eapply acts_bind_given;
      [apply (acts_randint_same g 5 (MAP_WIDTH - 5)); unfold MAP_WIDTH; lia| |].
    + intros cx Hcx.
      eapply acts_bind_given;
        [apply (acts_randint_same g 5 (MAP_HEIGHT - 5)); unfold MAP_HEIGHT; lia| |].
      * intros cy Hcy.
        assert (Hin : in_map cy cx) by (unfold in_map, MAP_WIDTH, MAP_HEIGHT in *; lia).
        apply (acts_bind g _ _ (λ m0 t m1, m1 = m0 ∧ t = at_ m0 cy cx)
                 (λ t m0 (c : Z * Z) m1, t = at_ m0 cy cx →
                    m1 = m0 ∧ 5 <= c.1 <= 25 ∧ 5 <= c.2 <= 25 ∧
                    at_ m0 c.2 c.1 ≠ MOUNTAIN)
                 (λ m0 (c : Z * Z) m1,
                    m1 = m0 ∧ 5 <= c.1 <= 25 ∧ 5 <= c.2 <= 25 ∧
                    at_ m0 c.2 c.1 ≠ MOUNTAIN)).
        -- by apply acts_get_cell.
        -- intros t. destruct (Z.eqb_spec t MOUNTAIN) as [->|Hne].
           ++ eapply acts_weaken; [apply IH|]. simpl. intros m0 c m1 _ _ H _. exact H.
           ++ apply acts_ret. intros m _ Ht. cbn [fst snd].
              unfold MAP_WIDTH, MAP_HEIGHT in *.
              split; [done|]. split; [lia|]. split; [lia|]. by rewrite <- Ht.
        -- simpl. intros m0 t m1 c m2 _ _ _ [-> ->] H. by apply H.
      * simpl. intros m0 cy m1 c m2 _ _ _ -> H. exact H.
    + simpl. intros m0 cx m1 c m2 _ _ _ -> H. exact H.
Qed.

Lemma boxed_refl m : boxed m m.
Proof. by intros y x _ Hne. Qed.

Lemma boxed_trans m0 m1 m2 : boxed m0 m1 → boxed m1 m2 → boxed m0 m2.
Proof.
  intros H1 H2 y x Hin Hne.
  destruct (decide (at_ m1 y x = at_ m0 y x)) as [Heq|Hne1].
  - apply (H2 y x Hin). by rewrite Heq.
  - by apply (H1 y x Hin).
Qed.

Lemma rock_turn_box g (c : Z * Z) :
  5 <= c.1 <= 25 → 5 <= c.2 <= 25 →
  acts g
    (nx <- (d <- randint (-1) 1 ;; ret (c.1 + d)) ;;
     ny <- (d <- randint (-1) 1 ;; ret (c.2 + d)) ;;
     if (0 <? nx) && (nx <? MAP_WIDTH - 1) && (0 <? ny) && (ny <? MAP_HEIGHT - 1)
     then t <- get_cell g ny nx ;;
          if t =? PLAINS then set_cell g ny nx ROCK else ret tt
     else ret tt)
    (λ m0 _ m1, boxed m0 m1).
Proof.
  intros Hc1 Hc2.
  apply (acts_bind_given g _ _ (λ nx, c.1 - 1 <= nx <= c.1 + 1)
           (λ m0 _ m1, m1 = m0) (λ _ m0 _ m1, boxed m0 m1)).
  - apply acts_offset.
  - intros nx Hnx.
    apply (acts_bind_given g _ _ (λ ny, c.2 - 1 <= ny <= c.2 + 1)
             (λ m0 _ m1, m1 = m0) (λ _ m0 _ m1, boxed m0 m1)
             (λ m0 _ m1, boxed m0 m1)).
    + apply acts_offset.
    + intros ny Hny.
      destruct ((0 <? nx) && (nx <? MAP_WIDTH - 1) && (0 <? ny) &&
                (ny <? MAP_HEIGHT - 1)) eqn:Hguard.
      * repeat rewrite andb_true_iff in Hguard. rewrite !Z.ltb_lt in Hguard.
        assert (Hin : in_map ny nx) by (unfold in_map; lia).
        apply (acts_bind g _ _ (λ m0 _ m1, m1 = m0)
                 (λ _ m0 _ m1, boxed m0 m1) (λ m0 _ m1, boxed m0 m1)).
        -- eapply acts_weaken; [by apply acts_get_cell|]. simpl.
           by intros ? ? ? _ _ [-> _].
        -- intros t. destruct (t =? PLAINS).
           ++ eapply acts_weaken; [by apply (acts_set_cell g ny nx ROCK)|].
              simpl. intros m0 _ m1 Hm0 _ -> y x [Hy Hx] Hne.
              rewrite at_upd in Hne by (done || lia).
              case_bool_decide as Heq; [|done]. destruct Heq as [-> ->]. lia.
           ++ apply acts_ret. intros m _. apply boxed_refl.
        -- simpl. intros m0 _ m1 _ m2 _ _ _ -> H. exact H.
      * apply acts_ret. intros m _. apply boxed_refl.
    + simpl. intros m0 _ m1 _ m2 _ _ _ -> H. exact H.
  - simpl. intros m0 _ m1 _ m2 _ _ _ -> H. exact H.
Qed.

Lemma place_rocks_box g num_clusters :
  acts g (place_rocks g num_clusters) (λ m0 _ m1, boxed m0 m1).
Proof.
  unfold place_rocks.
  apply (acts_for_each_closed g _ _ boxed).
  - intros m _. apply boxed_refl.
  - intros m0 m1 m2 _ _ _. apply boxed_trans.
  - intros i _.
    apply (acts_bind_given g _ _ (λ c : Z * Z, 5 <= c.1 <= 25 ∧ 5 <= c.2 <= 25)
             (λ m0 _ m1, m1 = m0) (λ _ m0 _ m1, boxed m0 m1)
             (λ m0 _ m1, boxed m0 m1)).
    + intros s Hwf. pose proof (seed_loop_box (length (tape s)) g s Hwf) as H.
      unfold pick_seed. destruct (seed_loop _ g s) as [[c s']| |]; [|done..].
      destruct H as (? & ? & ? & -> & ? & ? & _). done.
    + intros c [Hc1 Hc2].
      apply (acts_bind g _ _ (λ m0 _ m1, m1 = m0) (λ _ m0 _ m1, boxed m0 m1)
               (λ m0 _ m1, boxed m0 m1)).
      * eapply acts_weaken; [apply (acts_randint g 3 5); lia|]. simpl.
        by intros ? ? ? _ _ [-> _].
      * intros cluster_size.
        apply (acts_for_each_closed g _ _ boxed).
        -- intros m _. apply boxed_refl.
        -- intros m0 m1 m2 _ _ _. apply boxed_trans.
        -- intros j _. by apply rock_turn_box.
      * simpl. intros m0 _ m1 _ m2 _ _ _ -> H. exact H.
    + simpl. intros m0 _ m1 _ m2 _ _ _ -> H. exact H.
Qed.

(** X4.  When [place_rocks] returns, every cell is as it was or was Plains
    and is now Rock; the cells it changed lie in rows and columns 4 to 26,
    the number of Rock cells grew by at most five for each cluster, and no
    other list of the store was written. *)
Theorem place_rocks_cells g num_clusters s s' :
  wf (heap s) g →
  place_rocks g num_clusters s = Ok (tt, s') →
  wf (heap s') g ∧
  (∀ y x, in_map y x →
     at_ (view (heap s') g) y x = at_ (view (heap s) g) y x ∨
     (at_ (view (heap s) g) y x = PLAINS ∧ at_ (view (heap s') g) y x = ROCK ∧
      4 <= y <= 26 ∧ 4 <= x <= 26)) ∧
  count_tile ROCK (view (heap s') g) <=
    count_tile ROCK (view (heap s) g) + 5 * Z.max 0 num_clusters ∧
  (∀ l, l ∉ g → heap s' !! l = heap s !! l).
Proof.
  intros Hwf Hrun.
  pose proof (place_rocks_spec g num_clusters s Hwf) as Hspec.
  pose proof (place_rocks_box g num_clusters s Hwf) as Hbox.
  rewrite Hrun in Hspec, Hbox.
  destruct Hspec as (Hwf' & _ & Hframe & Hcells & Hcount).
  destruct Hbox as (_ & _ & _ & Hbox).
  split; [done|]. split; [|done].
  intros y x Hin. destruct (Hcells y x Hin) as [Heq|(H0 & H1 & _)]; [by left|].
  right. split; [done|]. split; [done|].
  apply (Hbox y x Hin). rewrite H0, H1. done.
Qed.

Lemma place_rocks_cells_witness :
  count_tile ROCK
    (view (heap (final_state (place_rocks plains_grid 8 (plains_state 5 120))))
       plains_grid) <=
  count_tile ROCK (view (heap (plains_state 5 120)) plains_grid) + 5 * Z.max 0 8.
Proof.
  apply (place_rocks_cells plains_grid 8 (plains_state 5 120) _
           ltac:(apply wfb_wf; vm_compute; reflexivity)
           ltac:(vm_compute; reflexivity)).
Defined.




Lemma seed_loop_mountains g h turns :
  full h g →
  (∀ y x, 5 <= y <= 25 → 5 <= x <= 25 → at_ (view h g) y x = MOUNTAIN) →
  ∀ t, seed_loop turns g (mkState h t) = Starved.
Proof.
  intros Hfull Hall. induction turns as [|turns IH]; intros t; [done|].
  cbn [seed_loop]. unfold bind at 1.
  destruct t as [|r1 t]; [done|]. rewrite randint_run.
  unfold bind at 1.
  destruct t as [|r2 t]; [done|]. rewrite randint_run.
  set (cx := 5 + r1 mod (MAP_WIDTH - 5 - 5 + 1)).
  set (cy := 5 + r2 mod (MAP_HEIGHT - 5 - 5 + 1)).
  assert (Hcx : 5 <= cx <= 25).
  { pose proof (Z.mod_pos_bound r1 21 eq_refl). unfold cx, MAP_WIDTH.
    change (30 - 5 - 5 + 1) with 21. lia. }
  assert (Hcy : 5 <= cy <= 25).
  { pose proof (Z.mod_pos_bound r2 21 eq_refl). unfold cy, MAP_HEIGHT.
    change (30 - 5 - 5 + 1) with 21. lia. }
  assert (Hin : in_map cy cx) by (unfold in_map, MAP_WIDTH, MAP_HEIGHT; lia).
  unfold bind at 1. rewrite (get_cell_run h t g cy cx Hfull Hin).
  rewrite (Hall cy cx Hcy Hcx). simpl. apply IH.
Qed.

(** X6.  On a map whose square of rows and columns 5 to 25 holds only
    Mountain, [place_rocks] with at least one cluster never returns: the
    seed loop finds no cell to leave on, whatever the generator yields. *)
Theorem place_rocks_no_seed g h num_clusters :
  full h g →
  (∀ y x, 5 <= y <= 25 → 5 <= x <= 25 → at_ (view h g) y x = MOUNTAIN) →
  1 <= num_clusters →
  ∀ t, place_rocks g num_clusters (mkState h t) = Starved.
Proof.
  intros Hfull Hall Hn t. unfold place_rocks, range.
  rewrite seqZ_cons by lia. cbn [for_each]. unfold bind at 1.
  unfold bind at 1. unfold pick_seed. cbn [tape].
  by rewrite (seed_loop_mountains g h (length t) Hfull Hall t).
Qed.

Lemma place_rocks_no_seed_witness :
  place_rocks plains_grid 8 (mountain_state (replicate 50 7)) = Starved.
Proof.
  apply (place_rocks_no_seed plains_grid (heap (mountain_state [])) 8).
  - apply wf_full, wfb_wf. vm_compute. reflexivity.
  - intros y x Hy Hx.
    assert (Hin : in_map y x) by (unfold in_map, MAP_HEIGHT, MAP_WIDTH; lia).
    apply Z.eqb_eq.
    apply (forall_cells (λ y x, at_ (view (heap (mountain_state [])) plains_grid) y x
                                =? MOUNTAIN)); [|done].
    vm_compute. reflexivity.
  - lia.
Defined.

(** ** Random generation *)

Lemma for_fold_app {A B} (l1 l2 : list A) (body : A → B → M B) acc s :
  for_fold (l1 ++ l2) body acc s =
  match for_fold l1 body acc s with
  | Ok (acc', s') => for_fold l2 body acc' s'
  | Raise e => Raise e
  | Starved => Starved
  end.
Proof.
  revert acc s. induction l1 as [|a l1 IH]; intros acc s; simpl; [done|].
  unfold bind. destruct (body a acc s) as [[acc' s']| |]; [|done..]. apply IH.
Qed.

(** A border row: thirty Mountain cells, no draw read. *)
Lemma border_row_run y s (xs : list Z) :
  (y =? 0) || (y =? MAP_HEIGHT - 1) = true →
  ∀ row,
    for_fold xs (λ x row,
      if (x =? 0) || (x =? MAP_WIDTH - 1) || (y =? 0) || (y =? MAP_HEIGHT - 1)
      then ret (row ++ [MOUNTAIN])
      else t <- randint 0 3 ;; ret (row ++ [t])) row s =
    Ok (row ++ replicate (length xs) MOUNTAIN, s).
Proof.
  intros Hy. induction xs as [|x xs IH]; intros row; simpl.
  - by rewrite app_nil_r.
  - assert (Hg : (x =? 0) || (x =? MAP_WIDTH - 1) || (y =? 0) || (y =? MAP_HEIGHT - 1)
                 = true).
    { rewrite <- orb_assoc, Hy. apply orb_true_r. }
    rewrite Hg. unfold bind, ret at 1. rewrite IH.
    by rewrite <- app_assoc.
Qed.

Lemma for_fold_cons_ok {A B} (a : A) l (body : A → B → M B) acc s acc' s' :
  body a acc s = Ok (acc', s') →
  for_fold (a :: l) body acc s = for_fold l body acc' s'.
Proof. intros H. cbn [for_fold]. unfold bind. by rewrite H. Qed.

(** The inner cells of an inner row: one draw each. *)
Lemma inner_cells_run y h (n : nat) :
  0 < y < MAP_HEIGHT - 1 →
  ∀ a row t, 0 < a → a + Z.of_nat n <= MAP_WIDTH - 1 → (n <= length t)%nat →
    for_fold (seqZ a (Z.of_nat n)) (λ x row,
      if (x =? 0) || (x =? MAP_WIDTH - 1) || (y =? 0) || (y =? MAP_HEIGHT - 1)
      then ret (row ++ [MOUNTAIN])
      else t <- randint 0 3 ;; ret (row ++ [t])) row (mkState h t) =
    Ok (row ++ ((λ r, r mod 4) <$> take n t), mkState h (drop n t)).
Proof.
  intros Hy. induction n as [|n IH]; intros a row t Ha Han Hlen.
  - simpl. by rewrite app_nil_r.
  - rewrite seqZ_cons by lia.
    assert (Hg : (a =? 0) || (a =? MAP_WIDTH - 1) || (y =? 0) || (y =? MAP_HEIGHT - 1)
                 = false).
    { repeat rewrite orb_false_iff. rewrite !Z.eqb_neq. lia. }
    destruct t as [|r t]; [simpl in Hlen; lia|].
    rewrite (for_fold_cons_ok _ _ _ _ _ (row ++ [r mod 4]) (mkState h t)).
    2:{ cbv beta. rewrite Hg. unfold bind. rewrite randint_run. reflexivity. }
    replace (Z.pred (Z.of_nat (S n))) with (Z.of_nat n) by lia.
    rewrite IH by (simpl in Hlen; lia).
    cbn [take drop fmap list_fmap]. rewrite <- app_assoc. done.
Qed.

(** An inner row: Mountain, 28 drawn cells, Mountain. *)
Lemma inner_row_run y h t :
  0 < y < MAP_HEIGHT - 1 → (28 <= length t)%nat →
  for_fold (range MAP_WIDTH) (λ x row,
    if (x =? 0) || (x =? MAP_WIDTH - 1) || (y =? 0) || (y =? MAP_HEIGHT - 1)
    then ret (row ++ [MOUNTAIN])
    else t <- randint 0 3 ;; ret (row ++ [t])) [] (mkState h t) =
  Ok (MOUNTAIN :: ((λ r, r mod 4) <$> take 28 t) ++ [MOUNTAIN],
      mkState h (drop 28 t)).
Proof.
  intros Hy Hlen.
  change (range MAP_WIDTH) with (0 :: seqZ 1 (Z.of_nat 28) ++ [29]).
  rewrite (for_fold_cons_ok _ _ _ _ _ [MOUNTAIN] (mkState h t)) by reflexivity.
  rewrite for_fold_app.
  rewrite (inner_cells_run y h 28 Hy 1 _ t) by (unfold MAP_WIDTH; lia || done).
  rewrite (for_fold_cons_ok _ _ _ _ _
             ([MOUNTAIN] ++ ((λ r, r mod 4) <$> take 28 t) ++ [MOUNTAIN])
             (mkState h (drop 28 t))).
  - reflexivity.
  - change (29 =? 0) with false. change (29 =? MAP_WIDTH - 1) with true.
    cbn [orb]. unfold ret. by rewrite <- app_assoc.
Qed.

(** The rows [a .. a + n - 1] of the map, all inner rows. *)
Lemma inner_rows_run (n : nat) :
  ∀ a m h t, 0 < a → a + Z.of_nat n <= MAP_HEIGHT - 1 → (28 * n <= length t)%nat →
    for_fold (seqZ a (Z.of_nat n)) (λ y m,
      row <- for_fold (range MAP_WIDTH) (λ x row,
               if (x =? 0) || (x =? MAP_WIDTH - 1) || (y =? 0) || (y =? MAP_HEIGHT - 1)
               then ret (row ++ [MOUNTAIN])
               else t <- randint 0 3 ;; ret (row ++ [t])) [] ;;
      l <- alloc row ;;
      ret (m ++ [l])) m (mkState h t) =
    Ok (m ++ seq (length h) n,
        mkState (h ++ ((λ i, MOUNTAIN :: ((λ r, r mod 4) <$> take 28 (drop (28 * i) t))
                             ++ [MOUNTAIN]) <$> seq 0 n))
                (drop (28 * n) t)).
Proof.
  induction n as [|n IH]; intros a m h t Ha Han Hlen.
  - simpl. by rewrite !app_nil_r.
  - rewrite seqZ_cons by lia.
    rewrite (for_fold_cons_ok _ _ _ _ _ (m ++ [length h])
               (mkState (h ++ [MOUNTAIN :: ((λ r, r mod 4) <$> take 28 t) ++ [MOUNTAIN]])
                        (drop 28 t))).
    2:{ cbv beta. unfold bind at 1.
        rewrite (inner_row_run a h t) by lia. reflexivity. }
    replace (Z.pred (Z.of_nat (S n))) with (Z.of_nat n) by lia.
    rewrite IH by (rewrite ?length_drop; lia).
    rewrite length_app. cbn [length].
    rewrite <- !app_assoc. cbn [app seq fmap list_fmap].
    replace (length h + 1)%nat with (S (length h)) by lia.
    rewrite drop_drop. replace (28 + 28 * n)%nat with (28 * S n)%nat by lia.
    rewrite <- (fmap_S_seq 0 n), <- list_fmap_compose.
    change (drop (28 * 0) t) with t.
    do 5 f_equal. apply list_fmap_ext. intros i j _. cbn [compose].
    rewrite drop_drop.
    by replace (28 + 28 * j)%nat with (28 * S j)%nat by lia.
Qed.

Lemma seq_ends a n : seq a (S (S n)) = [a] ++ seq (S a) n ++ [S (a + n)].
Proof.
  rewrite seq_S. cbn [seq app]. by rewrite Nat.add_succ_r.
Qed.

(** The cells of the rows a random map is made of, read off the draws. *)
Lemma random_rows_at (t : list Z) y x :
  (784 <= length t)%nat → in_map y x →
  at_ (replicate 30 MOUNTAIN ::
       ((λ i, MOUNTAIN :: ((λ r, r mod 4) <$> take 28 (drop (28 * i) t))
                ++ [MOUNTAIN]) <$> seq 0 28) ++ [replicate 30 MOUNTAIN]) y x =
  if on_border y x then MOUNTAIN
  else default 0 (t !! Z.to_nat (28 * (y - 1) + (x - 1))) mod 4.
Proof.
  intros Hlen [Hy Hx]. unfold MAP_HEIGHT, MAP_WIDTH in *. unfold at_, on_border.
  destruct (Z.eqb_spec y 0) as [->|Hy0].
  { cbn [orb]. change (Z.to_nat 0) with 0%nat. cbn [lookup list_lookup mbind option_bind].
    by rewrite lookup_replicate_2 by lia. }
  destruct (Z.eqb_spec y (MAP_HEIGHT - 1)) as [->|Hy29].
  { cbn [orb]. change (Z.to_nat (MAP_HEIGHT - 1)) with 29%nat.
    rewrite lookup_cons_ne_0 by done. cbn [Nat.pred].
    rewrite lookup_app_r by (rewrite length_fmap, length_seq; done).
    rewrite length_fmap, length_seq. cbn [Nat.sub lookup list_lookup mbind option_bind].
    by rewrite lookup_replicate_2 by lia. }
  unfold MAP_HEIGHT in Hy29. cbn [orb].
  replace (Z.to_nat y) with (S (Z.to_nat (y - 1))) by lia.
  rewrite lookup_cons_ne_0 by done. cbn [Nat.pred].
  rewrite lookup_app_l by (rewrite length_fmap, length_seq; lia).
  rewrite list_lookup_fmap, lookup_seq_lt by lia. cbn [fmap option_fmap option_map mbind option_bind].
  rewrite Nat.add_0_l.
  destruct (Z.eqb_spec x 0) as [->|Hx0]; [done|].
  destruct (Z.eqb_spec x (MAP_WIDTH - 1)) as [->|Hx29].
  { change (Z.to_nat (MAP_WIDTH - 1)) with 29%nat.
    rewrite lookup_cons_ne_0 by done. cbn [Nat.pred].
    rewrite lookup_app_r; rewrite length_fmap, length_take, length_drop; [|lia].
    by replace (28 - (28 `min` (length t - 28 * Z.to_nat (y - 1))))%nat with 0%nat by lia. }
  unfold MAP_WIDTH in Hx29. cbn [orb].
  replace (Z.to_nat x) with (S (Z.to_nat (x - 1))) by lia.
  rewrite lookup_cons_ne_0 by done. cbn [Nat.pred].
  rewrite lookup_app_l by (rewrite length_fmap, length_take, length_drop; lia).
  rewrite list_lookup_fmap, lookup_take_lt by lia. rewrite lookup_drop.
  replace (Z.to_nat (28 * (y - 1) + (x - 1)))
    with (28 * Z.to_nat (y - 1) + Z.to_nat (x - 1))%nat by lia.
  destruct (lookup_lt_is_Some_2 t (28 * Z.to_nat (y - 1) + Z.to_nat (x - 1)))
    as [r Hr]; [lia|].
  by rewrite Hr.
Qed.

Lemma generate_random_map_run h t :
  (784 <= length t)%nat →
  ∃ g h', generate_random_map (mkState h t) = Ok (g, mkState h' (drop 784 t)) ∧
          fresh_map h h' g ∧
          ∀ y x, in_map y x →
            0 <= at_ (view h' g) y x <= 3 ∧
            at_ (view h' g) y x =
              if on_border y x then MOUNTAIN
              else default 0 (t !! Z.to_nat (28 * (y - 1) + (x - 1))) mod 4.
Proof.
  intros Hlen.
  set (rows := replicate 30 MOUNTAIN ::
       ((λ i, MOUNTAIN :: ((λ r, r mod 4) <$> take 28 (drop (28 * i) t))
                ++ [MOUNTAIN]) <$> seq 0 28) ++ [replicate 30 MOUNTAIN]).
  assert (Hrows_len : length rows = Z.to_nat MAP_HEIGHT).
  { unfold rows. cbn [length]. by rewrite length_app, length_fmap, length_seq. }
  assert (Hrun : generate_random_map (mkState h t) =
                 Ok (seq (length h) (Z.to_nat MAP_HEIGHT),
                     mkState (h ++ rows) (drop 784 t))).
  { unfold generate_random_map.
    change (range MAP_HEIGHT) with (0 :: seqZ 1 (Z.of_nat 28) ++ [29]).
    rewrite (for_fold_cons_ok _ _ _ _ _ [length h]
               (mkState (h ++ [replicate 30 MOUNTAIN]) t)).
    2:{ cbv beta. unfold bind at 1.
        rewrite border_row_run by reflexivity. reflexivity. }
    rewrite for_fold_app.
    rewrite (inner_rows_run 28 1 _ _ t) by (unfold MAP_HEIGHT; lia || done).
    rewrite (for_fold_cons_ok _ _ _ _ _
               (([length h] ++ seq (length (h ++ [replicate 30 MOUNTAIN])) 28) ++
                [length ((h ++ [replicate 30 MOUNTAIN]) ++
                   ((λ i, MOUNTAIN :: ((λ r, r mod 4) <$> take 28 (drop (28 * i) t))
                            ++ [MOUNTAIN]) <$> seq 0 28))])
               (mkState (((h ++ [replicate 30 MOUNTAIN]) ++
                   ((λ i, MOUNTAIN :: ((λ r, r mod 4) <$> take 28 (drop (28 * i) t))
                            ++ [MOUNTAIN]) <$> seq 0 28)) ++ [replicate 30 MOUNTAIN])
                  (drop (28 * 28) t))).
    2:{ cbv beta. unfold bind at 1.
        rewrite border_row_run by reflexivity. reflexivity. }
    cbn [for_fold]. unfold ret. f_equal. f_equal.
    - rewrite !length_app, length_fmap, length_seq. cbn [length].
      change (Z.to_nat MAP_HEIGHT) with (S (S 28)).
      rewrite (seq_ends (length h) 28).
      rewrite <- app_assoc.
      replace (length h + 1)%nat with (S (length h)) by lia.
      by replace (S (length h) + 28)%nat with (S (length h + 28)) by lia.
    - unfold rows. f_equal. rewrite <- !app_assoc. done. }
  exists (seq (length h) (Z.to_nat MAP_HEIGHT)), (h ++ rows).
  split; [exact Hrun|].
  assert (Hfresh : fresh_map h (h ++ rows) (seq (length h) (Z.to_nat MAP_HEIGHT))).
  { apply fresh_rows; [done|]. unfold rows.
    constructor; [done|]. apply Forall_app. split.
    - apply Forall_fmap, Forall_forall. intros i Hi%list_elem_of_In%elem_of_seq.
      unfold compose. cbn [length].
      rewrite length_app, length_fmap, length_take, length_drop.
      cbn [length]. change (Z.to_nat MAP_WIDTH) with 30%nat. lia.
    - by apply Forall_singleton. }
  split; [exact Hfresh|].
  intros y x Hin.
  pose proof (view_fresh h rows) as Hview. rewrite Hrows_len in Hview.
  rewrite Hview. unfold rows. rewrite (random_rows_at t y x Hlen Hin).
  split; [|done].
  destruct (on_border y x); [unfold MOUNTAIN; lia|].
  pose proof (Z.mod_pos_bound (default 0 (t !! Z.to_nat (28 * (y - 1) + (x - 1)))) 4
                eq_refl). lia.
Qed.

(** X7.  Given 784 draws, [generate_random_map] returns a new full map and
    has read exactly these draws, one for each inner cell in row order: the
    border holds Mountain and the inner cell of row [y] and column [x] holds
    a valid tile, chosen by draw number [28 (y - 1) + (x - 1)].  The lists
    the store held before are kept as they were. *)
Theorem generate_random_map_cells h t :
  (784 <= length t)%nat →
  ∃ g h', generate_random_map (mkState h t) = Ok (g, mkState h' (drop 784 t)) ∧
          fresh_map h h' g ∧
          ∀ y x, in_map y x →
            0 <= at_ (view h' g) y x <= 3 ∧
            at_ (view h' g) y x =
              if on_border y x then MOUNTAIN
              else default 0 (t !! Z.to_nat (28 * (y - 1) + (x - 1))) mod 4.
Proof. apply generate_random_map_run. Qed.

Lemma generate_random_map_cells_witness :
  ∃ g h', generate_random_map (start 6 784) = Ok (g, mkState h' (drop 784 (replicate 784 6))) ∧
          fresh_map [] h' g ∧
          ∀ y x, in_map y x →
            0 <= at_ (view h' g) y x <= 3 ∧
            at_ (view h' g) y x =
              if on_border y x then MOUNTAIN
              else default 0 (replicate 784 6 !! Z.to_nat (28 * (y - 1) + (x - 1))) mod 4.
Proof.
  apply (generate_random_map_cells [] (replicate 784 6)).
  rewrite length_replicate. lia.
Defined.

(** ** Ranking and selection *)

Lemma insert_desc_filter {A} (p : Z * A) l k :
  filter (λ q, q.1 = k) (insert_desc p l) = filter (λ q, q.1 = k) (p :: l).
Proof.
  induction l as [|q l IH]; [done|]. cbn [insert_desc].
  destruct (Z.leb_spec q.1 p.1) as [Hle|Hgt]; [done|].
  rewrite filter_cons, IH, !filter_cons.
  destruct (decide (q.1 = k)) as [Hq|Hq], (decide (p.1 = k)) as [Hp|Hp];
    try done.
  lia.
Qed.

(** X8.  The ranking of line 206 is a stable descending sort: the result is
    a rearrangement of the scored maps with scores in descending order, and
    maps with the same score stay in the order they had in the population. *)
Theorem ranking_stable {A} (l : list (Z * A)) :
  sorted_desc l ≡ₚ l ∧
  StronglySorted (λ a b, b <= a) (sorted_desc l).*1 ∧
  ∀ k, filter (λ q, q.1 = k) (sorted_desc l) = filter (λ q, q.1 = k) l.
Proof.
  split; [apply sorted_desc_perm|]. split; [apply sorted_desc_sorted|].
  intros k. induction l as [|p l IH]; [done|].
  cbn [sorted_desc foldr]. fold (sorted_desc l).
  by rewrite insert_desc_filter, !filter_cons, IH.
Qed.

Lemma argmax_from_spec l :
  ∀ (pre : list Z) best_i best,
    pre !! best_i = Some best →
    (∀ j w, pre !! j = Some w → w <= best) →
    (∀ j w, (j < best_i)%nat → pre !! j = Some w → w < best) →
    ∃ v, (pre ++ l) !! argmax_from (length pre) best_i best l = Some v ∧
         (∀ j w, (pre ++ l) !! j = Some w → w <= v) ∧
         (∀ j w, (j < argmax_from (length pre) best_i best l)%nat →
                 (pre ++ l) !! j = Some w → w < v).
Proof.
  induction l as [|a l IH]; intros pre best_i best Hbest Hmax Hfirst.
  - cbn [argmax_from]. rewrite app_nil_r. by exists best.
  - cbn [argmax_from].
    replace (pre ++ a :: l) with ((pre ++ [a]) ++ l) by (by rewrite <- app_assoc).
    replace (S (length pre)) with (length (pre ++ [a]))
      by (rewrite length_app; simpl; lia).
    destruct (Z.ltb_spec best a) as [Hlt|Hge].
    + apply IH.
      * by rewrite lookup_app_r, Nat.sub_diag.
      * intros j w Hj. apply lookup_app_Some in Hj as [Hj|[_ Hj]].
        -- apply Hmax in Hj. lia.
        -- apply list_lookup_singleton_Some in Hj as [_ <-]. lia.
      * intros j w Hlen Hj. rewrite lookup_app_l in Hj by done.
        apply Hmax in Hj. lia.
    + apply IH.
      * apply lookup_app_l_Some. done.
      * intros j w Hj. apply lookup_app_Some in Hj as [Hj|[_ Hj]].
        -- by apply Hmax in Hj.
        -- apply list_lookup_singleton_Some in Hj as [_ <-]. lia.
      * intros j w Hlen Hj.
        rewrite lookup_app_l in Hj by (apply lookup_lt_Some in Hbest; lia).
        by apply (Hfirst j).
Qed.

(** X9.  The index computed at line 221 is the first index of a maximum of
    the scores: the score there is at least every score and strictly above
    every score before it.  The only error is the [ValueError] of [max] on
    an empty list, and no state is touched. *)
Theorem py_argmax_first_maximum (l : list Z) s :
  match py_argmax l s with
  | Ok (i, s') =>
      s' = s ∧
      ∃ v, l !! i = Some v ∧
           (∀ j w, l !! j = Some w → w <= v) ∧
           (∀ j w, (j < i)%nat → l !! j = Some w → w < v)
  | Raise e => l = [] ∧ e = ValueError
  | Starved => False
  end.
Proof.
  destruct l as [|a l]; [done|]. cbn [py_argmax]. unfold ret.
  split; [done|].
  apply (argmax_from_spec l [a] 0%nat a).
  - done.
  - intros [|j] w Hj; [|done]. injection Hj as <-. lia.
  - intros j w Hj. lia.
Qed.

(** ** The size of the next population *)

Lemma mapM_length {A B} (f : A → M B) (l : list A) :
  ∀ s bs s', mapM f l s = Ok (bs, s') → length bs = length l.
Proof.
  induction l as [|a l IH]; intros s bs s' Hrun.
  - by injection Hrun as <- <-.
  - cbn [mapM] in Hrun. unfold bind at 1 in Hrun.
    destruct (f a s) as [[b s1]| |]; [|done..].
    unfold bind at 1 in Hrun.
    destruct (mapM f l s1) as [[bs' s2]| |] eqn:Hrest; [|done..].
    injection Hrun as <- <-. simpl. f_equal. by apply (IH s1 bs' s2).
Qed.

Lemma fill_length turns population_size sorted_pop :
  ∀ new_population s population' s',
    fill turns population_size sorted_pop new_population s = Ok (population', s') →
    length population' = Nat.max population_size (length new_population).
Proof.
  induction turns as [|turns IH]; intros new_population s population' s' Hrun;
    cbn [fill] in Hrun; case_bool_decide as Hlen.
  - done.
  - injection Hrun as <- <-. lia.
  - unfold bind at 1 in Hrun.
    destruct (choice (take 15 sorted_pop) s) as [[parent1 s1]| |]; [|done..].
    unfold bind at 1 in Hrun.
    destruct (choice (take 15 sorted_pop) s1) as [[parent2 s2]| |]; [|done..].
    unfold bind at 1 in Hrun.
    destruct (crossover parent1 parent2 s2) as [[child s3]| |]; [|done..].
    unfold bind at 1 in Hrun.
    destruct (mutate child s3) as [[child' s4]| |]; [|done..].
    apply IH in Hrun. rewrite length_app in Hrun. simpl in Hrun. lia.
  - injection Hrun as <- <-. lia.
Qed.

(** X10.  When a generation returns, the next population has
    [population_size] maps, or the elites alone when [population_size] is
    below their number: the loop of line 211 only adds maps, so a population
    size under five does not shorten the list of elites. *)
Theorem generation_size population_size population s population' s' :
  generation population_size population s = Ok (population', s') →
  length population' =
    Nat.max population_size (Nat.min 5 (length population)).
Proof.
  intros Hrun. unfold generation in Hrun. unfold bind at 1 in Hrun.
  destruct (mapM calculate_fitness population s) as [[fitness_scores s1]| |]
    eqn:Hscores; [|done..].
  apply mapM_length in Hscores.
  unfold bind at 1 in Hrun.
  destruct (py_max fitness_scores s1) as [[best s2]| |]; [|done..].
  unfold bind at 1 in Hrun.
  destruct (py_mean fitness_scores s2) as [[avg s3]| |]; [|done..].
  apply fill_length in Hrun. rewrite Hrun.
  rewrite length_take, length_fmap.
  rewrite (Permutation_length (sorted_desc_perm _)), length_zip. lia.
Qed.

Lemma generation_size_witness :
  length (default [] (returned (generation 6 (default [] (returned six_individuals))
                                  (final_state six_individuals)))) =
  Nat.max 6 (Nat.min 5 (length (default [] (returned six_individuals)))).
Proof.
  apply (generation_size 6 (default [] (returned six_individuals))
           (final_state six_individuals) _
           (final_state (generation 6 (default [] (returned six_individuals))
                           (final_state six_individuals)))).
  vm_compute. reflexivity.
Defined.

(** * Valid maps along a run *)

Lemma soundb_sound h g : soundb h g = true → sound h g.
Proof.
  intros H. apply andb_true_iff in H as [Hwf Hcells].
  split; [by apply wfb_wf|].
  pose proof (forall_cells (λ y x, cell_okb y x (at_ (view h g) y x)) Hcells) as Hall.
  split; intros y x Hin; specialize (Hall y x Hin); unfold cell_okb in Hall;
    apply andb_true_iff in Hall as [Hrange Hcell];
    apply andb_true_iff in Hrange as [H0%Z.leb_le H3%Z.leb_le].
  - done.
  - destruct (in_band y x); [by apply Z.eqb_eq|].
    destruct (on_border y x); [by apply Z.eqb_eq|].
    intros Hc. rewrite Hc in Hcell.
    apply orb_true_iff in Hcell as [Hcell%Z.eqb_eq|Hcell%Z.eqb_eq]; auto.
Qed.

Lemma forallb_soundb h population :
  forallb (soundb h) population = true → Forall (sound h) population.
Proof.
  intros H. apply Forall_forall. intros g Hg.
  rewrite forallb_forall in H. by apply soundb_sound, H.
Qed.

Lemma sound_extends h0 h g : sound h0 g → extends h0 h → sound h g.
Proof.
  intros (Hwf & Htiles & Hcons) Hext.
  split; [by eapply wf_extends|].
  by rewrite (view_extends_wf h0 h g Hwf Hext).
Qed.

Lemma sound_pop_extends h0 h population :
  Forall (sound h0) population → extends h0 h → Forall (sound h) population.
Proof.
  intros Hs Hext. eapply Forall_impl; [|exact Hs].
  intros g Hg. by eapply sound_extends.
Qed.

Lemma sound_good h population : Forall (sound h) population → good h population.
Proof. intros Hs. eapply Forall_impl; [|exact Hs]. by intros g [Hwf _]. Qed.

Lemma passed_constrained after_mutation m0 m1 :
  passed after_mutation m0 m1 → constrained m1.
Proof.
  intros (m' & _ & Hset & Hrocks & _) y x Hin.
  specialize (Hset y x Hin). unfold settled in Hset.
  destruct (Hrocks y x Hin) as [->|(Hp & Hr & Hb)].
  - rewrite Hset. destruct (in_band y x); [by rewrite andb_false_r|].
    destruct (on_border y x); [by rewrite andb_false_r|].
    intros ->. rewrite andb_false_r. by left.
  - rewrite Hb in Hset. rewrite Hp in Hset. rewrite Hb.
    destruct (in_band y x); [by rewrite andb_false_r in Hset|].
    intros _. by right.
Qed.

Lemma passed_tiles after_mutation m0 m1 :
  tiles_ok m0 → passed after_mutation m0 m1 → tiles_ok m1.
Proof.
  intros Htiles (m' & _ & Hset & Hrocks & _) y x Hin.
  specialize (Hset y x Hin). specialize (Htiles y x Hin). unfold settled in Hset.
  destruct (Hrocks y x Hin) as [->|(_ & -> & _)]; [|unfold ROCK; lia].
  rewrite Hset.
  destruct (in_band y x); [by rewrite andb_false_r|].
  destruct (on_border y x); [by rewrite andb_false_r|].
  destruct (is_in_central_circle x y 15 8); [by rewrite andb_false_r|].
  destruct (after_mutation && (at_ m0 y x =? ROCK)); [unfold PLAINS; lia|done].
Qed.

Lemma mutate_cells_tiles g :
  acts g (mutate_cells g) (λ m0 _ m1, tiles_ok m0 → tiles_ok m1).
Proof.
  unfold mutate_cells.
  apply (acts_for_each_closed g _ _ (λ m0 m1, tiles_ok m0 → tiles_ok m1));
    [by intros m _|by auto|].
  intros y Hy%elem_of_range.
  apply (acts_for_each_closed g _ _ (λ m0 m1, tiles_ok m0 → tiles_ok m1));
    [by intros m _|by auto|].
  intros x Hx%elem_of_range.
  assert (Hin : in_map y x) by done.
  apply (acts_bind g _ _ (λ m0 _ m1, m1 = m0)
           (λ _ m0 _ m1, tiles_ok m0 → tiles_ok m1)
           (λ m0 _ m1, tiles_ok m0 → tiles_ok m1)); [apply acts_random_lt_rate| |].
  - intros hit. destruct hit.
    + apply (acts_bind_given g _ _ (λ t, 0 <= t <= 3) (λ m0 _ m1, m1 = m0)
               (λ _ m0 _ m1, tiles_ok m0 → tiles_ok m1)
               (λ m0 _ m1, tiles_ok m0 → tiles_ok m1)).
      * apply (acts_randint_same g 0 3). lia.
      * intros t Ht. eapply acts_weaken; [by apply (acts_set_cell g y x t)|].
        simpl. intros m0 _ m1 Hm0 _ -> Htiles y' x' [Hy' Hx'].
        rewrite at_upd by (done || lia).
        case_bool_decide; [done|]. by apply Htiles.
      * simpl. intros m0 _ m1 _ m2 _ _ _ -> H. exact H.
    + apply acts_ret. by intros m _.
  - simpl. intros m0 _ m1 _ m2 _ _ _ -> H. exact H.
Qed.

Lemma mutate_tiles g :
  acts g (mutate g)
    (λ m0 r m1, r = g ∧ (tiles_ok m0 → tiles_ok m1 ∧ constrained m1)).
Proof.
  unfold mutate.
  apply (acts_bind g _ _ (λ m0 _ m1, tiles_ok m0 → tiles_ok m1)
           (λ _ m0 r m1, r = g ∧ passed true m0 m1)).
  - apply mutate_cells_tiles.
  - intros u.
    apply (acts_bind g _ _ (λ m0 _ m1, passed true m0 m1)
             (λ _ m0 r m1, r = g ∧ m1 = m0)).
    + apply (enforcer_pass_spec true).
    + intros u'. by apply acts_ret.
    + simpl. intros m0 _ m1 r m2 _ _ _ H1 [-> ->]. done.
  - simpl. intros m0 _ m1 r m2 _ _ _ H1 [-> H2]. split; [done|].
    intros Htiles. split; [|by eapply passed_constrained].
    eapply passed_tiles; [|exact H2]. by apply H1.
Qed.

(** X11.  [mutate] keeps a map valid: given a full map holding only the four
    tiles, it returns the same map, which still holds only the four tiles
    and now meets the constraints of a pass; no other list of the store is
    written. *)
Theorem mutate_keeps_tiles g s g' s' :
  wf (heap s) g → tiles_ok (view (heap s) g) →
  mutate g s = Ok (g', s') →
  g' = g ∧ sound (heap s') g ∧ ∀ l, l ∉ g → heap s' !! l = heap s !! l.
Proof.
  intros Hwf Htiles Hrun.
  pose proof (mutate_tiles g s Hwf) as Hm. rewrite Hrun in Hm.
  destruct Hm as (Hwf' & _ & Hframe & -> & Hsound).
  split; [done|]. split; [|done]. split; [done|]. by apply Hsound.
Qed.

Lemma mutate_keeps_tiles_witness :
  plains_grid = plains_grid ∧
  sound (heap (final_state (mutate plains_grid (plains_state 5 2000)))) plains_grid ∧
  ∀ l, l ∉ plains_grid →
    heap (final_state (mutate plains_grid (plains_state 5 2000))) !! l =
    heap (plains_state 5 2000) !! l.
Proof.
  apply (mutate_keeps_tiles plains_grid (plains_state 5 2000) plains_grid _).
  - apply wfb_wf. vm_compute. reflexivity.
  - intros y x Hin.
    pose proof (forall_cells
      (λ y x, (0 <=? at_ (view (heap (plains_state 5 2000)) plains_grid) y x) &&
              (at_ (view (heap (plains_state 5 2000)) plains_grid) y x <=? 3))
      ltac:(vm_compute; reflexivity) y x Hin) as H.
    apply andb_true_iff in H as [H0%Z.leb_le H3%Z.leb_le]. done.
  - vm_compute. reflexivity.
Defined.

(** ** Children *)

Lemma child_at h map1 map2 y x :
  full h map1 → full h map2 → in_map y x →
  at_ (child_row h map1 map2 <$> seq 0 (Z.to_nat MAP_HEIGHT)) y x =
  at_ (view h (if y <? MAP_HEIGHT / 2 then map1 else map2)) y x.
Proof.
  intros H1 H2 [Hy Hx]. unfold at_. rewrite list_lookup_fmap.
  rewrite lookup_seq_lt by lia. cbn [fmap option_fmap option_map Nat.add].
  unfold child_row. rewrite Z2Nat.id by lia.
  set (g := if y <? MAP_HEIGHT / 2 then map1 else map2).
  assert (Hfull : full h g) by (unfold g; by destruct (_ <? _)).
  destruct (full_lookup h g y Hfull Hy) as (l & row & _ & _ & _ & Hv).
  by rewrite Hv.
Qed.

Lemma child_tiles h map1 map2 :
  full h map1 → full h map2 →
  tiles_ok (view h map1) → tiles_ok (view h map2) →
  tiles_ok (view (h ++ (child_row h map1 map2 <$> seq 0 (Z.to_nat MAP_HEIGHT)))
                 (seq (length h) (Z.to_nat MAP_HEIGHT))).
Proof.
  intros H1 H2 Ht1 Ht2 y x Hin.
  pose proof (view_fresh h (child_row h map1 map2 <$> seq 0 (Z.to_nat MAP_HEIGHT)))
    as Hview.
  rewrite length_fmap, length_seq in Hview. rewrite Hview.
  rewrite (child_at h map1 map2 y x H1 H2 Hin).
  destruct (y <? MAP_HEIGHT / 2); auto.
Qed.

(** X12.  A child is built and mutated in lists of its own: after
    [crossover] and [mutate] the child is the map [crossover] returned, made
    of lists the store did not hold before, and every list the store held
    before, the rows of both parents among them, is as it was. *)
Theorem child_leaves_parents map1 map2 s child s1 child' s2 :
  full (heap s) map1 → full (heap s) map2 →
  crossover map1 map2 s = Ok (child, s1) →
  mutate child s1 = Ok (child', s2) →
  child' = child ∧
  fresh_map (heap s) (heap s2) child ∧
  view (heap s2) map1 = view (heap s) map1 ∧
  view (heap s2) map2 = view (heap s) map2.
Proof.
  destruct s as [h t]. cbn [heap]. intros H1 H2 Hcross Hmut.
  rewrite (crossover_run h t map1 map2 H1 H2) in Hcross.
  set (rows := child_row h map1 map2 <$> seq 0 (Z.to_nat MAP_HEIGHT)) in *.
  assert (Hc : child = seq (length h) (Z.to_nat MAP_HEIGHT) ∧
               s1 = mkState (h ++ rows) t) by (split; congruence).
  destruct Hc as [Hchild ->]. clear Hcross.
  assert (Hfresh : fresh_map h (h ++ rows) child).
  { rewrite Hchild. apply fresh_rows.
    - unfold rows. by rewrite length_fmap, length_seq.
    - unfold rows. apply Forall_fmap, Forall_forall.
      intros y Hy%list_elem_of_In%elem_of_seq. simpl.
      apply child_row_length; [done..|lia]. }
  pose proof (mutate_fresh h child (mkState (h ++ rows) t) Hfresh) as Hm.
  rewrite Hmut in Hm. destruct Hm as (-> & Hfresh').
  split; [done|]. split; [done|].
  destruct Hfresh' as (Hext & _ & _).
  destruct H1 as [Hv1 _], H2 as [Hv2 _].
  split; by apply view_extends.
Qed.

Lemma child_leaves_parents_witness :
  let s1 := final_state (crossover plains_grid plains_grid (plains_state 5 2000)) in
  let child := default [] (returned (crossover plains_grid plains_grid
                                       (plains_state 5 2000))) in
  let s2 := final_state (mutate child s1) in
  child = child ∧
  fresh_map (heap (plains_state 5 2000)) (heap s2) child ∧
  view (heap s2) plains_grid = view (heap (plains_state 5 2000)) plains_grid ∧
  view (heap s2) plains_grid = view (heap (plains_state 5 2000)) plains_grid.
Proof.
  intros s1 child s2.
  apply (child_leaves_parents plains_grid plains_grid (plains_state 5 2000)
           child s1 child s2).
  - apply wf_full, wfb_wf. vm_compute. reflexivity.
  - apply wf_full, wfb_wf. vm_compute. reflexivity.
  - vm_compute. reflexivity.
  - vm_compute. reflexivity.
Defined.

(** ** New individuals *)

Lemma generate_random_map_tiles h t g s' :
  generate_random_map (mkState h t) = Ok (g, s') →
  fresh_map h (heap s') g ∧ tiles_ok (view (heap s') g).
Proof.
  destruct s' as [h' t']. intros Hrun.
  destruct (steady_generate_random_map h t g h' t' Hrun) as (used & _ & Hany).
  specialize (Hany (replicate 784 0)).
  destruct (generate_random_map_run h (used ++ replicate 784 0))
    as (g2 & h2 & Hrun2 & Hfresh & Hcells).
  { rewrite length_app, length_replicate. lia. }
  rewrite Hany in Hrun2.
  assert (Hg : g2 = g).
  { apply (f_equal returned) in Hrun2. cbn [returned] in Hrun2. congruence. }
  assert (Hh : h2 = h').
  { apply (f_equal (λ r, heap (final_state r))) in Hrun2.
    cbn [final_state heap] in Hrun2. congruence. }
  subst g2 h2. cbn [heap]. split; [done|].
  intros y x Hin. by apply Hcells.
Qed.

Lemma new_individual_sound :
  safe (λ _, True) new_individual
    (λ s g s', fresh_map (heap s) (heap s') g ∧ sound (heap s') g).
Proof.
  intros s _. unfold new_individual, bind.
  pose proof (generate_random_map_spec s I) as Hsafe.
  destruct (generate_random_map s) as [[g s1]| |] eqn:Hgen; [|done..].
  clear Hsafe. destruct s as [h t].
  apply generate_random_map_tiles in Hgen as [Hfresh Htiles]. cbn [heap].
  pose proof (enforcer_pass_spec false g s1 (proj1 (proj2 Hfresh))) as Hpass.
  destruct (enforcer_pass false g s1) as [[u s2]| |]; [|done..].
  destruct Hpass as (Hwf & _ & Hframe & Hpassed). cbn [heap].
  split; [by eapply fresh_map_frame|].
  split; [done|]. split.
  - by eapply passed_tiles.
  - by eapply passed_constrained.
Qed.

(** ** Populations *)

Lemma first_population_sound population_size :
  safe (λ _, True) (first_population population_size)
    (λ s population s',
       extends (heap s) (heap s') ∧ Forall (sound (heap s')) population ∧
       length population = population_size).
Proof.
  intros s0 _. unfold first_population.
  pose (I := λ (done : list nat) (population : list (list nat)) (s : state),
    extends (heap s0) (heap s) ∧ Forall (sound (heap s)) population ∧
    length population = length done).
  assert (Hloop : safe (I [] []) (for_fold (seq 0 population_size) (λ _ population,
            individual <- new_individual ;; ret (population ++ [individual])) [])
            (λ _ population s', I (seq 0 population_size) population s')).
  { apply safe_for_fold. intros dn i rest population _.
    intros s (Hext & Hgood & Hlen). unfold bind.
    pose proof (new_individual_sound s Logic.I) as Hnew.
    destruct (new_individual s) as [[g s1]| |]; [|exact Hnew..].
    destruct Hnew as ((Hext1 & _ & _) & Hsound). simpl.
    split; [by eapply extends_trans|]. split.
    - apply Forall_app. split; [by eapply sound_pop_extends|by apply Forall_singleton].
    - rewrite !length_app. simpl. clear -Hlen. lia. }
  assert (HI0 : I [] [] s0).
  { clear Hloop. split; [apply extends_refl|]. split; [constructor|reflexivity]. }
  specialize (Hloop s0 HI0). clear HI0.
  destruct (for_fold _ _ _ s0) as [[population s']| |]; [|exact Hloop..].
  destruct Hloop as (Hext & Hgood & Hlen). rewrite length_seq in Hlen.
  split; [exact Hext|]. split; [exact Hgood|exact Hlen].
Qed.

Lemma fill_sound turns population_size sorted_pop :
  ∀ new_population,
  safe (λ s, Forall (sound (heap s)) sorted_pop ∧
             Forall (sound (heap s)) new_population ∧ sorted_pop ≠ [])
    (fill turns population_size sorted_pop new_population)
    (λ s population' s',
       extends (heap s) (heap s') ∧ Forall (sound (heap s')) population').
Proof.
  induction turns as [|turns IH]; intros new_population s (Hsorted & Hnew & Hne);
    simpl fill; case_bool_decide as Hlen.
  - done.
  - simpl. split; [apply extends_refl|done].
  - assert (Htake : take 15 sorted_pop ≠ []).
    { destruct sorted_pop; [done|]. simpl. done. }
    unfold bind at 1.
    pose proof (choice_spec (take 15 sorted_pop) Htake s I) as H1.
    destruct (choice (take 15 sorted_pop) s) as [[parent1 s1]| |]; [|done..].
    destruct H1 as [Hh1 Hp1]. unfold bind at 1.
    pose proof (choice_spec (take 15 sorted_pop) Htake s1 I) as H2.
    destruct (choice (take 15 sorted_pop) s1) as [[parent2 s2]| |]; [|done..].
    destruct H2 as [Hh2 Hp2].
    assert (Hs2 : heap s2 = heap s) by congruence.
    clear Hh1 Hh2. apply subseteq_take in Hp1, Hp2.
    assert (Hs1 : sound (heap s) parent1).
    { rewrite Forall_forall in Hsorted. by apply Hsorted, list_elem_of_In. }
    assert (Hs2' : sound (heap s) parent2).
    { rewrite Forall_forall in Hsorted. by apply Hsorted, list_elem_of_In. }
    destruct Hs1 as (Hwf1 & Ht1 & _), Hs2' as (Hwf2 & Ht2 & _).
    destruct s2 as [h2 t2]. cbn [heap] in Hs2. subst h2.
    apply wf_full in Hwf1, Hwf2.
    unfold bind at 1. rewrite (crossover_run (heap s) t2 parent1 parent2 Hwf1 Hwf2).
    pose proof (child_tiles (heap s) parent1 parent2 Hwf1 Hwf2 Ht1 Ht2) as Htiles.
    set (rows := child_row (heap s) parent1 parent2 <$> seq 0 (Z.to_nat MAP_HEIGHT))
      in *.
    set (child := seq (length (heap s)) (Z.to_nat MAP_HEIGHT)) in *.
    assert (Hfresh : fresh_map (heap s) (heap s ++ rows) child).
    { apply fresh_rows.
      - unfold rows. by rewrite length_fmap, length_seq.
      - unfold rows. apply Forall_fmap, Forall_forall.
        intros y Hy%list_elem_of_In%elem_of_seq. simpl.
        apply child_row_length; [done..|lia]. }
    unfold bind at 1.
    pose proof (mutate_tiles child (mkState (heap s ++ rows) t2)
                  (proj1 (proj2 Hfresh))) as Hm.
    destruct (mutate child (mkState (heap s ++ rows) t2)) as [[child' s3]| |];
      [|done..].
    cbn [heap] in Hm. destruct Hm as (Hwf3 & _ & Hframe & -> & Hsound).
    specialize (Hsound Htiles).
    assert (Hext : extends (heap s) (heap s3)).
    { by apply (fresh_map_frame (heap s) (heap s ++ rows) (heap s3) child). }
    assert (Hpre : Forall (sound (heap s3)) sorted_pop ∧
                   Forall (sound (heap s3)) (new_population ++ [child]) ∧
                   sorted_pop ≠ []).
    { split; [by eapply sound_pop_extends|]. split; [|done].
      apply Forall_app. split; [by eapply sound_pop_extends|].
      apply Forall_singleton. by split. }
    pose proof (IH (new_population ++ [child]) s3 Hpre) as Hrec.
    destruct (fill turns population_size sorted_pop (new_population ++ [child]) s3)
      as [[population' s']| |]; [|done..].
    destruct Hrec as (Hext' & Hgood').
    split; [by eapply extends_trans|done].
  - simpl. split; [apply extends_refl|done].
Qed.

Lemma generation_sound population_size population :
  safe (λ s, Forall (sound (heap s)) population ∧ population ≠ [])
    (generation population_size population)
    (λ s population' s',
       extends (heap s) (heap s') ∧ Forall (sound (heap s')) population').
Proof.
  intros s [Hsound Hne]. unfold generation.
  unfold bind at 1. rewrite (mapM_fitness population s (sound_good _ _ Hsound)).
  unfold bind at 1.
  assert (Hmax : ∃ best, py_max (fitness (heap s) <$> population) s = Ok (best, s)).
  { destruct population as [|g population]; [done|]. simpl. by eexists. }
  destruct Hmax as [best ->].
  unfold bind at 1. unfold py_mean.
  rewrite bool_decide_eq_false_2.
  2:{ rewrite length_fmap. by destruct population. }
  unfold ret at 1. fold (ranked (heap s) population).
  assert (Hranked : Forall (sound (heap s)) (ranked (heap s) population).*2).
  { by rewrite ranked_perm. }
  apply (fill_sound population_size population_size _ _ s).
  split; [done|]. split; [|by apply ranked_nonempty].
  by apply Forall_take.
Qed.

Lemma generations_sound population_size generations population :
  safe (λ s, Forall (sound (heap s)) population ∧ population ≠ [])
    (for_fold (seq 0 generations) (λ _ population,
       generation population_size population) population)
    (λ s population' s',
       extends (heap s) (heap s') ∧ Forall (sound (heap s')) population' ∧
       population' ≠ []).
Proof.
  intros s0 Hpre.
  pose (I := λ (done : list nat) (population : list (list nat)) (s : state),
    extends (heap s0) (heap s) ∧ Forall (sound (heap s)) population ∧
    population ≠ []).
  assert (Hloop : safe (I [] population) (for_fold (seq 0 generations)
            (λ _ population, generation population_size population) population)
            (λ _ population' s', I (seq 0 generations) population' s')).
  { apply safe_for_fold. intros dn i rest pop _.
    intros s (Hext & Hsound & Hne).
    pose proof (generation_sound population_size pop s (conj Hsound Hne)) as Hgen.
    pose proof (generation_spec population_size pop s
                  (conj (sound_good _ _ Hsound) Hne)) as Hgen'.
    destruct (generation population_size pop s) as [[pop' s']| |]; [|exact Hgen..].
    destruct Hgen as (Hext' & Hsound').
    destruct Hgen' as (_ & _ & children & Hpop).
    split; [by eapply extends_trans|]. split; [exact Hsound'|].
    rewrite Hpop. intros Hnil. apply app_eq_nil in Hnil as [Hnil _].
    apply take_nil_inv in Hnil as [Hnil|Hnil]; [discriminate Hnil|].
    by apply (ranked_nonempty (heap s) pop). }
  assert (HI0 : I [] population s0).
  { clear Hloop. split; [apply extends_refl|exact Hpre]. }
  specialize (Hloop s0 HI0). clear HI0.
  destruct (for_fold _ _ _ s0) as [[population' s']| |]; [|exact Hloop..].
  exact Hloop.
Qed.

Lemma py_argmax_run (l : list Z) s :
  l ≠ [] →
  ∃ i v, py_argmax l s = Ok (i, s) ∧ l !! i = Some v ∧
         (∀ j w, l !! j = Some w → w <= v) ∧
         (∀ j w, (j < i)%nat → l !! j = Some w → w < v).
Proof.
  intros Hne. destruct l as [|a l]; [done|]. cbn [py_argmax]. unfold ret.
  destruct (argmax_from_spec l [a] 0%nat a) as (v & Hv & Hmax & Hfirst).
  - done.
  - intros [|j] w Hj; [|done]. injection Hj as <-. lia.
  - intros j w Hj. lia.
  - exists (argmax_from 1 0 a l), v. done.
Qed.

(** What a run returns, in terms of its last population. *)
Lemma evolve_run population_size generations :
  (1 <= population_size)%nat →
  safe (λ _, True) (evolve population_size generations)
    (λ s r s',
       ∃ population0 s0 population,
         first_population population_size s = Ok (population0, s0) ∧
         for_fold (seq 0 generations) (λ _ population,
           generation population_size population) population0 s0 =
           Ok (population, s') ∧
         extends (heap s) (heap s') ∧
         Forall (sound (heap s')) population ∧
         r.2 = fitness (heap s') r.1 ∧
         ∃ i, population !! i = Some r.1 ∧
              (∀ j g, population !! j = Some g → fitness (heap s') g <= r.2) ∧
              (∀ j g, (j < i)%nat → population !! j = Some g →
                      fitness (heap s') g < r.2)).
Proof.
  intros Hsize s0 _. unfold evolve. unfold bind at 1.
  pose proof (first_population_sound population_size s0 I) as Hfirst.
  destruct (first_population population_size s0) as [[pop0 s1]| |];
    [|exact Hfirst..].
  destruct Hfirst as (Hext0 & Hsound0 & Hlen0).
  assert (Hne0 : pop0 ≠ []).
  { intros ->. simpl in Hlen0. clear -Hlen0 Hsize. lia. }
  unfold bind at 1.
  pose proof (generations_sound population_size generations pop0 s1
                (conj Hsound0 Hne0)) as Hgens.
  destruct (for_fold (seq 0 generations) _ pop0 s1) as [[pop s2]| |] eqn:Hloop;
    [|exact Hgens..].
  destruct Hgens as (Hext & Hsound & Hne). clear Hsound0 Hne0 Hlen0.
  unfold bind at 1. rewrite (mapM_fitness pop s2 (sound_good _ _ Hsound)).
  assert (Hne' : fitness (heap s2) <$> pop ≠ []) by (by destruct pop).
  destruct (py_argmax_run (fitness (heap s2) <$> pop) s2 Hne')
    as (i & v & Harg & Hv & Hmax & Hfirst).
  unfold bind at 1. rewrite Harg.
  rewrite list_lookup_fmap in Hv.
  destruct (pop !! i) as [g|] eqn:Hg; [|done]. injection Hv as <-.
  unfold bind at 1.
  rewrite (item_lookup pop (Z.of_nat i) g) by (rewrite ?Nat2Z.id; done || lia).
  unfold ret at 1. unfold bind at 1.
  rewrite (item_lookup (fitness (heap s2) <$> pop) (Z.of_nat i) (fitness (heap s2) g)).
  2: lia.
  2:{ by rewrite Nat2Z.id, list_lookup_fmap, Hg. }
  unfold ret. cbn [fst snd].
  exists pop0, s1, pop. split; [done|]. split; [done|].
  split; [by eapply extends_trans|]. split; [done|]. split; [done|].
  exists i. split; [done|]. split.
  - intros j g' Hj. apply (Hmax j). by rewrite list_lookup_fmap, Hj.
  - intros j g' Hlt Hj. apply (Hfirst j); [done|]. by rewrite list_lookup_fmap, Hj.
Qed.

(** X13.  When the first population is built it has [population_size] maps;
    each is a full map holding only the four tiles and meeting the
    constraints of a pass, and the lists the store held before are kept. *)
Theorem first_population_maps population_size s population s' :
  first_population population_size s = Ok (population, s') →
  length population = population_size ∧
  Forall (sound (heap s')) population ∧
  extends (heap s) (heap s').
Proof.
  intros Hrun.
  pose proof (first_population_sound population_size s I) as H.
  rewrite Hrun in H. destruct H as (Hext & Hsound & Hlen). done.
Qed.

Lemma first_population_maps_witness :
  length (default [] (returned six_individuals)) = 6%nat ∧
  Forall (sound (heap (final_state six_individuals)))
         (default [] (returned six_individuals)) ∧
  extends (heap (seeded 1 (Z.to_nat 9000))) (heap (final_state six_individuals)).
Proof.
  apply (first_population_maps 6 (seeded 1 (Z.to_nat 9000))).
  vm_compute. reflexivity.
Defined.

(** X14.  A generation keeps the population valid: from a population of
    valid maps it returns a population of valid maps, elites and children
    alike, and it writes into no list the store held before, so every map
    of the old population, selected or not, is as it was. *)
Theorem generation_keeps_sound population_size population s population' s' :
  Forall (sound (heap s)) population →
  generation population_size population s = Ok (population', s') →
  Forall (sound (heap s')) population' ∧
  extends (heap s) (heap s') ∧
  Forall (λ g, view (heap s') g = view (heap s) g) population.
Proof.
  intros Hsound Hrun.
  assert (Hne : population ≠ []).
  { intros ->. discriminate Hrun. }
  pose proof (generation_sound population_size population s (conj Hsound Hne)) as H.
  rewrite Hrun in H. destruct H as (Hext & Hsound').
  split; [done|]. split; [done|].
  eapply Forall_impl; [|exact Hsound]. intros g (Hwf & _). simpl.
  by apply view_extends_wf.
Qed.

Lemma generation_keeps_sound_witness :
  let s := final_state six_individuals in
  let population := default [] (returned six_individuals) in
  let next := generation 6 population s in
  Forall (sound (heap (final_state next))) (default [] (returned next)) ∧
  extends (heap s) (heap (final_state next)) ∧
  Forall (λ g, view (heap (final_state next)) g = view (heap s) g) population.
Proof.
  intros s population next.
  apply (generation_keeps_sound 6 population s (default [] (returned next))
           (final_state next)).
  - apply forallb_soundb. vm_compute. reflexivity.
  - vm_compute. reflexivity.
Defined.

(** X15.  A run returns a best map of its last population: the map is valid,
    the score returned with it is its fitness, no map of the last population
    scores higher, and among the maps with that score it is the first. *)
Theorem evolve_returns_best population_size generations s r s' :
  (1 <= population_size)%nat →
  evolve population_size generations s = Ok (r, s') →
  ∃ population0 s0 population,
    first_population population_size s = Ok (population0, s0) ∧
    for_fold (seq 0 generations) (λ _ population,
      generation population_size population) population0 s0 =
      Ok (population, s') ∧
    sound (heap s') r.1 ∧
    r.2 = fitness (heap s') r.1 ∧
    ∃ i, population !! i = Some r.1 ∧
         (∀ j g, population !! j = Some g → fitness (heap s') g <= r.2) ∧
         (∀ j g, (j < i)%nat → population !! j = Some g →
                 fitness (heap s') g < r.2).
Proof.
  intros Hsize Hrun.
  pose proof (evolve_run population_size generations Hsize s I) as H.
  rewrite Hrun in H.
  destruct H as (pop0 & s0 & pop & Hfirst & Hloop & _ & Hsound & Hscore & i & Hi & Hmax).
  exists pop0, s0, pop. split; [done|]. split; [done|]. split.
  - rewrite Forall_lookup in Hsound. by apply (Hsound i).
  - split; [done|]. by exists i.
Qed.

Lemma evolve_returns_best_witness :
  let r := default ([], 0) (returned (short_run 1)) in
  let s' := final_state (short_run 1) in
  ∃ population0 s0 population,
    first_population 6 (seeded 1 (Z.to_nat 9000)) = Ok (population0, s0) ∧
    for_fold (seq 0 1) (λ _ population, generation 6 population) population0 s0 =
      Ok (population, s') ∧
    sound (heap s') r.1 ∧
    r.2 = fitness (heap s') r.1 ∧
    ∃ i, population !! i = Some r.1 ∧
         (∀ j g, population !! j = Some g → fitness (heap s') g <= r.2) ∧
         (∀ j g, (j < i)%nat → population !! j = Some g →
                 fitness (heap s') g < r.2).
Proof.
  intros r s'.
  apply (evolve_returns_best 6 1 (seeded 1 (Z.to_nat 9000)) r s').
  - lia.
  - vm_compute. reflexivity.
Defined.


(** ** Fitness after a pass *)

Lemma constrained_river_term m : constrained m → river_term m = 50 * MAP_WIDTH.
Proof.
  intros Hcons. unfold river_term.
  rewrite (sumZ_ext _ (λ _, 50)); [reflexivity|].
  intros x Hx%elem_of_range.
  pose proof (get_river_row_bounds x Hx) as Hrow.
  assert (Hin : in_map (get_river_row x + 0) x)
    by (unfold in_map, MAP_HEIGHT; lia).
  pose proof (Hcons _ x Hin) as Hcell.
  assert (Hband : in_band (get_river_row x + 0) x = true).
  { unfold in_band. apply andb_true_iff. rewrite !Z.leb_le. lia. }
  rewrite Hband in Hcell.
  cbn [existsb]. rewrite Hcell, Z.eqb_refl. by rewrite orb_true_r.
Qed.

(** X17.  A map that has been through a constraint pass earns the river
    reward in every column: [calculate_fitness] then returns the circle
    term, the mountain term and the rock term of the map plus
    [50 * MAP_WIDTH], and the penalty of 500 is never applied. *)
Theorem fitness_after_pass (after_mutation : bool) g s s' :
  wf (heap s) g →
  enforcer_pass after_mutation g s = Ok (tt, s') →
  river_term (view (heap s') g) = 50 * MAP_WIDTH ∧
  calculate_fitness g s' =
    Ok (central_term (view (heap s') g) + mountain_term (view (heap s') g) +
        50 * MAP_WIDTH + rock_term (view (heap s') g), s').
Proof.
  intros Hwf Hrun.
  destruct (acts_run g _ _ s tt s' (enforcer_pass_spec after_mutation g) Hwf Hrun)
    as (Hwf' & Hpassed).
  pose proof (constrained_river_term _ (passed_constrained _ _ _ Hpassed)) as Hriver.
  split; [done|].
  rewrite (calculate_fitness_reads g s' (wf_full _ _ Hwf')).
  unfold score. by rewrite Hriver.
Qed.

Lemma fitness_after_pass_witness :
  let s' := final_state (enforcer_pass true plains_grid (plains_state 10 88)) in
  river_term (view (heap s') plains_grid) = 50 * MAP_WIDTH ∧
  calculate_fitness plains_grid s' =
    Ok (central_term (view (heap s') plains_grid) +
        mountain_term (view (heap s') plains_grid) +
        50 * MAP_WIDTH + rock_term (view (heap s') plains_grid), s').
Proof.
  intros s'.
  apply (fitness_after_pass true plains_grid (plains_state 10 88) s').
  - apply wfb_wf. vm_compute. reflexivity.
  - vm_compute. reflexivity.
Defined.

(** ** Termination *)

(** X18.  On every full map a constraint pass and [mutate] can run to their
    end: the pass has put River on the cell of row 15 and column 15 before
    rocks are placed, so the seed loop has a cell to leave on.  With draws
    that hit no cell and seed every cluster there, [mutate] reads 988 draws
    and returns the map it was given. *)
Theorem mutate_can_return g h t :
  wf h g →
  (∃ h', enforcer_pass false g (mkState h (replicate 88 10 ++ t)) =
           Ok (tt, mkState h' t) ∧ wf h' g) ∧
  (∃ h', mutate g (mkState h (replicate 900 (2 ^ 52) ++ replicate 88 10 ++ t)) =
           Ok (g, mkState h' t) ∧ wf h' g).
Proof.
  intros Hwf. split.
  - by apply enforcer_pass_returns.
  - by apply mutate_returns.
Qed.

Lemma mutate_can_return_witness :
  (∃ h', enforcer_pass false plains_grid
           (mkState (heap (plains_state 0 0)) (replicate 88 10 ++ [])) =
           Ok (tt, mkState h' []) ∧ wf h' plains_grid) ∧
  (∃ h', mutate plains_grid
           (mkState (heap (plains_state 0 0))
                    (replicate 900 (2 ^ 52) ++ replicate 88 10 ++ [])) =
           Ok (plains_grid, mkState h' []) ∧ wf h' plains_grid).
Proof.
  apply (mutate_can_return plains_grid (heap (plains_state 0 0)) []).
  apply wfb_wf. vm_compute. reflexivity.
Defined.

(** * Rendering *)

Lemma reads_for_fold {A B} g (l : list A) (body : A → B → M B)
    (F : list (list Z) → B → A → B) :
  (∀ a, a ∈ l → ∀ acc, reads g (body a acc) (λ m, F m acc a)) →
  ∀ acc, reads g (for_fold l body acc) (λ m, foldl (F m) acc l).
Proof.
  induction l as [|a l IH]; intros Hbody acc; cbn [for_fold foldl].
  - apply reads_ret.
  - apply (reads_bind g _ _ (λ m, F m acc a) (λ acc' m, foldl (F m) acc' l)).
    + apply Hbody. left.
    + intros acc'. apply IH. intros b Hb. apply Hbody. by right.
Qed.

Lemma tile_image_valid t : is_Some (TILE_IMAGES t) ↔ 0 <= t <= 3.
Proof.
  unfold TILE_IMAGES, PLAINS, MOUNTAIN, RIVER, ROCK.
  destruct (Z.eqb_spec t 0); [split; [lia|by eexists]|].
  destruct (Z.eqb_spec t 1); [split; [lia|by eexists]|].
  destruct (Z.eqb_spec t 2); [split; [lia|by eexists]|].
  destruct (Z.eqb_spec t 3); [split; [lia|by eexists]|].
  split; [by intros [? ?]|lia].
Qed.

(** The loops of the renderer only read the map. *)
Lemma render_loops_read TILE_SIZE g :
  reads g
    (for_fold (range MAP_HEIGHT) (λ y out,
       for_fold (range MAP_WIDTH) (λ x out,
         match out with
         | inl e => ret (inl e)
         | inr pasted =>
             tile_type <- get_cell g y x ;;
             match TILE_IMAGES tile_type with
             | Some tile_img =>
                 ret (inr (pasted ++
                             [(tile_img, (x * TILE_SIZE.1, y * TILE_SIZE.2))]))
             | None => ret (inl KeyError)
             end
         end) out) (inr []))
    (λ m, foldl (λ out y, foldl (paste_cell TILE_SIZE m y) out (range MAP_WIDTH))
                (inr []) (range MAP_HEIGHT)).
Proof.
  apply (reads_for_fold g _ _
           (λ m out y, foldl (paste_cell TILE_SIZE m y) out (range MAP_WIDTH))).
  intros y Hy%elem_of_range out.
  apply (reads_for_fold g _ _ (λ m out x, paste_cell TILE_SIZE m y out x)).
  intros x Hx%elem_of_range [e|pasted].
  - apply reads_ret.
  - assert (Hin : in_map y x) by done.
    apply (reads_bind g _ _ (λ m, at_ m y x)
             (λ t _, match TILE_IMAGES t with
                     | Some tile_img =>
                         inr (pasted ++
                                [(tile_img, (x * TILE_SIZE.1, y * TILE_SIZE.2))])
                     | None => inl KeyError
                     end)).
    + by apply reads_get_cell.
    + intros t. destruct (TILE_IMAGES t); apply reads_ret.
Qed.

Lemma paste_cell_error TILE_SIZE m y e (xs : list Z) :
  foldl (paste_cell TILE_SIZE m y) (inl e) xs = inl e.
Proof. induction xs as [|x xs IH]; [done|]. exact IH. Qed.

Lemma paste_rows_error TILE_SIZE m e (ys xs : list Z) :
  foldl (λ out y, foldl (paste_cell TILE_SIZE m y) out xs) (inl e) ys = inl e.
Proof.
  induction ys as [|y ys IH]; [done|]. cbn [foldl].
  by rewrite paste_cell_error.
Qed.

(** A row whose tiles all have an image is pasted cell by cell. *)
Lemma paste_row_ok TILE_SIZE m y (xs : list Z) :
  ∀ pasted,
    Forall (λ x, 0 <= at_ m y x <= 3) xs →
    ∃ row, foldl (paste_cell TILE_SIZE m y) (inr pasted) xs = inr (pasted ++ row) ∧
           length row = length xs ∧
           ∀ i x, xs !! i = Some x →
             ∃ img, TILE_IMAGES (at_ m y x) = Some img ∧
                    row !! i = Some (img, (x * TILE_SIZE.1, y * TILE_SIZE.2)).
Proof.
  induction xs as [|x xs IH]; intros pasted Hall.
  - exists []. rewrite app_nil_r. done.
  - inversion Hall as [|? ? Hx Hxs]; subst.
    apply tile_image_valid in Hx as [img Himg].
    cbn [foldl]. unfold paste_cell at 2. rewrite Himg.
    destruct (IH (pasted ++ [(img, (x * TILE_SIZE.1, y * TILE_SIZE.2))]) Hxs)
      as (row & Hrun & Hlen & Hrow).
    exists ((img, (x * TILE_SIZE.1, y * TILE_SIZE.2)) :: row).
    rewrite Hrun, <- app_assoc. split; [done|]. split; [simpl; by rewrite Hlen|].
    intros [|i] x' Hi.
    + injection Hi as <-. by exists img.
    + by apply Hrow.
Qed.

(** A row with a tile that has no image ends in a [KeyError]. *)
Lemma paste_row_error TILE_SIZE m y (xs : list Z) :
  ∀ pasted,
    Exists (λ x, ¬ 0 <= at_ m y x <= 3) xs →
    foldl (paste_cell TILE_SIZE m y) (inr pasted) xs = inl KeyError.
Proof.
  induction xs as [|x xs IH]; intros pasted Hex; [by inversion Hex|].
  cbn [foldl]. unfold paste_cell at 2.
  destruct (TILE_IMAGES (at_ m y x)) as [img|] eqn:Himg.
  - apply IH. inversion Hex as [? ? Hx|? ? Hxs]; subst; [|done].
    exfalso. apply Hx. apply tile_image_valid. by exists img.
  - apply paste_cell_error.
Qed.

Lemma paste_rows_ok TILE_SIZE m (ys : list Z) :
  ∀ pasted,
    Forall (λ y, Forall (λ x, 0 <= at_ m y x <= 3) (range MAP_WIDTH)) ys →
    ∃ rows,
      foldl (λ out y, foldl (paste_cell TILE_SIZE m y) out (range MAP_WIDTH))
            (inr pasted) ys = inr (pasted ++ rows) ∧
      length rows = (length ys * Z.to_nat MAP_WIDTH)%nat ∧
      ∀ j y x, ys !! j = Some y → 0 <= x < MAP_WIDTH →
        ∃ img, TILE_IMAGES (at_ m y x) = Some img ∧
               rows !! (j * Z.to_nat MAP_WIDTH + Z.to_nat x)%nat =
                 Some (img, (x * TILE_SIZE.1, y * TILE_SIZE.2)).
Proof.
  induction ys as [|y ys IH]; intros pasted Hall.
  - exists []. rewrite app_nil_r. done.
  - inversion Hall as [|? ? Hy Hys]; subst. cbn [foldl].
    destruct (paste_row_ok TILE_SIZE m y (range MAP_WIDTH) pasted Hy)
      as (row & Hrun & Hlen & Hrow).
    rewrite Hrun.
    destruct (IH (pasted ++ row) Hys) as (rows & Hrun' & Hlen' & Hrows).
    exists (row ++ rows). rewrite Hrun', <- app_assoc. split; [done|].
    unfold range in Hlen. rewrite length_seqZ in Hlen.
    split; [rewrite length_app, Hlen, Hlen'; simpl; lia|].
    intros [|j] y' x Hj Hx.
    + injection Hj as <-. cbn [Nat.mul Nat.add].
      rewrite lookup_app_l by lia.
      apply Hrow. unfold range. rewrite lookup_seqZ. lia.
    + rewrite lookup_app_r by lia.
      replace (S j * Z.to_nat MAP_WIDTH + Z.to_nat x - length row)%nat
        with (j * Z.to_nat MAP_WIDTH + Z.to_nat x)%nat by lia.
      by apply Hrows.
Qed.

Lemma paste_rows_error' TILE_SIZE m (ys : list Z) :
  ∀ pasted,
    Exists (λ y, Exists (λ x, ¬ 0 <= at_ m y x <= 3) (range MAP_WIDTH)) ys →
    foldl (λ out y, foldl (paste_cell TILE_SIZE m y) out (range MAP_WIDTH))
          (inr pasted) ys = inl KeyError.
Proof.
  induction ys as [|y ys IH]; intros pasted Hex; [by inversion Hex|].
  cbn [foldl].
  destruct (decide (Forall (λ x, 0 <= at_ m y x <= 3) (range MAP_WIDTH)))
    as [Hrow|Hrow].
  - destruct (paste_row_ok TILE_SIZE m y (range MAP_WIDTH) pasted Hrow)
      as (row & -> & _).
    apply IH. inversion Hex as [? ? Hy|? ? Hys]; subst; [|done].
    exfalso. apply Exists_not_Forall in Hy. done.
  - apply not_Forall_Exists in Hrow; [|apply _].
    rewrite (paste_row_error TILE_SIZE m y _ pasted Hrow).
    apply paste_rows_error.
Qed.

Lemma render_map_image_run TILE_SIZE g h t :
  full h g → tiles_ok (view h g) →
  ∃ pasted,
    render_map_image TILE_SIZE g (mkState h t) =
      Ok (inr (mkCanvas (MAP_WIDTH * TILE_SIZE.1) (MAP_HEIGHT * TILE_SIZE.2) pasted),
          mkState h t) ∧
    length pasted = 900%nat ∧
    ∀ y x, in_map y x →
      ∃ img, TILE_IMAGES (at_ (view h g) y x) = Some img ∧
             pasted !! Z.to_nat (MAP_WIDTH * y + x) =
               Some (img, (x * TILE_SIZE.1, y * TILE_SIZE.2)).
Proof.
  intros Hfull Htiles.
  assert (Hall : Forall (λ y, Forall (λ x, 0 <= at_ (view h g) y x <= 3)
                                (range MAP_WIDTH)) (range MAP_HEIGHT)).
  { apply Forall_forall. intros y Hy%list_elem_of_In%elem_of_range.
    apply Forall_forall. intros x Hx%list_elem_of_In%elem_of_range.
    by apply Htiles. }
  destruct (paste_rows_ok TILE_SIZE (view h g) (range MAP_HEIGHT) [] Hall)
    as (rows & Hrun & Hlen & Hrows).
  exists rows. split; [|split].
  - unfold render_map_image. cbv zeta. unfold bind at 1.
    rewrite (render_loops_read TILE_SIZE g (mkState h t) Hfull).
    cbn [heap]. rewrite Hrun. done.
  - rewrite Hlen. unfold range. by rewrite length_seqZ.
  - intros y x [Hy Hx].
    destruct (Hrows (Z.to_nat y) y x) as (img & Himg & Hpaste); [|done|].
    { unfold range. rewrite lookup_seqZ. lia. }
    exists img. split; [done|]. rewrite <- Hpaste. f_equal.
    change (Z.to_nat MAP_WIDTH) with 30%nat. unfold MAP_WIDTH. lia.
Qed.

(** X19.  On a full map holding only the four tiles the renderer raises
    nothing and leaves the store and the generator alone; the output image
    has [MAP_WIDTH] by [MAP_HEIGHT] tiles, and paste number
    [MAP_WIDTH * y + x] puts the image of the tile at row [y] and column [x]
    at the corner [(x * TILE_SIZE[0], y * TILE_SIZE[1])]. *)
Theorem render_map_image_pastes TILE_SIZE g h t :
  full h g → tiles_ok (view h g) →
  ∃ pasted,
    render_map_image TILE_SIZE g (mkState h t) =
      Ok (inr (mkCanvas (MAP_WIDTH * TILE_SIZE.1) (MAP_HEIGHT * TILE_SIZE.2) pasted),
          mkState h t) ∧
    length pasted = 900%nat ∧
    ∀ y x, in_map y x →
      ∃ img, TILE_IMAGES (at_ (view h g) y x) = Some img ∧
             pasted !! Z.to_nat (MAP_WIDTH * y + x) =
               Some (img, (x * TILE_SIZE.1, y * TILE_SIZE.2)).
Proof. apply render_map_image_run. Qed.

Lemma render_map_image_pastes_witness :
  ∃ pasted,
    render_map_image (64, 64) plains_grid (plains_state 0 0) =
      Ok (inr (mkCanvas (MAP_WIDTH * 64) (MAP_HEIGHT * 64) pasted),
          plains_state 0 0) ∧
    length pasted = 900%nat ∧
    ∀ y x, in_map y x →
      ∃ img, TILE_IMAGES (at_ (view (heap (plains_state 0 0)) plains_grid) y x)
               = Some img ∧
             pasted !! Z.to_nat (MAP_WIDTH * y + x) = Some (img, (x * 64, y * 64)).
Proof.
  apply (render_map_image_pastes (64, 64) plains_grid (heap (plains_state 0 0)) []).
  - apply wf_full, wfb_wf. vm_compute. reflexivity.
  - intros y x Hin.
    pose proof (forall_cells
      (λ y x, (0 <=? at_ (view (heap (plains_state 0 0)) plains_grid) y x) &&
              (at_ (view (heap (plains_state 0 0)) plains_grid) y x <=? 3))
      ltac:(vm_compute; reflexivity) y x Hin) as H.
    apply andb_true_iff in H as [H0%Z.leb_le H3%Z.leb_le]. done.
Defined.

(** X20.  The renderer checks no tile: on a full map with a cell holding a
    value that is none of the four tiles, the lookup in [TILE_IMAGES] fails
    and the renderer ends in a [KeyError]; it raises nothing else and
    leaves the store alone. *)
Theorem render_map_image_key_error TILE_SIZE g h t y x :
  full h g → in_map y x → ¬ 0 <= at_ (view h g) y x <= 3 →
  render_map_image TILE_SIZE g (mkState h t) = Ok (inl KeyError, mkState h t).
Proof.
  intros Hfull [Hy Hx] Hbad.
  unfold render_map_image. cbv zeta. unfold bind at 1.
  rewrite (render_loops_read TILE_SIZE g (mkState h t) Hfull). cbn [heap].
  rewrite paste_rows_error'; [done|].
  apply Exists_exists. exists y. split; [by apply list_elem_of_In, elem_of_range|].
  apply Exists_exists. exists x. split; [by apply list_elem_of_In, elem_of_range|].
  done.
Qed.

Lemma render_map_image_key_error_witness :
  render_map_image (64, 64) plains_grid (mkState (replicate 30 (replicate 30 7)) []) =
    Ok (inl KeyError, mkState (replicate 30 (replicate 30 7)) []).
Proof.
  apply (render_map_image_key_error (64, 64) plains_grid
           (replicate 30 (replicate 30 7)) [] 0 0).
  - apply wf_full, wfb_wf. vm_compute. reflexivity.
  - unfold in_map, MAP_HEIGHT, MAP_WIDTH. lia.
  - intros [_ H]. vm_compute in H. by apply H.
Defined.

(** X21.  The map a run hands to the renderer can be rendered: it holds only
    the four tiles, so every lookup in [TILE_IMAGES] finds its image and all
    900 tiles are pasted. *)
Theorem best_map_renders TILE_SIZE population_size generations s r s' :
  (1 <= population_size)%nat →
  evolve population_size generations s = Ok (r, s') →
  ∃ pasted,
    render_map_image TILE_SIZE r.1 s' =
      Ok (inr (mkCanvas (MAP_WIDTH * TILE_SIZE.1) (MAP_HEIGHT * TILE_SIZE.2) pasted),
          s') ∧
    length pasted = 900%nat.
Proof.
  intros Hsize Hrun.
  pose proof (evolve_run population_size generations Hsize s I) as H.
  rewrite Hrun in H.
  destruct H as (pop0 & s0 & pop & _ & _ & _ & Hsound & _ & i & Hi & _).
  assert (Hr : sound (heap s') r.1).
  { rewrite Forall_lookup in Hsound. by apply (Hsound i). }
  destruct Hr as (Hwf & Htiles & _). destruct s' as [h' t'].
  destruct (render_map_image_run TILE_SIZE r.1 h' t' (wf_full _ _ Hwf) Htiles)
    as (pasted & Hrender & Hlen & _).
  by exists pasted.
Qed.

Lemma best_map_renders_witness :
  let r := default ([], 0) (returned (short_run 1)) in
  let s' := final_state (short_run 1) in
  ∃ pasted,
    render_map_image (64, 64) r.1 s' =
      Ok (inr (mkCanvas (MAP_WIDTH * 64) (MAP_HEIGHT * 64) pasted), s') ∧
    length pasted = 900%nat.
Proof.
  intros r s'.
  apply (best_map_renders (64, 64) 6 1 (seeded 1 (Z.to_nat 9000)) r s').
  - lia.
  - vm_compute. reflexivity.
Defined.

(** * The whole program *)

(** ** Draws with which the program goes to its end *)









(** ** The ten runs *)





